(** * Claudequarium movement/state core: a shallow embedding and its properties

    The development follows the browser-side modules of the repository:
    - [mapData.js]      (zones, collision grid, coordinate conversion),
    - [pathfinding.js]  (A* over tiles with a binary min-heap, nearest-walkable
                         substitution, greedy line-of-sight smoothing),
    - [state.js]        (workstation occupancy tables),
    - [entities/*.js]   (creation, state queue, movement, wandering, per-tick
                         update, utilities),
    - [network.js]      (the client's entity store and its message handlers).

    Conventions of the embedding.
    - Tile coordinates are integers ([Z]); pixel coordinates, speeds and
      the results of [Math.random] are exact rationals ([Q]); comparisons
      [===]/[!==] on numbers are [Qeq_bool].
    - A tile key, the string [x,y] built by [tileKey], is represented by the
      pair [(x, y)] itself ([tileKey] is injective and [keyToTile] is its
      inverse), so [Map]s and [Set]s keyed by tile keys are [gmap Tile] and
      [gset Tile].
    - [Date.now()] is the parameter [now] of every operation that reads the
      clock; one tick reads one time.
    - [Math.random()] reads the next element of a sequence carried by the
      world state.
    - [Math.sqrt] is a parameter of the movement integrator. *)

From Stdlib Require Import ZArith QArith Qround Qabs Qminmax Lia Lqa ZifyNat.
From stdpp Require Import base tactics option list gmap sets strings.

Set Default Proof Using "Type".
Local Open Scope Z_scope.

(* ===================================================================== *)
(** * Part I. The embedding                                               *)
(* ===================================================================== *)

(** ** mapData.js *)

Inductive Facing := away | toward.

Module Zone.
Record t := mk {
  id : string;
  x : Q; y : Q; width : Q; height : Q;
  centerX : Q; centerY : Q;
  facing : option Facing
}.
End Zone.

Module Point.
Record t := mk { x : Q; y : Q }.
End Point.

Abbreviation Tile := (Z * Z)%type.

(** The parsed map: [mapData.map.*], the unified collision grid
    ([true] = blocked, indexed [grid[tileY][tileX]]) and the four zone
    listings. *)
Record MapData := {
  tileWidth : Z;
  tileHeight : Z;
  width : Z;
  height : Z;
  unifiedCollisionGrid : list (list bool);
  workstations : list Zone.t;
  planningZones : list Zone.t;
  thinkingZones : list Zone.t;
  idleZones : list Zone.t
}.

Inductive GameState := SPAWNED | THINKING | PLANNING | CODING | IDLE.

#[global] Instance GameState_eq_dec : EqDecision GameState.
Proof. solve_decision. Defined.

Inductive ZoneType := Tworkstations | TplanningZones | TthinkingZones | TidleZones.

Definition getZonesByType (md : MapData) (type : ZoneType) : list Zone.t :=
  match type with
  | Tworkstations => workstations md
  | TplanningZones => planningZones md
  | TthinkingZones => thinkingZones md
  | TidleZones => idleZones md
  end.

(** [stateToZoneType[state]]: [SPAWNED] has no entry. *)
Definition stateToZoneType (state : GameState) : option ZoneType :=
  match state with
  | CODING => Some Tworkstations
  | PLANNING => Some TplanningZones
  | THINKING => Some TthinkingZones
  | IDLE => Some TidleZones
  | SPAWNED => None
  end.

Definition getZonesForState (md : MapData) (state : GameState) : list Zone.t :=
  match stateToZoneType state with
  | None => []
  | Some zoneType => getZonesByType md zoneType
  end.

Definition getZoneById (md : MapData) (id : string) : option Zone.t :=
  let allZones :=
    workstations md ++ planningZones md ++ thinkingZones md ++ idleZones md in
  List.find (fun zone => bool_decide (Zone.id zone = id)) allZones.

(** [isTileWalkable]: out of bounds is blocked; otherwise [!grid[y][x]]
    (a missing cell reads [undefined], whose negation is [true]; a missing
    row makes the source throw, which well-formed grids exclude). *)
Definition isTileWalkable (md : MapData) (tileX tileY : Z) : bool :=
  if (tileX <? 0) || (width md <=? tileX) || (tileY <? 0) || (height md <=? tileY)
  then false
  else match unifiedCollisionGrid md !! Z.to_nat tileY with
       | Some row =>
           match row !! Z.to_nat tileX with
           | Some blocked => negb blocked
           | None => true
           end
       | None => false
       end.

Definition pixelToTile (md : MapData) (pixelX pixelY : Q) : Tile :=
  (Qfloor (pixelX / inject_Z (tileWidth md)),
   Qfloor (pixelY / inject_Z (tileHeight md))).

Definition tileToPixel (md : MapData) (tileX tileY : Z) : Point.t :=
  Point.mk
    (inject_Z tileX * inject_Z (tileWidth md) + inject_Z (tileWidth md) / 2)%Q
    (inject_Z tileY * inject_Z (tileHeight md) + inject_Z (tileHeight md) / 2)%Q.

(** ** pathfinding.js: the binary min-heap *)

Record HeapEntry := { node : Tile; priority : Z }.

Record MinHeap := {
  heap : list HeapEntry;
  keyToIndex : gmap Tile nat
}.

Module MinHeapOps.

Definition empty : MinHeap := {| heap := []; keyToIndex := ∅ |}.

Definition isEmpty (h : MinHeap) : bool := (length (heap h) =? 0)%nat.

Definition has (h : MinHeap) (key : Tile) : bool :=
  bool_decide (is_Some (keyToIndex h !! key)).

(** [[heap[i], heap[j]] = [heap[j], heap[i]]] followed by the two
    [keyToIndex.set]. Both indices are in range at every call. *)
Definition _swap (i j : nat) (h : MinHeap) : MinHeap :=
  match heap h !! i, heap h !! j with
  | Some a, Some b =>
      {| heap := <[j := a]> (<[i := b]> (heap h));
         keyToIndex := <[node a := j]> (<[node b := i]> (keyToIndex h)) |}
  | _, _ => h
  end.

(** [while (index > 0)]: each round moves to the parent, so [index] rounds
    are enough; the fuel is the loop variant. *)
Fixpoint _bubbleUp_loop (fuel index : nat) (h : MinHeap) : MinHeap :=
  match fuel with
  | O => h
  | S fuel' =>
      if (0 <? index)%nat then
        let parentIndex := ((index - 1) / 2)%nat in
        match heap h !! parentIndex, heap h !! index with
        | Some p, Some c =>
            if priority p <=? priority c then h
            else _bubbleUp_loop fuel' parentIndex (_swap index parentIndex h)
        | _, _ => h
        end
      else h
  end.

Definition _bubbleUp (index : nat) (h : MinHeap) : MinHeap :=
  _bubbleUp_loop index index h.

Definition smaller_child (l : list HeapEntry) (child smallest : nat) : nat :=
  match l !! child, l !! smallest with
  | Some c, Some s => if priority c <? priority s then child else smallest
  | _, _ => smallest
  end.

(** [while (true)] with [break] when no child is smaller: each round moves
    to a child, so [length] rounds are enough. *)
Fixpoint _bubbleDown_loop (fuel index : nat) (h : MinHeap) : MinHeap :=
  match fuel with
  | O => h
  | S fuel' =>
      let leftChild := (2 * index + 1)%nat in
      let rightChild := (2 * index + 2)%nat in
      let smallest := smaller_child (heap h) leftChild index in
      let smallest := smaller_child (heap h) rightChild smallest in
      if (smallest =? index)%nat then h
      else _bubbleDown_loop fuel' smallest (_swap index smallest h)
  end.

Definition _bubbleDown (index : nat) (h : MinHeap) : MinHeap :=
  _bubbleDown_loop (length (heap h)) index h.

Definition insert (nd : Tile) (prio : Z) (h : MinHeap) : MinHeap :=
  let entry := {| node := nd; priority := prio |} in
  let index := length (heap h) in
  _bubbleUp index
    {| heap := heap h ++ [entry]; keyToIndex := <[nd := index]> (keyToIndex h) |}.

Definition extractMin (h : MinHeap) : option Tile * MinHeap :=
  match heap h with
  | [] => (None, h)
  | top :: _ =>
      let min := node top in
      let k := delete min (keyToIndex h) in
      match last (heap h) with
      | None => (None, h)
      | Some lst =>
          let popped := removelast (heap h) in
          match popped with
          | [] => (Some min, {| heap := []; keyToIndex := k |})
          | _ :: _ =>
              (Some min,
               _bubbleDown 0
                 {| heap := <[0%nat := lst]> popped;
                    keyToIndex := <[node lst := 0%nat]> k |})
          end
      end
  end.

Definition decreaseKey (key : Tile) (newPriority : Z) (h : MinHeap) : MinHeap :=
  match keyToIndex h !! key with
  | None => h
  | Some index =>
      match heap h !! index with
      | None => h
      | Some e =>
          _bubbleUp index
            {| heap := <[index := {| node := node e; priority := newPriority |}]> (heap h);
               keyToIndex := keyToIndex h |}
      end
  end.

End MinHeapOps.

(** ** pathfinding.js: A* over tiles *)

Definition tileKey (x y : Z) : Tile := (x, y).
Definition keyToTile (key : Tile) : Tile := key.

(** Manhattan distance heuristic. *)
Definition heuristic (a b : Tile) : Z := Z.abs (a.1 - b.1) + Z.abs (a.2 - b.2).

(** The mutable search state of [findTilePath]. *)
Record Search := {
  openSet : MinHeap;
  closedSet : gset Tile;
  cameFrom : gmap Tile Tile;
  gScore : gmap Tile Z;
  fScore : gmap Tile Z
}.

(** 4-directional movement: up, down, left, right. *)
Definition neighbors : list (Z * Z) := [(0, -1); (0, 1); (-1, 0); (1, 0)].

(** [while (curr) { path.unshift(keyToTile(curr)); curr = cameFrom.get(curr) }].
    A chain without a cycle visits each key of [cameFrom] at most once and
    then one key outside it; with that much fuel [None] stands for a source
    loop that would not end. *)
Fixpoint reconstructPath_loop (fuel : nat) (cameFrom : gmap Tile Tile)
    (curr : Tile) (path : list Tile) : option (list Tile) :=
  match fuel with
  | O => None
  | S fuel' =>
      let path := keyToTile curr :: path in
      match cameFrom !! curr with
      | Some prev => reconstructPath_loop fuel' cameFrom prev path
      | None => Some path
      end
  end.

Definition reconstructPath (cameFrom : gmap Tile Tile) (currentKey : Tile)
    : option (list Tile) :=
  reconstructPath_loop (S (size cameFrom)) cameFrom currentKey [].

Section Pathfinding.
Variable md : MapData.

(** The perimeter offsets of the rings 1..maxRadius in the order of the
    three nested [for] loops of [findNearestWalkable]. *)
Definition ring_offsets (maxRadius : Z) : list (Z * Z) :=
  radius ← seqZ 1 maxRadius;
  dx ← seqZ (- radius) (2 * radius + 1);
  dy ← seqZ (- radius) (2 * radius + 1);
  if bool_decide (Z.abs dx ≠ radius ∧ Z.abs dy ≠ radius) then [] else [(dx, dy)].

Definition findNearestWalkable_r (tileX tileY maxRadius : Z) : option Tile :=
  if isTileWalkable md tileX tileY then Some (tileX, tileY)
  else
    List.find (fun t : Tile => isTileWalkable md t.1 t.2)
      (map (fun d : Z * Z => (tileX + d.1, tileY + d.2)) (ring_offsets maxRadius)).

(** [maxRadius = 5] is the default every caller uses. *)
Definition findNearestWalkable (tileX tileY : Z) : option Tile :=
  findNearestWalkable_r tileX tileY 5.

(** The body of [for (const {dx, dy} of neighbors)]. [gScore] of the node
    being expanded is always present. *)
Definition relax (goal current : Tile) (st : Search) (d : Z * Z) : Search :=
  let nx := current.1 + d.1 in
  let ny := current.2 + d.2 in
  let neighborKey := tileKey nx ny in
  if bool_decide (neighborKey ∈ closedSet st) || negb (isTileWalkable md nx ny)
  then st
  else
    let tentativeG := default 0 (gScore st !! current) + 1 in
    let better :=
      match gScore st !! neighborKey with
      | None => true
      | Some g => tentativeG <? g
      end in
    if better then
      let f := tentativeG + heuristic (nx, ny) goal in
      {| openSet :=
           if negb (MinHeapOps.has (openSet st) neighborKey)
           then MinHeapOps.insert neighborKey f (openSet st)
           else MinHeapOps.decreaseKey neighborKey f (openSet st);
         closedSet := closedSet st;
         cameFrom := <[neighborKey := current]> (cameFrom st);
         gScore := <[neighborKey := tentativeG]> (gScore st);
         fScore := <[neighborKey := f]> (fScore st) |}
    else st.

(** [while (!openSet.isEmpty() && iterations < maxIterations)]: the fuel is
    the number of iterations left before the safety limit. *)
Fixpoint search_loop (fuel : nat) (goal : Tile) (st : Search) : option (list Tile) :=
  match fuel with
  | O => None
  | S fuel' =>
      if MinHeapOps.isEmpty (openSet st) then None
      else
        match MinHeapOps.extractMin (openSet st) with
        | (None, _) => None
        | (Some current, open') =>
            if bool_decide (current = goal) then reconstructPath (cameFrom st) current
            else
              let st1 := {| openSet := open';
                            closedSet := {[ current ]} ∪ closedSet st;
                            cameFrom := cameFrom st;
                            gScore := gScore st;
                            fScore := fScore st |} in
              search_loop fuel' goal (foldl (relax goal current) st1 neighbors)
        end
  end.

Definition maxIterations : nat := Z.to_nat (width md * height md * 2).

Definition initialSearch (adjustedStart adjustedGoal : Tile) : Search :=
  let startKey := tileKey adjustedStart.1 adjustedStart.2 in
  let f := heuristic adjustedStart adjustedGoal in
  {| openSet := MinHeapOps.insert startKey f MinHeapOps.empty;
     closedSet := ∅;
     cameFrom := ∅;
     gScore := {[ startKey := 0 ]};
     fScore := {[ startKey := f ]} |}.

(** The walkable tile substituted for [t]: [t] itself when walkable. *)
Definition adjust (t : Tile) : option Tile :=
  if isTileWalkable md t.1 t.2 then Some t else findNearestWalkable t.1 t.2.

(** [findTilePath] on a loaded map; [None] is the source's [null]. *)
Definition findTilePath (start goal : Tile) : option (list Tile) :=
  match adjust goal with
  | None => None
  | Some adjustedGoal =>
      match adjust start with
      | None => None
      | Some adjustedStart =>
          if bool_decide (adjustedStart = adjustedGoal) then Some [adjustedGoal]
          else search_loop maxIterations adjustedGoal
                 (initialSearch adjustedStart adjustedGoal)
      end
  end.

Definition findPath (startX startY goalX goalY : Q) : option (list Point.t) :=
  let startTile := pixelToTile md startX startY in
  let goalTile := pixelToTile md goalX goalY in
  match findTilePath startTile goalTile with
  | None => None
  | Some tilePath => Some (map (fun tile : Tile => tileToPixel md tile.1 tile.2) tilePath)
  end.

(** ** pathfinding.js: smoothing *)

(** Bresenham: the [while (true)] loop of [getLineTiles]. Every round
    steps in [x] or in [y] towards the end tile, so [dx + dy + 1] rounds
    are enough. *)
Fixpoint getLineTiles_loop (fuel : nat) (x1 y1 dx dy sx sy err x y : Z)
    : option (list Tile) :=
  match fuel with
  | O => None
  | S fuel' =>
      if (x =? x1) && (y =? y1) then Some [(x, y)]
      else
        let e2 := 2 * err in
        let '(err1, xn) := if - dy <? e2 then (err - dy, x + sx) else (err, x) in
        let '(err2, yn) := if e2 <? dx then (err1 + dx, y + sy) else (err1, y) in
        match getLineTiles_loop fuel' x1 y1 dx dy sx sy err2 xn yn with
        | None => None
        | Some tiles => Some ((x, y) :: tiles)
        end
  end.

Definition getLineTiles (x0 y0 x1 y1 : Z) : option (list Tile) :=
  let dx := Z.abs (x1 - x0) in
  let dy := Z.abs (y1 - y0) in
  let sx := if x0 <? x1 then 1 else -1 in
  let sy := if y0 <? y1 then 1 else -1 in
  getLineTiles_loop (S (Z.to_nat (dx + dy))) x1 y1 dx dy sx sy (dx - dy) x0 y0.

Definition hasLineOfSight (from to : Point.t) : bool :=
  let fromTile := pixelToTile md (Point.x from) (Point.y from) in
  let toTile := pixelToTile md (Point.x to) (Point.y to) in
  match getLineTiles fromTile.1 fromTile.2 toTile.1 toTile.2 with
  | Some tiles => forallb (fun tile : Tile => isTileWalkable md tile.1 tile.2) tiles
  | None => false
  end.

#[global] Instance Point_inhabited : Inhabited Point.t := populate (Point.mk 0 0).

(** The inner [for (let i = current + 2; i < path.length; i++)]. *)
Definition furthestVisible (path : list Point.t) (current : nat) : nat :=
  foldl (fun furthest i =>
           if hasLineOfSight (path !!! current) (path !!! i) then i else furthest)
        (current + 1)%nat
        (seq (current + 2) (length path - (current + 2))).

(** [while (current < path.length - 1)]: [current] grows every round. *)
Fixpoint smoothPath_loop (fuel : nat) (path : list Point.t) (current : nat)
    (smoothed : list Point.t) : list Point.t :=
  match fuel with
  | O => smoothed
  | S fuel' =>
      if (current <? length path - 1)%nat then
        let furthest := furthestVisible path current in
        smoothPath_loop fuel' path furthest (smoothed ++ [path !!! furthest])
      else smoothed
  end.

Definition smoothPath (path : list Point.t) : list Point.t :=
  if (length path <? 3)%nat then path
  else smoothPath_loop (length path) path 0 [path !!! 0%nat].

End Pathfinding.

(** ** state.js: workstation occupancy tables *)

(** [zoneAssignments]: zone id -> entity id; [entityZoneMap]: the key
    [entityId:zoneType] -> zone id. *)
Record Tables := {
  zoneAssignments : gmap string string;
  entityZoneMap : gmap string string
}.

Definition zoneTypeName (zoneType : ZoneType) : string :=
  match zoneType with
  | Tworkstations => "workstations"
  | TplanningZones => "planningZones"
  | TthinkingZones => "thinkingZones"
  | TidleZones => "idleZones"
  end.

(** The template string with entityId, a colon and zoneType. *)
Definition assignmentKey (entityId : string) (zoneType : ZoneType) : string :=
  entityId +:+ ":" +:+ zoneTypeName zoneType.

(** JavaScript truthiness of a string: only the empty string is falsy. *)
Definition truthy (s : string) : bool :=
  match s with
  | EmptyString => false
  | String _ _ => true
  end.

Definition clearAllAssignments : Tables :=
  {| zoneAssignments := ∅; entityZoneMap := ∅ |}.

Section State.
Variable md : MapData.

Definition getAssignedZone (tb : Tables) (entityId : string) (zoneType : ZoneType)
    : option Zone.t :=
  match entityZoneMap tb !! assignmentKey entityId zoneType with
  | None => None
  | Some zoneId =>
      if truthy zoneId then
        List.find (fun z => bool_decide (Zone.id z = zoneId)) (getZonesByType md zoneType)
      else None
  end.

Definition getEntityWorkstation (tb : Tables) (entityId : string) : option Zone.t :=
  getAssignedZone tb entityId Tworkstations.

Definition isZoneOccupied (tb : Tables) (zoneId : string) : bool :=
  bool_decide (is_Some (zoneAssignments tb !! zoneId)).

Definition getZoneOccupant (tb : Tables) (zoneId : string) : option string :=
  match zoneAssignments tb !! zoneId with
  | Some e => if truthy e then Some e else None
  | None => None
  end.

Definition assignWorkstation (entityId : string) (tb : Tables) : option Zone.t * Tables :=
  match getAssignedZone tb entityId Tworkstations with
  | Some existing => (Some existing, tb)
  | None =>
      match List.find (fun ws => negb (isZoneOccupied tb (Zone.id ws))) (workstations md) with
      | Some workstation =>
          (Some workstation,
           {| zoneAssignments := <[Zone.id workstation := entityId]> (zoneAssignments tb);
              entityZoneMap :=
                <[assignmentKey entityId Tworkstations := Zone.id workstation]>
                  (entityZoneMap tb) |})
      | None => (None, tb)
      end
  end.

End State.

Definition releaseWorkstation (entityId : string) (tb : Tables) : Tables :=
  match entityZoneMap tb !! assignmentKey entityId Tworkstations with
  | Some zoneId =>
      if truthy zoneId then
        {| zoneAssignments := delete zoneId (zoneAssignments tb);
           entityZoneMap := delete (assignmentKey entityId Tworkstations) (entityZoneMap tb) |}
      else tb
  | None => tb
  end.

(** The entries of [entityZoneMap] whose key starts with the entity id and
    a colon. The source walks them in insertion order; the deletions
    commute, so the order of [map_to_list] gives the same tables. *)
Definition keysToDelete (entityId : string) (tb : Tables) : list (string * string) :=
  filter (fun kv : string * string => String.prefix (entityId +:+ ":") kv.1 = true)
         (map_to_list (entityZoneMap tb)).

Definition clearEntityAssignments (entityId : string) (tb : Tables) : Tables :=
  let hits := keysToDelete entityId tb in
  {| zoneAssignments :=
       foldr (fun kv za => delete kv.2 za) (zoneAssignments tb) hits;
     entityZoneMap :=
       foldr (fun kv m => delete kv.1 m) (entityZoneMap tb) hits |}.

(** ** config.js *)

Definition MOVE_SPEED : Q := 150%Q.
Definition MIN_STATE_DISPLAY_MS : Z := 4000.
Definition PATH_ARRIVAL_THRESHOLD : Q := 4%Q.
Definition WANDER_MIN_DELAY_MS : Q := 3000%Q.
Definition WANDER_MAX_DELAY_MS : Q := 6000%Q.

(** ** entities: the agent record *)

Module Direction.
Inductive t := up | down | left | right.
End Direction.

Record QueuedState := { state : GameState; queuedAt : Z }.

Module Entity.
Record t := mk {
  id : string;
  appearance : string;
  state : GameState;
  visualState : option GameState;
  targetState : option GameState;
  x : Q;
  y : Q;
  path : list Point.t;
  pathIndex : nat;
  targetZone : option Zone.t;
  isMoving : bool;
  direction : Direction.t;
  color : string;
  spawnTime : Z;
  currentStateStartTime : Z;
  stateQueue : list QueuedState;
  animationFrame : Z;
  animationTimer : Q;
  wanderZone : option Zone.t;
  nextWanderTime : Q;
  currentSpeed : Q
}.

(** Field assignments [entity.f = v]. *)
Definition set_visualState v e :=
  mk (id e) (appearance e) (state e) v (targetState e) (x e) (y e) (path e)
     (pathIndex e) (targetZone e) (isMoving e) (direction e) (color e) (spawnTime e)
     (currentStateStartTime e) (stateQueue e) (animationFrame e) (animationTimer e)
     (wanderZone e) (nextWanderTime e) (currentSpeed e).
Definition set_targetState v e :=
  mk (id e) (appearance e) (state e) (visualState e) v (x e) (y e) (path e)
     (pathIndex e) (targetZone e) (isMoving e) (direction e) (color e) (spawnTime e)
     (currentStateStartTime e) (stateQueue e) (animationFrame e) (animationTimer e)
     (wanderZone e) (nextWanderTime e) (currentSpeed e).
Definition set_xy vx vy e :=
  mk (id e) (appearance e) (state e) (visualState e) (targetState e) vx vy (path e)
     (pathIndex e) (targetZone e) (isMoving e) (direction e) (color e) (spawnTime e)
     (currentStateStartTime e) (stateQueue e) (animationFrame e) (animationTimer e)
     (wanderZone e) (nextWanderTime e) (currentSpeed e).
Definition set_path v e :=
  mk (id e) (appearance e) (state e) (visualState e) (targetState e) (x e) (y e) v
     (pathIndex e) (targetZone e) (isMoving e) (direction e) (color e) (spawnTime e)
     (currentStateStartTime e) (stateQueue e) (animationFrame e) (animationTimer e)
     (wanderZone e) (nextWanderTime e) (currentSpeed e).
Definition set_pathIndex v e :=
  mk (id e) (appearance e) (state e) (visualState e) (targetState e) (x e) (y e) (path e)
     v (targetZone e) (isMoving e) (direction e) (color e) (spawnTime e)
     (currentStateStartTime e) (stateQueue e) (animationFrame e) (animationTimer e)
     (wanderZone e) (nextWanderTime e) (currentSpeed e).
Definition set_targetZone v e :=
  mk (id e) (appearance e) (state e) (visualState e) (targetState e) (x e) (y e) (path e)
     (pathIndex e) v (isMoving e) (direction e) (color e) (spawnTime e)
     (currentStateStartTime e) (stateQueue e) (animationFrame e) (animationTimer e)
     (wanderZone e) (nextWanderTime e) (currentSpeed e).
Definition set_isMoving v e :=
  mk (id e) (appearance e) (state e) (visualState e) (targetState e) (x e) (y e) (path e)
     (pathIndex e) (targetZone e) v (direction e) (color e) (spawnTime e)
     (currentStateStartTime e) (stateQueue e) (animationFrame e) (animationTimer e)
     (wanderZone e) (nextWanderTime e) (currentSpeed e).
Definition set_direction v e :=
  mk (id e) (appearance e) (state e) (visualState e) (targetState e) (x e) (y e) (path e)
     (pathIndex e) (targetZone e) (isMoving e) v (color e) (spawnTime e)
     (currentStateStartTime e) (stateQueue e) (animationFrame e) (animationTimer e)
     (wanderZone e) (nextWanderTime e) (currentSpeed e).
Definition set_currentStateStartTime v e :=
  mk (id e) (appearance e) (state e) (visualState e) (targetState e) (x e) (y e) (path e)
     (pathIndex e) (targetZone e) (isMoving e) (direction e) (color e) (spawnTime e)
     v (stateQueue e) (animationFrame e) (animationTimer e)
     (wanderZone e) (nextWanderTime e) (currentSpeed e).
Definition set_stateQueue v e :=
  mk (id e) (appearance e) (state e) (visualState e) (targetState e) (x e) (y e) (path e)
     (pathIndex e) (targetZone e) (isMoving e) (direction e) (color e) (spawnTime e)
     (currentStateStartTime e) v (animationFrame e) (animationTimer e)
     (wanderZone e) (nextWanderTime e) (currentSpeed e).
Definition set_animation vf vt e :=
  mk (id e) (appearance e) (state e) (visualState e) (targetState e) (x e) (y e) (path e)
     (pathIndex e) (targetZone e) (isMoving e) (direction e) (color e) (spawnTime e)
     (currentStateStartTime e) (stateQueue e) vf vt
     (wanderZone e) (nextWanderTime e) (currentSpeed e).
Definition set_wanderZone v e :=
  mk (id e) (appearance e) (state e) (visualState e) (targetState e) (x e) (y e) (path e)
     (pathIndex e) (targetZone e) (isMoving e) (direction e) (color e) (spawnTime e)
     (currentStateStartTime e) (stateQueue e) (animationFrame e) (animationTimer e)
     v (nextWanderTime e) (currentSpeed e).
Definition set_nextWanderTime v e :=
  mk (id e) (appearance e) (state e) (visualState e) (targetState e) (x e) (y e) (path e)
     (pathIndex e) (targetZone e) (isMoving e) (direction e) (color e) (spawnTime e)
     (currentStateStartTime e) (stateQueue e) (animationFrame e) (animationTimer e)
     (wanderZone e) v (currentSpeed e).
Definition set_currentSpeed v e :=
  mk (id e) (appearance e) (state e) (visualState e) (targetState e) (x e) (y e) (path e)
     (pathIndex e) (targetZone e) (isMoving e) (direction e) (color e) (spawnTime e)
     (currentStateStartTime e) (stateQueue e) (animationFrame e) (animationTimer e)
     (wanderZone e) (nextWanderTime e) v.
End Entity.

(** ** The ambient state of a tick: occupancy tables and [Math.random] *)

Record World := {
  tables : Tables;
  randomSeq : nat -> Q;
  randomPos : nat
}.

Definition M (A : Type) : Type := World -> A * World.

Definition ret {A} (a : A) : M A := fun w => (a, w).

Definition bind {A B} (m : M A) (k : A -> M B) : M B :=
  fun w => let '(a, w') := m w in k a w'.

Notation "'let!' x ':=' m 'in' k" := (bind m (fun x => k))
  (at level 10, x pattern, m at level 200, k at level 200,
   format "'[v' 'let!'  x  ':='  m  'in' '/' k ']'").

Definition Math_random : M Q :=
  fun w => (randomSeq w (randomPos w),
            {| tables := tables w; randomSeq := randomSeq w; randomPos := S (randomPos w) |}).

Definition withTables {A} (f : Tables -> A * Tables) : M A :=
  fun w => let '(a, tb) := f (tables w) in
           (a, {| tables := tb; randomSeq := randomSeq w; randomPos := randomPos w |}).

Definition Qltb (a b : Q) : bool := negb (Qle_bool b a).

(** [zones[Math.floor(r * zones.length)]]; [None] is [undefined]. *)
Definition zoneAt (zones : list Zone.t) (r : Q) : option Zone.t :=
  let i := Qfloor (r * inject_Z (Z.of_nat (length zones))) in
  if i <? 0 then None else zones !! Z.to_nat i.

Definition getRandomPointInZone (zone : Zone.t) : M Point.t :=
  let padding : Q := 8%Q in
  let! r1 := Math_random in
  let! r2 := Math_random in
  ret (Point.mk (Zone.x zone + padding + r1 * (Zone.width zone - padding * 2))%Q
                (Zone.y zone + padding + r2 * (Zone.height zone - padding * 2))%Q).

(** [{...zone, centerX: p.x, centerY: p.y}] *)
Definition withCenter (zone : Zone.t) (p : Point.t) : Zone.t :=
  Zone.mk (Zone.id zone) (Zone.x zone) (Zone.y zone) (Zone.width zone)
          (Zone.height zone) (Point.x p) (Point.y p) (Zone.facing zone).

Definition facingToDirection (facing : option Facing) : option Direction.t :=
  match facing with
  | Some away => Some Direction.up
  | Some toward => Some Direction.down
  | None => None
  end.

Definition getDirection (fromX fromY toX toY : Q) : Direction.t :=
  let dx := (toX - fromX)%Q in
  let dy := (toY - fromY)%Q in
  if Qltb (Qabs dy) (Qabs dx)
  then (if Qltb 0 dx then Direction.right else Direction.left)
  else (if Qltb 0 dy then Direction.down else Direction.up).

(** The waypoint differs from the point [(cx, cy)]:
    [p.x !== cx || p.y !== cy]. *)
Definition differs (p : Point.t) (cx cy : Q) : bool :=
  negb (Qeq_bool (Point.x p) cx) || negb (Qeq_bool (Point.y p) cy).

(** Smoothing followed by the endpoint fix shared by [processStateQueue]
    and [updateWandering]. *)
Definition smoothToTarget (md : MapData) (path : list Point.t) (cx cy : Q)
    : list Point.t :=
  let smoothed := smoothPath md path in
  match last smoothed with
  | Some lastWaypoint =>
      if differs lastWaypoint cx cy then smoothed ++ [Point.mk cx cy] else smoothed
  | None => smoothed
  end.

Definition queueStateChange (now : Z) (newState : GameState) (e : Entity.t) : Entity.t :=
  Entity.set_stateQueue
    (Entity.stateQueue e ++ [{| state := newState; queuedAt := now |}]) e.

(** [while (q.length > 1 && q[0].state === q[1].state) q.shift()] *)
Fixpoint collapse (q : list QueuedState) : list QueuedState :=
  match q with
  | a :: (b :: _) as rest =>
      if bool_decide (state a = state b) then collapse rest else q
  | _ => q
  end.

Definition isWanderState (v : option GameState) : bool :=
  bool_decide (v = Some THINKING) || bool_decide (v = Some IDLE).

Definition wanderDelay (r : Q) : Q :=
  (WANDER_MIN_DELAY_MS + r * (WANDER_MAX_DELAY_MS - WANDER_MIN_DELAY_MS))%Q.

Section Entities.
Variable md : MapData.
Variable Math_sqrt : Q -> Q.

(** *** entities/state.js *)

Definition getTargetZone (e : Entity.t) (st : GameState) : M (option Zone.t) :=
  match st with
  | CODING =>
      let! tb := (fun w => (tables w, w)) in
      match getEntityWorkstation md tb (Entity.id e) with
      | Some existingWorkstation => ret (Some existingWorkstation)
      | None => withTables (assignWorkstation md (Entity.id e))
      end
  | _ =>
      let zones := getZonesForState md st in
      match zones with
      | [] => ret None
      | _ :: _ =>
          let! r := Math_random in
          match st with
          | THINKING | IDLE =>
              match zoneAt zones r with
              | Some zone =>
                  let! randomPoint := getRandomPointInZone zone in
                  ret (Some (withCenter zone randomPoint))
              | None => ret None
              end
          | _ => ret (zoneAt zones r)
          end
      end
  end.

(** The tail of [processStateQueue] once a target zone is known. *)
Definition startTransition (nextState : GameState) (tz : Zone.t) (e : Entity.t)
    : Entity.t :=
  let cx := Zone.centerX tz in
  let cy := Zone.centerY tz in
  let newPath :=
    match findPath md (Entity.x e) (Entity.y e) cx cy with
    | None | Some [] => [Point.mk cx cy]
    | Some path => smoothToTarget md path cx cy
    end in
  Entity.set_currentSpeed MOVE_SPEED
    (Entity.set_isMoving true
      (Entity.set_targetZone (Some tz)
        (Entity.set_targetState (Some nextState)
          (Entity.set_pathIndex 0%nat
            (Entity.set_path newPath e))))).

(** [processStateQueue] after the front entry has been popped and found to
    request a state other than the displayed one. *)
Definition resolveAndMove (nextStateInfo : QueuedState) (e : Entity.t) : M Entity.t :=
  let nextState := state nextStateInfo in
  let! targetZone := getTargetZone e nextState in
  match targetZone with
  | None =>
      ret (Entity.set_stateQueue (nextStateInfo :: Entity.stateQueue e) e)
  | Some tz => ret (startTransition nextState tz e)
  end.

Definition releaseIfLeavingCoding (nextState : GameState) (e : Entity.t) : M unit :=
  if bool_decide (Entity.visualState e = Some CODING) && negb (bool_decide (nextState = CODING))
  then withTables (fun tb => (tt, releaseWorkstation (Entity.id e) tb))
  else ret tt.

Definition processStateQueue (now : Z) (e : Entity.t) : M Entity.t :=
  if Entity.isMoving e then ret e
  else if negb (Entity.currentStateStartTime e =? 0)
          && (now - Entity.currentStateStartTime e <? MIN_STATE_DISPLAY_MS)
          && (0 <? length (Entity.stateQueue e))%nat
  then ret e
  else if (length (Entity.stateQueue e) =? 0)%nat then ret e
  else
    match collapse (Entity.stateQueue e) with
    | [] => ret e
    | nextStateInfo :: rest =>
        let e := Entity.set_stateQueue rest e in
        let nextState := state nextStateInfo in
        if bool_decide (Some nextState = Entity.visualState e) && negb (Entity.isMoving e)
        then ret e
        else
          let! _ := releaseIfLeavingCoding nextState e in
          resolveAndMove nextStateInfo e
    end.

(** *** entities/wandering.js *)

Definition scheduleNextWander (now : Z) (e : Entity.t) : M Entity.t :=
  let! r := Math_random in
  ret (Entity.set_nextWanderTime (inject_Z now + wanderDelay r)%Q e).

Definition zoneContains (z : Zone.t) (px py : Q) : bool :=
  Qle_bool (Zone.x z) px && Qle_bool px (Zone.x z + Zone.width z)
  && Qle_bool (Zone.y z) py && Qle_bool py (Zone.y z + Zone.height z).

(** The zone choice of [updateWandering] together with the speed it sets;
    [None] for the zone is [undefined]. *)
Definition chooseWanderZone (zones : list Zone.t) (e : Entity.t)
    : M (option Zone.t * Entity.t) :=
  if bool_decide (Entity.visualState e = Some IDLE) then
    let! r := Math_random in
    let! r' := Math_random in
    ret (zoneAt zones r,
         Entity.set_currentSpeed (MOVE_SPEED * ((4 # 10) + r' * (4 # 10)))%Q e)
  else
    match Entity.wanderZone e with
    | Some zone => ret (Some zone, Entity.set_currentSpeed MOVE_SPEED e)
    | None =>
        match List.find (fun z => zoneContains z (Entity.x e) (Entity.y e)) zones with
        | Some zone =>
            ret (Some zone,
                 Entity.set_currentSpeed MOVE_SPEED (Entity.set_wanderZone (Some zone) e))
        | None =>
            let! r := Math_random in
            ret (zoneAt zones r,
                 Entity.set_currentSpeed MOVE_SPEED
                   (Entity.set_wanderZone (zoneAt zones r) e))
        end
    end.

(** Installing the wander movement when [findPath] gave more than one
    waypoint. *)
Definition startWander (zone : Zone.t) (targetPoint : Point.t) (e : Entity.t) : Entity.t :=
  match findPath md (Entity.x e) (Entity.y e) (Point.x targetPoint) (Point.y targetPoint) with
  | Some path =>
      if (1 <? length path)%nat then
        Entity.set_isMoving true
          (Entity.set_targetState (Entity.visualState e)
            (Entity.set_targetZone (Some (withCenter zone targetPoint))
              (Entity.set_pathIndex 0%nat
                (Entity.set_path
                   (smoothToTarget md path (Point.x targetPoint) (Point.y targetPoint))
                   e))))
      else e
  | None => e
  end.

Definition updateWandering (now : Z) (e : Entity.t) : M Entity.t :=
  if negb (isWanderState (Entity.visualState e)) then
    ret (Entity.set_currentSpeed MOVE_SPEED (Entity.set_wanderZone None e))
  else if Qltb (inject_Z now) (Entity.nextWanderTime e) then ret e
  else
    let zones :=
      match Entity.visualState e with
      | Some s => getZonesForState md s
      | None => []
      end in
    match zones with
    | [] => ret e
    | _ :: _ =>
        let! (zone, e) := chooseWanderZone zones e in
        match zone with
        | None => ret e
        | Some zone =>
            let! targetPoint := getRandomPointInZone zone in
            scheduleNextWander now (startWander zone targetPoint e)
        end
    end.

(** *** entities/movement.js *)

Definition arriveAtDestination (now : Z) (e : Entity.t) : M Entity.t :=
  let tz := Entity.targetZone e in
  let e :=
    match tz with
    | Some z => Entity.set_xy (Zone.centerX z) (Zone.centerY z) e
    | None =>
        match last (Entity.path e) with
        | Some finalPoint => Entity.set_xy (Point.x finalPoint) (Point.y finalPoint) e
        | None => e
        end
    end in
  let e := Entity.set_isMoving false e in
  let e := Entity.set_visualState (Entity.targetState e) e in
  let e := Entity.set_currentStateStartTime now e in
  let e :=
    match tz with
    | Some z =>
        match facingToDirection (Zone.facing z) with
        | Some d => Entity.set_direction d e
        | None => e
        end
    | None => e
    end in
  let! e := (if isWanderState (Entity.visualState e) then
          let e :=
            match tz with
            | Some z =>
                Entity.set_wanderZone
                  (Some (default z (getZoneById md (Zone.id z)))) e
            | None => e
            end in
          let! r := Math_random in
          ret (Entity.set_nextWanderTime (inject_Z now + wanderDelay r)%Q e)
        else ret (Entity.set_wanderZone None e)) in
  ret (Entity.set_targetZone None
        (Entity.set_targetState None
          (Entity.set_pathIndex 0%nat
            (Entity.set_path [] e)))).

Definition updatePathFollowing (now : Z) (deltaTime : Q) (e : Entity.t) : M Entity.t :=
  match Entity.path e !! Entity.pathIndex e with
  | None => arriveAtDestination now e
  | Some target =>
      let dx := (Point.x target - Entity.x e)%Q in
      let dy := (Point.y target - Entity.y e)%Q in
      let distance := Math_sqrt (dx * dx + dy * dy)%Q in
      if Qltb distance PATH_ARRIVAL_THRESHOLD then
        let e := Entity.set_pathIndex (S (Entity.pathIndex e)) e in
        if (length (Entity.path e) <=? Entity.pathIndex e)%nat
        then arriveAtDestination now e
        else ret e
      else
        let speed :=
          if Qeq_bool (Entity.currentSpeed e) 0 then MOVE_SPEED
          else Entity.currentSpeed e in
        let moveDistance := (speed * deltaTime)%Q in
        let ratio := Qmin (moveDistance / distance) 1 in
        let nx := (Entity.x e + dx * ratio)%Q in
        let ny := (Entity.y e + dy * ratio)%Q in
        ret (Entity.set_direction
               (getDirection (nx - dx * ratio) (ny - dy * ratio) nx ny)
               (Entity.set_xy nx ny e))
  end.

(** *** entities/index.js *)

Definition tickAnimation (deltaTime : Q) (e : Entity.t) : Entity.t :=
  let timer := (Entity.animationTimer e + deltaTime)%Q in
  if Qltb (3 # 10) timer
  then Entity.set_animation ((Entity.animationFrame e + 1) mod 4) 0 e
  else Entity.set_animation (Entity.animationFrame e) timer e.

Definition updateEntity (now : Z) (deltaTime : Q) (e : Entity.t) : M Entity.t :=
  let! e := processStateQueue now e in
  let! e := (if Entity.isMoving e && (0 <? length (Entity.path e))%nat
        then updatePathFollowing now deltaTime e else ret e) in
  let! e := (if negb (Entity.isMoving e) && (length (Entity.stateQueue e) =? 0)%nat
        then updateWandering now e else ret e) in
  ret (tickAnimation deltaTime e).

(** [cleanupEntity] of entities/utils.js, run on despawn. *)
Definition cleanupEntity (e : Entity.t) (tb : Tables) : Tables :=
  clearEntityAssignments (Entity.id e) tb.

End Entities.

(** ** Further functions of the same modules *)

(** *** mapData.js *)

Definition isPixelWalkable (md : MapData) (pixelX pixelY : Q) : bool :=
  let tile := pixelToTile md pixelX pixelY in
  isTileWalkable md tile.1 tile.2.

Definition getZoneCenterTile (md : MapData) (zone : Zone.t) : Tile :=
  pixelToTile md (Zone.centerX zone) (Zone.centerY zone).

(** [for (let y = 3; y < dims.height - 3; y++)]: the tiles of column [x]
    that [getSpawnPoint] tries, top to bottom. *)
Definition spawnColumn (md : MapData) (x : Z) : list Tile :=
  map (fun y : Z => (x, y)) (seqZ 3 (height md - 6)).

(** [for (let x = dims.width - 3; x >= dims.width / 2; x--)]: the columns
    from [x] leftwards, while [x] is at least half the width (a real
    division). [x] falls every round, so [width] rounds are enough. *)
Fixpoint spawnScan_loop (md : MapData) (fuel : nat) (x : Z) : list Tile :=
  match fuel with
  | O => []
  | S fuel' =>
      if width md <=? 2 * x
      then spawnColumn md x ++ spawnScan_loop md fuel' (x - 1)
      else []
  end.

Definition spawnScan (md : MapData) : list Tile :=
  spawnScan_loop md (Z.to_nat (width md)) (width md - 3).

(** [getSpawnPoint] on a loaded map: the first walkable tile of the scan,
    else the first idle zone, else the middle of the map. [pixelWidth] and
    [pixelHeight] are [mapData.map.pixelWidth] and
    [mapData.map.pixelHeight], which only this function reads. *)
Definition getSpawnPoint (md : MapData) (pixelWidth pixelHeight : Q) : Point.t :=
  match List.find (fun t : Tile => isTileWalkable md t.1 t.2) (spawnScan md) with
  | Some t => tileToPixel md t.1 t.2
  | None =>
      match idleZones md with
      | z :: _ => Point.mk (Zone.centerX z) (Zone.centerY z)
      | [] => Point.mk (pixelWidth / 2)%Q (pixelHeight / 2)%Q
      end
  end.

(** *** state.js: statistics and the legacy desk names *)

Record AssignmentStats := {
  totalWorkstations : nat;
  assignedWorkstations : nat;
  availableWorkstations : nat
}.

Definition getAssignmentStats (md : MapData) (tb : Tables) : AssignmentStats :=
  let ws := getZonesByType md Tworkstations in
  let assigned := length (filter (fun z => isZoneOccupied tb (Zone.id z) = true) ws) in
  {| totalWorkstations := length ws;
     assignedWorkstations := assigned;
     availableWorkstations := length ws - assigned |}.

(** [deskAssignments[prop]], the proxy's [get] trap. *)
Definition deskAssignments (tb : Tables) (prop : string) : option string :=
  getZoneOccupant tb prop.

Definition assignDesk (md : MapData) (entityId : string) (tb : Tables)
    : option string * Tables :=
  let '(workstation, tb') := assignWorkstation md entityId tb in
  (option_map Zone.id workstation, tb').

Definition releaseDesk (deskId : string) (tb : Tables) : Tables :=
  match zoneAssignments tb !! deskId with
  | Some entityId => if truthy entityId then releaseWorkstation entityId tb else tb
  | None => tb
  end.

Definition clearDeskAssignments : Tables := clearAllAssignments.

Definition getDeskForEntity (md : MapData) (tb : Tables) (entityId : string)
    : option string :=
  option_map Zone.id (getEntityWorkstation md tb entityId).

(** *** entities/utils.js *)

Definition getEntityTile (md : MapData) (e : Entity.t) : Tile :=
  pixelToTile md (Entity.x e) (Entity.y e).

Definition isEntityAtTile (md : MapData) (e : Entity.t) (tileX tileY : Z) : bool :=
  let tile := getEntityTile md e in
  (tile.1 =? tileX) && (tile.2 =? tileY).

Definition teleportEntity (x y : Q) (e : Entity.t) : Entity.t :=
  Entity.set_isMoving false
    (Entity.set_pathIndex 0%nat
      (Entity.set_path [] (Entity.set_xy x y e))).

(** *** entities/create.js *)

Definition ENTITY_COLORS : list string :=
  ["#ff6b6b"; "#4ecdc4"; "#ffe66d"; "#95e1d3";
   "#f38181"; "#aa96da"; "#fcbad3"; "#a8e6cf"].

(** [ENTITY_COLORS[Math.floor(r * ENTITY_COLORS.length)]]; an index out
    of range reads [undefined], kept here as the empty string. *)
Definition colorAt (r : Q) : string :=
  let i := Qfloor (r * inject_Z (Z.of_nat (length ENTITY_COLORS))) in
  if i <? 0 then EmptyString else default EmptyString (ENTITY_COLORS !! Z.to_nat i).

(** The fields of the server's entity data that [createEntity] reads;
    [data.state || 'SPAWNED'] takes a missing state as [None], and the
    appearance object is carried along as it comes. *)
Record EntityData := {
  entity_id : string;
  data_appearance : string;
  data_state : option GameState
}.

Section Create.
Variable md : MapData.
Variables pixelWidth pixelHeight : Q.

Definition createEntity (now : Z) (data : EntityData) : M Entity.t :=
  let spawnPoint := getSpawnPoint md pixelWidth pixelHeight in
  let! r := Math_random in
  ret (Entity.mk (entity_id data) (data_appearance data)
         (default SPAWNED (data_state data)) (Some SPAWNED) None
         (Point.x spawnPoint) (Point.y spawnPoint) [] 0%nat None false
         Direction.down (colorAt r) now now [] 0 0 None 0 MOVE_SPEED).

(** *** network.js: the client's entity store and its message handlers *)

Record Store := {
  entities : gmap string Entity.t;
  spawnOrder : list string;
  selectedEntityId : option string
}.

Definition handleEntitySpawned (now : Z) (id appearance : string) (st : Store)
    : M Store :=
  let! entity := createEntity now
                   {| entity_id := id; data_appearance := appearance;
                      data_state := Some SPAWNED |} in
  ret {| entities := <[id := entity]> (entities st);
         spawnOrder := spawnOrder st ++ [id];
         selectedEntityId := Some id |}.

Definition handleEntityDespawned (id : string) (st : Store) : M Store :=
  let! _ := match entities st !! id with
            | Some entity => withTables (fun tb => (tt, cleanupEntity entity tb))
            | None => ret tt
            end in
  let order := filter (fun i => i ≠ id) (spawnOrder st) in
  ret {| entities := delete id (entities st);
         spawnOrder := order;
         selectedEntityId :=
           if bool_decide (selectedEntityId st = Some id) then last order
           else selectedEntityId st |}.

Definition handleEntityState (now : Z) (id : string) (s : GameState) (st : Store)
    : Store :=
  match entities st !! id with
  | Some entity =>
      {| entities := <[id := queueStateChange now s entity]> (entities st);
         spawnOrder := spawnOrder st;
         selectedEntityId := selectedEntityId st |}
  | None => st
  end.

(** One entity of [message.entities.forEach(...)] in [handleFullState]. *)
Definition addFromFullState (now : Z) (st : Store) (data : EntityData) : M Store :=
  let! entity := createEntity now data in
  let entity :=
    match data_state data with
    | Some s => if bool_decide (s = SPAWNED) then entity
                else queueStateChange now s entity
    | None => entity
    end in
  ret {| entities := <[entity_id data := entity]> (entities st);
         spawnOrder := spawnOrder st ++ [entity_id data];
         selectedEntityId := selectedEntityId st |}.

Fixpoint forEachM {A S} (f : S -> A -> M S) (l : list A) (st : S) : M S :=
  match l with
  | [] => ret st
  | a :: l' => let! st' := f st a in forEachM f l' st'
  end.

Definition handleFullState (now : Z) (datas : list EntityData) (st : Store) : M Store :=
  let! _ := withTables (fun _ => (tt, clearDeskAssignments)) in
  forEachM (addFromFullState now)
    datas
    {| entities := ∅; spawnOrder := []; selectedEntityId := selectedEntityId st |}.

(** The server's messages. [ENTITY_WAVE] sets the waving fields, which
    only the renderer reads and which are not part of [Entity.t]. *)
Inductive Message :=
  | FULL_STATE (datas : list EntityData)
  | ENTITY_SPAWNED (id appearance : string)
  | ENTITY_DESPAWNED (id : string)
  | ENTITY_STATE (id : string) (s : GameState)
  | ENTITY_WAVE (id : string) (duration : Z).

(** [now] is the clock reading while the message is handled. *)
Definition handleMessage (now : Z) (message : Message) (st : Store) : M Store :=
  match message with
  | FULL_STATE datas => handleFullState now datas st
  | ENTITY_SPAWNED id appearance => handleEntitySpawned now id appearance st
  | ENTITY_DESPAWNED id => handleEntityDespawned id st
  | ENTITY_STATE id s => ret (handleEntityState now id s st)
  | ENTITY_WAVE _ _ => ret st
  end.

End Create.

(* ===================================================================== *)
(** * Part II. Specification predicates                                   *)
(* ===================================================================== *)

(** ** Binary heap invariants *)

Definition parent (j : nat) : nat := ((j - 1) / 2)%nat.

Definition le_at (l : list HeapEntry) (i j : nat) : Prop :=
  ∀ a b, l !! i = Some a → l !! j = Some b → priority a ≤ priority b.

Definition heap_ordered (l : list HeapEntry) : Prop :=
  ∀ j, (0 < j)%nat → le_at l (parent j) j.

(** [keyToIndex] records exactly the position of every node. *)
Definition idx_ok (h : MinHeap) : Prop :=
  (∀ i e, heap h !! i = Some e → keyToIndex h !! node e = Some i) ∧
  (∀ k i, keyToIndex h !! k = Some i → ∃ e, heap h !! i = Some e ∧ node e = k).

Definition heap_inv (h : MinHeap) : Prop := idx_ok h ∧ heap_ordered (heap h).

(** Ordered everywhere except between [i] and its parent. *)
Definition up_inv (l : list HeapEntry) (i : nat) : Prop :=
  (∀ j, (0 < j)%nat → j ≠ i → le_at l (parent j) j) ∧
  (∀ j, (0 < j)%nat → parent j = i → (0 < i)%nat → le_at l (parent i) j).

(** Ordered everywhere except between [i] and its children. *)
Definition down_inv (l : list HeapEntry) (i : nat) : Prop :=
  (∀ j, (0 < j)%nat → parent j ≠ i → le_at l (parent j) j) ∧
  (∀ j, (0 < j)%nat → parent j = i → (0 < i)%nat → le_at l (parent i) j).

(** Same entries, possibly at other positions. *)
Definition same_entries (h h' : MinHeap) : Prop :=
  length (heap h') = length (heap h) ∧ ∀ e, e ∈ heap h' ↔ e ∈ heap h.

(** ** Tile paths *)

Definition walkable (md : MapData) (t : Tile) : Prop :=
  isTileWalkable md t.1 t.2 = true.

(** 4-adjacency: one step up, down, left or right. *)
Definition adjacent (a b : Tile) : Prop :=
  Z.abs (a.1 - b.1) + Z.abs (a.2 - b.2) = 1.

Fixpoint chain (p : list Tile) : Prop :=
  match p with
  | a :: (b :: _) as rest => adjacent a b ∧ chain rest
  | _ => True
  end.

(** [p] is a path of 4-adjacent walkable tiles from [s] to [g]. *)
Definition tile_path (md : MapData) (s g : Tile) (p : list Tile) : Prop :=
  head p = Some s ∧ last p = Some g ∧ Forall (walkable md) p ∧ chain p.

Definition connected (md : MapData) (s g : Tile) : Prop :=
  ∃ p, tile_path md s g p.

(** A path whose tile count no path between the same tiles beats. *)
Definition shortest_tile_path (md : MapData) (s g : Tile) (p : list Tile) : Prop :=
  tile_path md s g p ∧ ∀ q, tile_path md s g q → (length p ≤ length q)%nat.

(** The collision grid has a row for every tile row of the map. *)
Definition grid_loaded (md : MapData) : Prop :=
  (Z.to_nat (height md) ≤ length (unifiedCollisionGrid md))%nat.

(** ** The A* loop invariant

    [s] is the (adjusted) start, [goal] the (adjusted) goal. While the
    neighbours of the node [u] being expanded are processed, the edges from
    [u] to the tiles of [pending] are not yet relaxed. *)
Definition neighborTiles (u : Tile) : list Tile :=
  map (fun d : Z * Z => (u.1 + d.1, u.2 + d.2)) neighbors.

Record search_inv (md : MapData) (s goal : Tile) (u : Tile) (pending : list Tile)
    (st : Search) : Prop := {
  inv_heap : heap_inv (openSet st);
  inv_open : ∀ k p,
    {| node := k; priority := p |} ∈ heap (openSet st) ↔
    (k ∉ closedSet st) ∧ ∃ g, gScore st !! k = Some g ∧ p = g + heuristic k goal;
  inv_closed : ∀ v, v ∈ closedSet st →
    ∃ g, gScore st !! v = Some g ∧
         ∀ q, tile_path md s v q → g + 1 ≤ Z.of_nat (length q);
  inv_edge : ∀ v n gv,
    v ∈ closedSet st → gScore st !! v = Some gv →
    adjacent v n → walkable md n → n ∉ closedSet st →
    (v = u ∧ n ∈ pending) ∨ ∃ gn, gScore st !! n = Some gn ∧ gn ≤ gv + 1;
  inv_start : gScore st !! s = Some 0 ∧ cameFrom st !! s = None;
  inv_came : ∀ v g, gScore st !! v = Some g → v ≠ s →
    ∃ w gw, cameFrom st !! v = Some w ∧ w ∈ closedSet st ∧
            gScore st !! w = Some gw ∧ g = gw + 1 ∧ adjacent w v;
  inv_walk : ∀ v g, gScore st !! v = Some g → walkable md v ∧ 0 ≤ g;
  inv_src : ∀ v, is_Some (gScore st !! v) → v = s ∨ s ∈ closedSet st;
  inv_goal : goal ∉ closedSet st
}.

(** ** Smoothed paths *)

(** Every consecutive pair of waypoints has a walkable rasterized line. *)
Definition los_chain (md : MapData) (p : list Point.t) : Prop :=
  ∀ i a b, p !! i = Some a → p !! S i = Some b → hasLineOfSight md a b = true.

(** The tile centers of a tile path, as [findPath] returns them. *)
Definition tileCenters (md : MapData) (tiles : list Tile) : list Point.t :=
  map (fun tile : Tile => tileToPixel md tile.1 tile.2) tiles.

(** ** Occupancy tables *)

Inductive TableOp :=
  | OpAssign (entityId : string)
  | OpRelease (entityId : string)
  | OpClear (entityId : string).

Definition runOp (md : MapData) (tb : Tables) (op : TableOp) : Tables :=
  match op with
  | OpAssign e => (assignWorkstation md e tb).2
  | OpRelease e => releaseWorkstation e tb
  | OpClear e => clearEntityAssignments e tb
  end.

(** The tables after a sequence of calls, starting from the empty tables
    of module load. *)
Definition runOps (md : MapData) (ops : list TableOp) : Tables :=
  foldl (runOp md) clearAllAssignments ops.

(** Zone ids come from the map parser, which never produces an empty id. *)
Definition workstation_ids_truthy (md : MapData) : Prop :=
  Forall (fun z => truthy (Zone.id z) = true) (workstations md).

Definition wsKey (e : string) : string := assignmentKey e Tworkstations.

Record tables_consistent (md : MapData) (tb : Tables) : Prop := {
  tc_iff : ∀ w e,
    zoneAssignments tb !! w = Some e ↔ entityZoneMap tb !! wsKey e = Some w;
  tc_keys : ∀ k w, entityZoneMap tb !! k = Some w → ∃ e, k = wsKey e;
  tc_ids : ∀ w e, zoneAssignments tb !! w = Some e →
    w ∈ map Zone.id (workstations md)
}.

(** Entity [e] holds a workstation. *)
Definition holdsWorkstation (tb : Tables) (e : string) : Prop :=
  is_Some (entityZoneMap tb !! wsKey e).

(** ** Agents *)

(** The spec's wording of the queue collapse: every run of consecutive
    duplicates, wherever it is, shrinks to its first entry. *)
Fixpoint dropRepeats (prev : GameState) (q : list QueuedState) : list QueuedState :=
  match q with
  | [] => []
  | a :: rest =>
      if bool_decide (state a = prev) then dropRepeats prev rest
      else a :: dropRepeats (state a) rest
  end.

Definition collapseRuns_spec (q : list QueuedState) : list QueuedState :=
  match q with
  | [] => []
  | a :: rest => a :: dropRepeats (state a) rest
  end.

(** The minimum display time does not hold the queue back at [now]. *)
Definition displayElapsed (now : Z) (e : Entity.t) : Prop :=
  Entity.currentStateStartTime e = 0 ∨
  MIN_STATE_DISPLAY_MS ≤ now - Entity.currentStateStartTime e.


(** The waypoint [p] is the point [(cx, cy)]. *)
Definition at_point (p : Point.t) (cx cy : Q) : Prop :=
  (Point.x p == cx)%Q ∧ (Point.y p == cy)%Q.

(** The fields the wander controller never touches when it only picks a
    zone and a speed. *)
Definition same_core (e e' : Entity.t) : Prop :=
  Entity.visualState e' = Entity.visualState e ∧
  Entity.currentStateStartTime e' = Entity.currentStateStartTime e ∧
  Entity.stateQueue e' = Entity.stateQueue e ∧
  Entity.isMoving e' = Entity.isMoving e ∧
  Entity.id e' = Entity.id e.

(** The agent moves towards the state [v] it already displays: the
    movement is a wander. *)
Definition wandering (v : option GameState) (e : Entity.t) : Prop :=
  Entity.isMoving e = true ∧ Entity.targetState e = v ∧ Entity.visualState e = v.

(** What can happen to a moving agent between two of its ticks: a state
    request is queued, or the agent is updated. *)
Inductive Event :=
  | EvQueue (now : Z) (newState : GameState)
  | EvTick (now : Z) (deltaTime : Q).

Definition step (md : MapData) (Math_sqrt : Q -> Q) (ev : Event)
    (ew : Entity.t * World) : Entity.t * World :=
  match ev with
  | EvQueue now s => (queueStateChange now s ew.1, ew.2)
  | EvTick now dt => updateEntity md Math_sqrt now dt ew.1 ew.2
  end.

Definition run (md : MapData) (Math_sqrt : Q -> Q) (evs : list Event)
    (ew : Entity.t * World) : Entity.t * World :=
  foldl (fun ew ev => step md Math_sqrt ev ew) ew evs.

(** The agent is still moving after each of the events. *)
Fixpoint stays_moving (md : MapData) (Math_sqrt : Q -> Q) (evs : list Event)
    (ew : Entity.t * World) : Prop :=
  match evs with
  | [] => True
  | ev :: evs' =>
      Entity.isMoving (step md Math_sqrt ev ew).1 = true ∧
      stays_moving md Math_sqrt evs' (step md Math_sqrt ev ew)
  end.

(** ** Example data for the concrete checks *)

Definition mkZone (id : string) (x y w h : Q) : Zone.t :=
  Zone.mk id x y w h (x + w / 2)%Q (y + h / 2)%Q None.

(** A corridor of three walkable 48px tiles with one zone of each kind. *)
Definition corridorMap : MapData :=
  {| tileWidth := 48; tileHeight := 48; width := 3; height := 1;
     unifiedCollisionGrid := [[false; false; false]];
     workstations := [mkZone "desk-1" 0 0 48 48];
     planningZones := [mkZone "board-1" 96 0 48 48];
     thinkingZones := [mkZone "think-1" 48 0 48 48];
     idleZones := [mkZone "idle-1" 96 0 48 48] |}.

(** A single blocked tile: no walkable cell anywhere, so [findPath] fails. *)
Definition walledMap : MapData :=
  {| tileWidth := 48; tileHeight := 48; width := 1; height := 1;
     unifiedCollisionGrid := [[true]];
     workstations := [];
     planningZones := [mkZone "board-1" 0 0 48 48];
     thinkingZones := [];
     idleZones := [] |}.

Definition mkEntity (visual : option GameState) (queue : list QueuedState)
    (startTime : Z) (nextWander : Q) : Entity.t :=
  Entity.mk "agent-1" "default" SPAWNED visual None 24 24 [] 0%nat None false
    Direction.down "#ff6b6b" 1 startTime queue 0 0 None nextWander MOVE_SPEED.

Definition emptyWorld : World :=
  {| tables := clearAllAssignments; randomSeq := fun _ => (1 # 2)%Q; randomPos := 0%nat |}.

Definition quarterWorld : World :=
  {| tables := clearAllAssignments; randomSeq := fun _ => (1 # 4)%Q; randomPos := 0%nat |}.

(** A single blocked tile with an idle zone on it: wandering finds no path. *)
Definition walledIdleMap : MapData :=
  {| tileWidth := 48; tileHeight := 48; width := 1; height := 1;
     unifiedCollisionGrid := [[true]];
     workstations := [];
     planningZones := [];
     thinkingZones := [];
     idleZones := [mkZone "idle-1" 0 0 48 48] |}.

(** ** Further specification predicates *)

(** Chebyshev distance: the number of the ring [findNearestWalkable]
    finds a tile on. *)
Definition cheb (a b : Tile) : Z := Z.max (Z.abs (a.1 - b.1)) (Z.abs (a.2 - b.2)).

(** Consecutive tiles are neighbours, diagonals included. *)
Fixpoint king_chain (p : list Tile) : Prop :=
  match p with
  | a :: (b :: _) as rest => cheb a b = 1 ∧ king_chain rest
  | _ => True
  end.

(** [t] lies in the rectangle spanned by [a] and [b]. *)
Definition in_box (a b t : Tile) : Prop :=
  Z.min a.1 b.1 ≤ t.1 ≤ Z.max a.1 b.1 ∧ Z.min a.2 b.2 ≤ t.2 ≤ Z.max a.2 b.2.

(** A heap filled by successive [insert] calls. *)
Definition insertAll (l : list (Tile * Z)) (h : MinHeap) : MinHeap :=
  foldl (fun h kp => MinHeapOps.insert kp.1 kp.2 h) h l.

(** ** The client's entity store *)

Definition emptyStore : Store :=
  {| entities := ∅; spawnOrder := []; selectedEntityId := None |}.

(** The store and the world after a sequence of messages, each with the
    clock reading at which it is handled. *)
Definition runMessages (md : MapData) (pixelWidth pixelHeight : Q)
    (msgs : list (Z * Message)) (sw : Store * World) : Store * World :=
  foldl (fun sw m => handleMessage md pixelWidth pixelHeight m.1 m.2 sw.1 sw.2) sw msgs.

Definition isFullState (m : Message) : bool :=
  match m with FULL_STATE _ => true | _ => false end.

(** [spawnOrder] lists exactly the ids of [entities], and every entity is
    stored under its own id. *)
Definition store_ok (st : Store) : Prop :=
  (∀ id, id ∈ spawnOrder st ↔ is_Some (entities st !! id)) ∧
  (∀ id e, entities st !! id = Some e → Entity.id e = id).

(** The selection, if any, is an entity of the store. *)
Definition selection_ok (st : Store) : Prop :=
  ∀ id, selectedEntityId st = Some id → is_Some (entities st !! id).



(* ===================================================================== *)
(** * Part III. Proofs                                                    *)
(* ===================================================================== *)

(** ** The binary min-heap *)

Section HeapProofs.
Import MinHeapOps.

Lemma parent_lt j : (0 < j)%nat → (parent j < j)%nat.
Proof. unfold parent. intros. zify. Z.div_mod_to_equations. lia. Qed.

Lemma parent_inv j i : (0 < j)%nat → parent j = i → j = (2 * i + 1)%nat ∨ j = (2 * i + 2)%nat.
Proof. unfold parent. intros. zify. Z.div_mod_to_equations. lia. Qed.

Lemma parent_left i : parent (2 * i + 1) = i.
Proof. unfold parent. zify. Z.div_mod_to_equations. lia. Qed.

Lemma parent_right i : parent (2 * i + 2) = i.
Proof. unfold parent. zify. Z.div_mod_to_equations. lia. Qed.

Lemma idx_ok_inj h i j a b :
  idx_ok h → heap h !! i = Some a → heap h !! j = Some b → node a = node b → i = j.
Proof.
  intros [H1 _] Ha Hb Hn. apply H1 in Ha, Hb. rewrite Hn in Ha. congruence.
Qed.

Lemma swap_heap_lookup i j h a b k :
  i ≠ j → heap h !! i = Some a → heap h !! j = Some b →
  heap (_swap i j h) !! k =
    if decide (k = j) then Some a else if decide (k = i) then Some b else heap h !! k.
Proof.
  intros Hij Ha Hb. unfold _swap. rewrite Ha, Hb. simpl.
  assert (Hi : (i < length (heap h))%nat) by (eapply lookup_lt_Some; eauto).
  assert (Hj : (j < length (heap h))%nat) by (eapply lookup_lt_Some; eauto).
  destruct (decide (k = j)) as [->|Hkj].
  - rewrite list_lookup_insert_eq; [done|]. by rewrite length_insert.
  - rewrite list_lookup_insert_ne by done.
    destruct (decide (k = i)) as [->|Hki].
    + by rewrite list_lookup_insert_eq.
    + by rewrite list_lookup_insert_ne.
Qed.

Lemma swap_key_lookup i j h a b k :
  heap h !! i = Some a → heap h !! j = Some b →
  keyToIndex (_swap i j h) !! k =
    if decide (k = node a) then Some j
    else if decide (k = node b) then Some i else keyToIndex h !! k.
Proof.
  intros Ha Hb. unfold _swap. rewrite Ha, Hb. simpl.
  destruct (decide (k = node a)) as [->|Hka].
  - by rewrite lookup_insert_eq.
  - rewrite lookup_insert_ne by done.
    destruct (decide (k = node b)) as [->|Hkb].
    + by rewrite lookup_insert_eq.
    + by rewrite lookup_insert_ne.
Qed.

Lemma swap_length i j h : length (heap (_swap i j h)) = length (heap h).
Proof.
  unfold _swap. destruct (heap h !! i), (heap h !! j); simpl; try done.
  by rewrite !length_insert.
Qed.

Lemma swap_idx_ok i j h a b :
  i ≠ j → heap h !! i = Some a → heap h !! j = Some b →
  idx_ok h → idx_ok (_swap i j h).
Proof.
  intros Hij Ha Hb Hok.
  assert (Hab : node a ≠ node b).
  { intros Hn. apply Hij. eapply idx_ok_inj; eauto. }
  split.
  - intros k e. rewrite (swap_heap_lookup i j h a b) by done.
    rewrite (swap_key_lookup i j h a b) by done.
    destruct (decide (k = j)) as [->|Hkj].
    + intros [= <-]. by rewrite decide_True.
    + destruct (decide (k = i)) as [->|Hki].
      * intros [= <-]. rewrite decide_False by done. by rewrite decide_True.
      * intros He.
        assert (node e ≠ node a).
        { intros Hn. apply Hki. eapply idx_ok_inj; eauto. }
        assert (node e ≠ node b).
        { intros Hn. apply Hkj. eapply idx_ok_inj; eauto. }
        rewrite !decide_False by done. by apply Hok.
  - intros k n. rewrite (swap_key_lookup i j h a b) by done.
    destruct (decide (k = node a)) as [->|Hka].
    + intros [= <-]. exists a. rewrite (swap_heap_lookup i j h a b) by done.
      by rewrite decide_True.
    + destruct (decide (k = node b)) as [->|Hkb].
      * intros [= <-]. exists b. rewrite (swap_heap_lookup i j h a b) by done.
        rewrite decide_False by done. by rewrite decide_True.
      * intros Hk. destruct Hok as [_ H2]. destruct (H2 _ _ Hk) as (e & He & Hne).
        exists e. split; [|done].
        rewrite (swap_heap_lookup i j h a b) by done.
        rewrite !decide_False; [done| |]; intros ->; congruence.
Qed.

Lemma swap_same_entries i j h a b :
  i ≠ j → heap h !! i = Some a → heap h !! j = Some b →
  same_entries h (_swap i j h).
Proof.
  intros Hij Ha Hb. split; [apply swap_length|].
  intros e. rewrite !list_elem_of_lookup. split.
  - intros [k Hk]. rewrite (swap_heap_lookup i j h a b) in Hk by done.
    repeat case_decide; simplify_eq; eauto.
  - intros [k Hk].
    destruct (decide (k = i)) as [->|Hki].
    + exists j. rewrite (swap_heap_lookup i j h a b) by done.
      rewrite decide_True by done. congruence.
    + destruct (decide (k = j)) as [->|Hkj].
      * exists i. rewrite (swap_heap_lookup i j h a b) by done.
        rewrite decide_False by done. rewrite decide_True by done. congruence.
      * exists k. rewrite (swap_heap_lookup i j h a b) by done.
        by rewrite !decide_False.
Qed.

Lemma same_entries_refl h : same_entries h h.
Proof. by split. Qed.

Lemma same_entries_trans h1 h2 h3 :
  same_entries h1 h2 → same_entries h2 h3 → same_entries h1 h3.
Proof.
  intros [L1 E1] [L2 E2]. split; [congruence|].
  intros e. rewrite E2. apply E1.
Qed.

(** *** [_bubbleUp] *)

Lemma bubbleUp_loop_S fuel index h :
  _bubbleUp_loop (S fuel) index h =
    if (0 <? index)%nat then
      match heap h !! parent index, heap h !! index with
      | Some p, Some c =>
          if priority p <=? priority c then h
          else _bubbleUp_loop fuel (parent index) (_swap index (parent index) h)
      | _, _ => h
      end
    else h.
Proof. reflexivity. Qed.

Lemma bubbleDown_loop_S fuel index h :
  _bubbleDown_loop (S fuel) index h =
    let s := smaller_child (heap h) (2 * index + 2)
               (smaller_child (heap h) (2 * index + 1) index) in
    if (s =? index)%nat then h
    else _bubbleDown_loop fuel s (_swap index s h).
Proof. reflexivity. Qed.

Lemma bubbleUp_loop_frame fuel : ∀ index h,
  (index < length (heap h))%nat → idx_ok h →
  idx_ok (_bubbleUp_loop fuel index h) ∧ same_entries h (_bubbleUp_loop fuel index h).
Proof.
  induction fuel as [|fuel IH]; intros index h Hlen Hok.
  { split; [done|apply same_entries_refl]. }
  rewrite bubbleUp_loop_S.
  destruct (0 <? index)%nat eqn:Hpos; [|split; [done|apply same_entries_refl]].
  apply Nat.ltb_lt in Hpos.
  pose proof (parent_lt index Hpos) as Hp.
  destruct (lookup_lt_is_Some_2 (heap h) (parent index)) as [p Hpe]; [lia|].
  destruct (lookup_lt_is_Some_2 (heap h) index) as [c Hce]; [lia|].
  rewrite Hpe, Hce.
  destruct (priority p <=? priority c); [split; [done|apply same_entries_refl]|].
  assert (Hne : index ≠ parent index) by lia.
  pose proof (swap_idx_ok _ _ _ _ _ Hne Hce Hpe Hok) as Hok'.
  pose proof (swap_same_entries _ _ _ _ _ Hne Hce Hpe) as Hse.
  destruct (IH (parent index) (_swap index (parent index) h)) as [H1 H2].
  { rewrite swap_length. lia. }
  { done. }
  split; [done|]. eapply same_entries_trans; eauto.
Qed.

Lemma bubbleUp_loop_ordered fuel : ∀ index h,
  (index ≤ fuel)%nat → (index < length (heap h))%nat →
  up_inv (heap h) index →
  heap_ordered (heap (_bubbleUp_loop fuel index h)).
Proof.
  induction fuel as [|fuel IH]; intros index h Hfuel Hlen [U1 U2].
  { intros j Hj. apply U1; [done|lia]. }
  rewrite bubbleUp_loop_S.
  destruct (0 <? index)%nat eqn:Hpos; cycle 1.
  { apply Nat.ltb_ge in Hpos. intros j Hj. apply U1; [done|lia]. }
  apply Nat.ltb_lt in Hpos.
  pose proof (parent_lt index Hpos) as Hp.
  destruct (lookup_lt_is_Some_2 (heap h) (parent index)) as [p Hpe]; [lia|].
  destruct (lookup_lt_is_Some_2 (heap h) index) as [c Hce]; [lia|].
  rewrite Hpe, Hce.
  destruct (priority p <=? priority c) eqn:Hcmp.
  { apply Z.leb_le in Hcmp. intros j Hj.
    destruct (decide (j = index)) as [->|Hji]; [|by apply U1].
    intros a b Ha Hb. congruence. }
  apply Z.leb_gt in Hcmp.
  assert (Hne : index ≠ parent index) by lia.
  apply IH; [lia|rewrite swap_length; lia|].
  set (P := parent index) in *.
  assert (HL : ∀ k, heap (_swap index P h) !! k =
     if decide (k = P) then Some c else if decide (k = index) then Some p
     else heap h !! k).
  { intros k. by apply swap_heap_lookup. }
  split.
  - intros j Hj HjP a b. rewrite !HL.
    pose proof (parent_lt j Hj) as Hpj.
    destruct (decide (j = P)) as [|_]; [done|].
    destruct (decide (j = index)) as [->|Hji].
    + fold P. rewrite decide_True by done. intros [= <-] [= <-]. lia.
    + destruct (decide (parent j = P)) as [HjP'|HjP'].
      * intros [= <-] Hb.
        assert (priority p ≤ priority b); [|lia].
        eapply (U1 j); eauto. by rewrite HjP'.
      * destruct (decide (parent j = index)) as [Hjx|Hjx].
        -- intros [= <-] Hb. eapply (U2 j); eauto.
        -- intros Ha Hb. eapply (U1 j); eauto.
  - intros j Hj HjP HP a b. rewrite !HL.
    pose proof (parent_lt P HP) as HpP.
    pose proof (parent_lt j Hj) as Hpj.
    rewrite (decide_False (P := parent P = P)) by lia.
    rewrite (decide_False (P := parent P = index)) by lia.
    rewrite (decide_False (P := j = P)) by lia.
    destruct (lookup_lt_is_Some_2 (heap h) (parent P)) as [g Hg]; [lia|].
    rewrite Hg. intros [= <-].
    assert (Hgp : priority g ≤ priority p).
    { eapply (U1 P); eauto. }
    destruct (decide (j = index)) as [->|Hji].
    + by intros [= <-].
    + intros Hb. etrans; [apply Hgp|]. eapply (U1 j); eauto. by rewrite HjP.
Qed.

(** *** [_bubbleDown] *)

Lemma smaller_child_cases l child smallest :
  (smaller_child l child smallest = smallest ∧
     ∀ c s, l !! child = Some c → l !! smallest = Some s → priority s ≤ priority c)
  ∨ (smaller_child l child smallest = child ∧
     ∃ c s, l !! child = Some c ∧ l !! smallest = Some s ∧ priority c < priority s).
Proof.
  unfold smaller_child.
  destruct (l !! child) as [c|] eqn:Hc; [|left; split; [done|congruence]].
  destruct (l !! smallest) as [s|] eqn:Hs; [|left; split; [done|congruence]].
  destruct (priority c <? priority s) eqn:Hcmp.
  - apply Z.ltb_lt in Hcmp. right. eauto 10.
  - apply Z.ltb_ge in Hcmp. left. split; [done|]. intros ?? [= <-] [= <-]. done.
Qed.

(** The child chosen by one round of [_bubbleDown], or [index] itself. *)
Lemma bubbleDown_choice l index x :
  l !! index = Some x →
  let s1 := smaller_child l (2 * index + 1) index in
  let s := smaller_child l (2 * index + 2) s1 in
  (s = index ∧ (∀ c, l !! (2 * index + 1)%nat = Some c → priority x ≤ priority c)
             ∧ (∀ c, l !! (2 * index + 2)%nat = Some c → priority x ≤ priority c))
  ∨ (∃ y, (s = (2 * index + 1)%nat ∨ s = (2 * index + 2)%nat) ∧ l !! s = Some y ∧
          priority y < priority x ∧
          (∀ c, l !! (2 * index + 1)%nat = Some c → priority y ≤ priority c) ∧
          (∀ c, l !! (2 * index + 2)%nat = Some c → priority y ≤ priority c)).
Proof.
  intros Hx s1 s. subst s s1.
  destruct (smaller_child_cases l (2 * index + 1) index) as [[-> H1]|[-> H1]].
  - destruct (smaller_child_cases l (2 * index + 2) index) as [[-> H2]|[-> H2]].
    + left. split; [done|]. split; intros c Hc; eauto.
    + right. destruct H2 as (c & s & Hc & Hs & Hlt). simplify_eq.
      exists c. split; [by right|]. split; [done|]. split; [done|].
      split; intros c' Hc'; [|naive_solver].
      specialize (H1 _ _ Hc' Hx). lia.
  - destruct H1 as (c1 & s & Hc1 & Hs & Hlt1). simplify_eq.
    destruct (smaller_child_cases l (2 * index + 2) (2 * index + 1))
      as [[-> H2]|[-> H2]].
    + right. exists c1. split; [by left|]. split; [done|]. split; [done|].
      split; intros c' Hc'; [naive_solver|]. eauto.
    + right. destruct H2 as (c2 & s' & Hc2 & Hs' & Hlt2). simplify_eq.
      exists c2. split; [by right|]. split; [done|]. split; [lia|].
      split; intros c' Hc'; simplify_eq; lia.
Qed.

Lemma bubbleDown_loop_frame fuel : ∀ index h,
  (index < length (heap h))%nat → idx_ok h →
  idx_ok (_bubbleDown_loop fuel index h) ∧ same_entries h (_bubbleDown_loop fuel index h).
Proof.
  induction fuel as [|fuel IH]; intros index h Hlen Hok.
  { split; [done|apply same_entries_refl]. }
  rewrite bubbleDown_loop_S. cbv zeta.
  destruct (lookup_lt_is_Some_2 (heap h) index) as [x Hx]; [lia|].
  destruct (bubbleDown_choice (heap h) index x Hx) as [(-> & _)|(y & Hs & Hy & _)].
  { rewrite Nat.eqb_refl. split; [done|apply same_entries_refl]. }
  set (s := smaller_child _ _ _) in *.
  assert (Hne : index ≠ s) by lia.
  rewrite (proj2 (Nat.eqb_neq s index)) by lia.
  pose proof (swap_idx_ok _ _ _ _ _ Hne Hx Hy Hok) as Hok'.
  pose proof (swap_same_entries _ _ _ _ _ Hne Hx Hy) as Hse.
  destruct (IH s (_swap index s h)) as [H1 H2].
  { rewrite swap_length. by eapply lookup_lt_Some. }
  { done. }
  split; [done|]. eapply same_entries_trans; eauto.
Qed.

Lemma bubbleDown_loop_ordered fuel : ∀ index h,
  (length (heap h) ≤ fuel + index)%nat → (index < length (heap h))%nat →
  down_inv (heap h) index →
  heap_ordered (heap (_bubbleDown_loop fuel index h)).
Proof.
  induction fuel as [|fuel IH]; intros index h Hfuel Hlen [D1 D2].
  { lia. }
  rewrite bubbleDown_loop_S. cbv zeta.
  destruct (lookup_lt_is_Some_2 (heap h) index) as [x Hx]; [lia|].
  destruct (bubbleDown_choice (heap h) index x Hx)
    as [(-> & HL & HR)|(y & Hs & Hy & Hlt & HL & HR)].
  { rewrite Nat.eqb_refl. intros j Hj.
    destruct (decide (parent j = index)) as [Hpj|Hpj]; [|by apply D1].
    intros a b Ha Hb. rewrite Hpj in Ha. simplify_eq.
    destruct (parent_inv j (parent j) Hj eq_refl) as [Hjj|Hjj];
      rewrite Hjj in Hb; eauto. }
  set (s := smaller_child _ _ _) in *.
  assert (Hne : index ≠ s) by lia.
  rewrite (proj2 (Nat.eqb_neq s index)) by lia.
  assert (Hslen : (s < length (heap h))%nat) by (by eapply lookup_lt_Some).
  assert (Hps : parent s = index).
  { destruct Hs as [->| ->]; [apply parent_left|apply parent_right]. }
  apply IH; [rewrite swap_length; lia|rewrite swap_length; lia|].
  assert (HLk : ∀ k, heap (_swap index s h) !! k =
     if decide (k = s) then Some x else if decide (k = index) then Some y
     else heap h !! k).
  { intros k. by apply swap_heap_lookup. }
  split.
  - intros j Hj Hpjs a b. rewrite !HLk.
    pose proof (parent_lt j Hj) as Hpj.
    rewrite (decide_False (P := parent j = s)) by done.
    destruct (decide (parent j = index)) as [Hpji|Hpji].
    + intros [= <-].
      destruct (decide (j = s)) as [->|Hjs]; [intros [= <-]; lia|].
      rewrite (decide_False (P := j = index)) by lia.
      destruct (parent_inv j index Hj Hpji) as [->| ->]; eauto.
    + destruct (decide (j = s)) as [->|Hjs]; [done|].
      destruct (decide (j = index)) as [->|Hji].
      * intros Ha [= <-].
        assert (0 < index)%nat as Hipos by lia.
        eapply (D2 s); eauto. lia.
      * intros Ha Hb. eapply (D1 j); eauto.
  - intros j Hj Hpjs Hspos a b. rewrite !HLk.
    pose proof (parent_lt j Hj) as Hpj.
    rewrite Hps. rewrite (decide_False (P := index = s)) by done.
    rewrite decide_True by done.
    rewrite (decide_False (P := j = s)) by lia.
    rewrite (decide_False (P := j = index)) by lia.
    intros [= <-] Hb. eapply (D1 j); [done|lia|by rewrite Hpjs|done].
Qed.

(** *** The operations used by the search *)

Lemma heap_inv_empty : heap_inv empty.
Proof.
  split; [split|].
  - intros i e. simpl. by rewrite lookup_nil.
  - intros k i. simpl. by rewrite lookup_empty.
  - intros j _ a b. simpl. by rewrite lookup_nil.
Qed.

Lemma heap_node_unique h e1 e2 :
  idx_ok h → e1 ∈ heap h → e2 ∈ heap h → node e1 = node e2 → e1 = e2.
Proof.
  intros Hok [i Hi]%list_elem_of_lookup [j Hj]%list_elem_of_lookup Hn.
  assert (i = j) as -> by (eapply idx_ok_inj; eauto). congruence.
Qed.

Lemma has_spec h k :
  idx_ok h → has h k = true ↔ ∃ p, {| node := k; priority := p |} ∈ heap h.
Proof.
  intros [H1 H2]. unfold has. rewrite bool_decide_eq_true. split.
  - intros [i Hi]. destruct (H2 _ _ Hi) as ([k' p] & He & Hk). simpl in Hk. subst k'.
    exists p. eapply list_elem_of_lookup_2; eauto.
  - intros [p [i Hi]%list_elem_of_lookup]. exists i. by apply (H1 _ _ Hi).
Qed.

Lemma heap_root_min l top :
  heap_ordered l → l !! 0%nat = Some top →
  ∀ i e, l !! i = Some e → priority top ≤ priority e.
Proof.
  intros Hord Htop i. induction (lt_wf i) as [i _ IH]. intros e He.
  destruct (decide (i = 0%nat)) as [->|Hi]; [by simplify_eq|].
  assert (0 < i)%nat as Hpos by lia.
  pose proof (parent_lt i Hpos) as Hp.
  destruct (lookup_lt_is_Some_2 l (parent i)) as [q Hq].
  { apply lookup_lt_Some in He. lia. }
  etrans; [eapply (IH (parent i)); eauto|]. eapply (Hord i); eauto.
Qed.

Lemma insert_spec h k p :
  heap_inv h → has h k = false →
  heap_inv (insert k p h) ∧
  ∀ e, e ∈ heap (insert k p h) ↔ e = {| node := k; priority := p |} ∨ e ∈ heap h.
Proof.
  intros [Hok Hord] Hhas. unfold insert, _bubbleUp.
  set (entry := {| node := k; priority := p |}).
  set (h0 := {| heap := heap h ++ [entry];
                keyToIndex := <[k := length (heap h)]> (keyToIndex h) |}).
  assert (Hk : keyToIndex h !! k = None).
  { unfold has in Hhas. apply bool_decide_eq_false in Hhas.
    by apply eq_None_not_Some. }
  assert (Hok0 : idx_ok h0).
  { destruct Hok as [H1 H2]. split.
    - intros i e. simpl. intros He.
      apply lookup_app_Some in He as [He|[Hi He]].
      + rewrite lookup_insert_ne; [by apply H1|].
        intros Heq. apply H1 in He. congruence.
      + apply list_lookup_singleton_Some in He as [Hi' <-].
        simpl. replace i with (length (heap h)) by lia. by rewrite lookup_insert_eq.
    - intros k' i. simpl. destruct (decide (k' = k)) as [->|Hne].
      + rewrite lookup_insert_eq. intros [= <-]. exists entry.
        split; [|done]. rewrite lookup_app_r by done.
        by rewrite Nat.sub_diag.
      + rewrite lookup_insert_ne by done. intros Hi.
        destruct (H2 _ _ Hi) as (e & He & Hn). exists e. split; [|done].
        by apply lookup_app_l_Some. }
  assert (Hlen0 : length (heap h0) = S (length (heap h))).
  { simpl. rewrite length_app. simpl. lia. }
  assert (Hup : up_inv (heap h0) (length (heap h))).
  { split.
    - intros j Hj Hne a b Ha Hb. simpl in Ha, Hb.
      pose proof (parent_lt j Hj).
      assert (j < length (heap h))%nat.
      { apply lookup_lt_Some in Hb. rewrite length_app in Hb. simpl in Hb. lia. }
      rewrite lookup_app_l in Ha, Hb by lia. eapply (Hord j); eauto.
    - intros j Hj Hpj _ a b _ Hb. simpl in Hb.
      pose proof (parent_lt j Hj).
      apply lookup_lt_Some in Hb. rewrite length_app in Hb. simpl in Hb. lia. }
  destruct (bubbleUp_loop_frame (length (heap h)) (length (heap h)) h0)
    as [Hok' [_ Hse]]; [lia|done|].
  split; [split; [done|]|].
  - apply bubbleUp_loop_ordered; [done|lia|done].
  - intros e. rewrite Hse. simpl. rewrite elem_of_app, list_elem_of_singleton.
    tauto.
Qed.

Lemma decreaseKey_spec h k p p0 :
  heap_inv h → {| node := k; priority := p0 |} ∈ heap h → p ≤ p0 →
  heap_inv (decreaseKey k p h) ∧
  ∀ e, e ∈ heap (decreaseKey k p h) ↔
       e = {| node := k; priority := p |} ∨ (e ∈ heap h ∧ node e ≠ k).
Proof.
  intros [Hok Hord] [i Hi]%list_elem_of_lookup Hle. unfold decreaseKey, _bubbleUp.
  pose proof Hok as [H1 H2].
  pose proof (H1 _ _ Hi) as Hki. simpl in Hki. rewrite Hki, Hi. simpl.
  set (entry := {| node := k; priority := p |}).
  set (h0 := {| heap := <[i := entry]> (heap h); keyToIndex := keyToIndex h |}).
  assert (Hilen : (i < length (heap h))%nat) by (by eapply lookup_lt_Some).
  assert (HL : ∀ j, heap h0 !! j = if decide (j = i) then Some entry else heap h !! j).
  { intros j. simpl. destruct (decide (j = i)) as [->|Hne].
    - by rewrite list_lookup_insert_eq.
    - by rewrite list_lookup_insert_ne. }
  assert (Hok0 : idx_ok h0).
  { split.
    - intros j e. rewrite HL. simpl. case_decide as Hj.
      + intros [= <-]. subst j. apply (H1 _ _ Hi).
      + apply H1.
    - intros k' j Hk'. simpl in Hk'. destruct (H2 _ _ Hk') as (e & He & Hn).
      rewrite HL. case_decide as Hj.
      + subst j. exists entry. split; [done|]. simpl. by simplify_eq.
      + eauto. }
  assert (Hup : up_inv (heap h0) i).
  { split.
    - intros j Hj Hne a b. rewrite !HL.
      pose proof (parent_lt j Hj).
      rewrite (decide_False (P := j = i)) by done.
      case_decide as Hpj.
      + intros [= <-] Hb. simpl.
        assert (p0 ≤ priority b); [|lia].
        eapply (Hord j Hj {| node := k; priority := p0 |}); eauto. by rewrite Hpj.
      + intros Ha Hb. eapply (Hord j); eauto.
    - intros j Hj Hpj Hipos a b. rewrite !HL.
      pose proof (parent_lt j Hj). pose proof (parent_lt i Hipos).
      rewrite (decide_False (P := j = i)) by lia.
      rewrite (decide_False (P := parent i = i)) by lia.
      intros Ha Hb.
      etrans; [eapply (Hord i Hipos _ _ Ha Hi)|].
      eapply (Hord j Hj {| node := k; priority := p0 |}); eauto. by rewrite Hpj. }
  destruct (bubbleUp_loop_frame i i h0) as [Hok' [_ Hse]].
  { simpl. by rewrite length_insert. }
  { done. }
  split; [split; [done|]|].
  - apply bubbleUp_loop_ordered; [done| |done]. simpl. by rewrite length_insert.
  - intros e. rewrite Hse. rewrite !list_elem_of_lookup. split.
    + intros [j Hj]. rewrite HL in Hj. case_decide as Hji.
      * left. congruence.
      * right. split; [eauto|]. intros Hn. apply Hji.
        eapply (idx_ok_inj h); eauto.
    + intros [->|[[j Hj] Hn]].
      * exists i. rewrite HL. by rewrite decide_True.
      * exists j. rewrite HL. rewrite decide_False; [done|].
        intros ->. by simplify_eq.
Qed.

Lemma extractMin_spec h :
  heap_inv h → heap h ≠ [] →
  ∃ m pm h', extractMin h = (Some m, h') ∧ heap_inv h' ∧
    {| node := m; priority := pm |} ∈ heap h ∧
    (∀ e, e ∈ heap h → pm ≤ priority e) ∧
    (∀ e, e ∈ heap h' ↔ e ∈ heap h ∧ node e ≠ m).
Proof.
  intros [Hok Hord] Hne.
  destruct (exists_last (l := heap h)) as (popped & lst & Hpl); [done|].
  assert (∃ top, heap h !! 0%nat = Some top) as [top Htop].
  { destruct (heap h); [done|eauto]. }
  assert (Hex : extractMin h =
    (Some (node top),
     match popped with
     | [] => {| heap := []; keyToIndex := delete (node top) (keyToIndex h) |}
     | _ :: _ =>
         _bubbleDown 0
           {| heap := <[0%nat := lst]> popped;
              keyToIndex := <[node lst := 0%nat]> (delete (node top) (keyToIndex h)) |}
     end)).
  { unfold extractMin. destruct (heap h) as [|t r] eqn:Hh; [done|].
    simpl in Htop. simplify_eq. rewrite Hpl, last_snoc, removelast_last.
    by destruct popped. }
  rewrite Hex. clear Hex.
  assert (Hmin : ∀ e, e ∈ heap h → priority top ≤ priority e).
  { intros e [i Hi]%list_elem_of_lookup. eapply heap_root_min; eauto. }
  assert (Htopin : {| node := node top; priority := priority top |} ∈ heap h).
  { destruct top. simpl. eapply list_elem_of_lookup_2; eauto. }
  pose proof Hok as [H1 H2].
  exists (node top), (priority top).
  destruct popped as [|top' rest'].
  - (* a single entry *)
    eexists. split; [reflexivity|]. simpl in Hpl.
    assert (top = lst) by (rewrite Hpl in Htop; simpl in Htop; congruence). subst lst.
    split; [split; [split|]|].
    + intros i e. simpl. by rewrite lookup_nil.
    + intros k i. simpl. intros Hk.
      apply lookup_delete_Some in Hk as [Hk Hi].
      destruct (H2 _ _ Hi) as (e & He & Hn). rewrite Hpl in He.
      apply list_lookup_singleton_Some in He as [_ <-]. done.
    + intros j _ a b. simpl. by rewrite lookup_nil.
    + split; [done|]. split; [done|].
      intros e. simpl. rewrite Hpl. rewrite list_elem_of_singleton.
      split; [by intros ?%elem_of_nil|]. intros [-> Hn]. done.
  - (* the last entry moves to the root and sinks *)
    assert (top' = top) as ->.
    { rewrite Hpl in Htop. simpl in Htop. congruence. }
    set (n := length rest').
    assert (Hlenh : length (heap h) = S (S n)).
    { rewrite Hpl. simpl. rewrite length_app. simpl. lia. }
    assert (Hlst : heap h !! S n = Some lst).
    { rewrite Hpl. change (top :: rest') with ([top] ++ rest').
      rewrite <- app_assoc. rewrite lookup_app_r; simpl; [|lia].
      rewrite lookup_app_r; [|lia]. by rewrite Nat.sub_0_r, Nat.sub_diag. }
    assert (Hpop : ∀ i, (i < S n)%nat → (top :: rest') !! i = heap h !! i).
    { intros i Hi. rewrite Hpl. rewrite lookup_app_l; [done|]. simpl. lia. }
    assert (Hnl : node lst ≠ node top).
    { intros Hn. assert (S n = 0%nat); [|lia]. eapply (idx_ok_inj h); eauto. }
    set (h0 := {| heap := <[0%nat := lst]> (top :: rest');
                  keyToIndex := <[node lst := 0%nat]> (delete (node top) (keyToIndex h)) |}).
    assert (HL : ∀ i, heap h0 !! i =
       if decide (i = 0%nat) then Some lst
       else if decide (i < S n)%nat then heap h !! i else None).
    { intros i. simpl. destruct i as [|i]; [done|]. simpl.
      case_decide as Hi.
      - rewrite <- (Hpop (S i)) by done. done.
      - apply lookup_ge_None_2. unfold n in Hi. lia. }
    assert (Hlen0 : length (heap h0) = S n) by done.
    assert (Hok0 : idx_ok h0).
    { split.
      - intros i e. rewrite HL. simpl. case_decide as Hi0.
        + intros [= <-]. subst i. by rewrite lookup_insert_eq.
        + case_decide as Hi; [|done]. intros He.
          assert (node e ≠ node lst).
          { intros Hn. assert (i = S n); [|lia]. eapply (idx_ok_inj h); eauto. }
          assert (node e ≠ node top).
          { intros Hn. apply Hi0. eapply (idx_ok_inj h); eauto. }
          rewrite lookup_insert_ne by done. rewrite lookup_delete_ne by done.
          by apply H1.
      - intros k i. simpl. destruct (decide (k = node lst)) as [->|Hkl].
        + rewrite lookup_insert_eq. intros [= <-]. exists lst. by rewrite HL.
        + rewrite lookup_insert_ne by done. intros Hk.
          apply lookup_delete_Some in Hk as [Hkt Hk].
          destruct (H2 _ _ Hk) as (e & He & Hn). exists e. split; [|done].
          rewrite HL.
          assert (i ≠ 0%nat) by (intros ->; by simplify_eq).
          assert (i ≠ S n) by (intros ->; by simplify_eq).
          apply lookup_lt_Some in He as Hlt.
          rewrite decide_False by done. rewrite decide_True by lia. done. }
    assert (Hdown : down_inv (heap h0) 0).
    { split; [|intros; lia].
      intros j Hj Hpj a b. rewrite !HL.
      pose proof (parent_lt j Hj).
      rewrite (decide_False (P := parent j = 0%nat)) by done.
      rewrite (decide_False (P := j = 0%nat)) by lia.
      case_decide; [|done]. case_decide; [|done].
      intros Ha Hb. eapply (Hord j); eauto. }
    destruct (bubbleDown_loop_frame (length (heap h0)) 0 h0) as [Hok' [_ Hse]];
      [lia|done|].
    eexists. split; [reflexivity|].
    split; [split; [done|]|].
    + apply bubbleDown_loop_ordered; [lia|lia|done].
    + split; [done|]. split; [done|].
      intros e. unfold _bubbleDown. rewrite Hse. rewrite !list_elem_of_lookup. split.
      * intros [i Hi]. rewrite HL in Hi. case_decide as Hi0.
        -- simplify_eq. split; [eauto|done].
        -- case_decide as Hin; [|done]. split; [eauto|].
           intros Hn. apply Hi0. eapply (idx_ok_inj h); eauto.
      * intros [[i Hi] Hn].
        destruct (decide (i = S n)) as [->|HiS].
        -- exists 0%nat. rewrite HL. simpl. congruence.
        -- exists i. rewrite HL.
           assert (i ≠ 0%nat) by (intros ->; by simplify_eq).
           apply lookup_lt_Some in Hi as Hlt.
           rewrite decide_False by done. rewrite decide_True by lia. done.
Qed.

Lemma isEmpty_spec h : isEmpty h = true ↔ heap h = [].
Proof.
  unfold isEmpty. rewrite Nat.eqb_eq. by destruct (heap h).
Qed.

End HeapProofs.

(** ** Tile paths and the Manhattan heuristic *)

Lemma adjacent_sym a b : adjacent a b → adjacent b a.
Proof. unfold adjacent. lia. Qed.

Lemma heuristic_step a b goal :
  adjacent a b → heuristic a goal ≤ 1 + heuristic b goal.
Proof. unfold adjacent, heuristic. lia. Qed.

Lemma chain_cons_inv a p : chain (a :: p) → chain p.
Proof. destruct p; simpl; tauto. Qed.

Lemma chain_app_inv p q : chain (p ++ q) → chain p ∧ chain q.
Proof.
  induction p as [|a p IH]; simpl; [done|].
  destruct p as [|b p].
  - simpl. intros H. split; [done|]. by apply chain_cons_inv in H.
  - simpl in *. intros [Hab H]. destruct (IH H) as [H1 H2]. done.
Qed.

Lemma chain_app_adj p x y q : chain (p ++ x :: y :: q) → adjacent x y.
Proof.
  intros H. apply chain_app_inv in H as [_ H]. simpl in H. tauto.
Qed.

Lemma chain_snoc p x y : chain p → last p = Some x → adjacent x y → chain (p ++ [y]).
Proof.
  induction p as [|a p IH]; [done|].
  destruct p as [|b p].
  - simpl. intros _ [= ->] H. done.
  - intros [Hab H] Hl Hxy. rewrite last_cons_cons in Hl.
    change ((a :: b :: p) ++ [y]) with (a :: (b :: p) ++ [y]).
    split; [done|]. by apply IH.
Qed.

(** The heuristic is consistent along any chain of steps. *)
Lemma heuristic_chain goal q : ∀ y v,
  chain (y :: q) → last (y :: q) = Some v →
  heuristic y goal ≤ Z.of_nat (length q) + heuristic v goal.
Proof.
  induction q as [|z q IH]; intros y v Hc Hl.
  - simpl in Hl. simplify_eq. simpl. lia.
  - destruct Hc as [Hyz Hc]. rewrite last_cons_cons in Hl.
    specialize (IH z v Hc Hl). pose proof (heuristic_step y z goal Hyz).
    simpl length. lia.
Qed.

(** The first tile of a path that is outside [C], given that its end is. *)
Lemma frontier (C : gset Tile) q v :
  last q = Some v → v ∉ C →
  ∃ q1 y q2, q = q1 ++ y :: q2 ∧ (y ∉ C) ∧ ∀ x, last q1 = Some x → x ∈ C.
Proof.
  induction q as [|a q IH]; [done|]. intros Hl Hv.
  destruct (decide (a ∈ C)) as [Ha|Ha].
  - destruct q as [|b q]; [simpl in Hl; by simplify_eq|].
    rewrite last_cons_cons in Hl.
    destruct (IH Hl Hv) as (q1 & y & q2 & -> & Hy & Hq1).
    exists (a :: q1), y, q2. split; [done|]. split; [done|].
    intros x. destruct q1 as [|c q1]; simpl.
    + by intros [= <-].
    + intros Hx. apply Hq1. done.
  - exists [], a, q. split; [done|]. split; [done|]. by intros x [=].
Qed.

Lemma adjacent_neighborTiles u n : adjacent u n ↔ n ∈ neighborTiles u.
Proof.
  destruct u as [ux uy], n as [nx ny]. unfold adjacent, neighborTiles, neighbors.
  simpl. rewrite !elem_of_cons, elem_of_nil. split.
  - intros H.
    assert ((nx = ux + 0 ∧ ny = uy + -1) ∨ (nx = ux + 0 ∧ ny = uy + 1) ∨
            (nx = ux + -1 ∧ ny = uy + 0) ∨ (nx = ux + 1 ∧ ny = uy + 0)) as Hc by lia.
    destruct Hc as [[-> ->]|[[-> ->]|[[-> ->]|[-> ->]]]]; tauto.
  - intros [H|[H|[H|[H|[]]]]]; simplify_eq; lia.
Qed.

Section SearchProofs.
Variable md : MapData.
Variables s goal : Tile.

Import MinHeapOps.

Lemma tile_path_prefix q1 x y q2 v :
  tile_path md s v (q1 ++ y :: q2) → last q1 = Some x →
  tile_path md s x q1 ∧ adjacent x y.
Proof.
  intros (Hh & Hl & Hw & Hc) Hx.
  apply last_Some in Hx as [q0 ->].
  rewrite <- app_assoc in Hh, Hl, Hw, Hc. simpl in *.
  split; [|by eapply chain_app_adj].
  split; [|split; [|split]].
  - destruct q0; simpl in *; done.
  - by rewrite last_snoc.
  - apply Forall_app in Hw as [Hw1 Hw2]. apply Forall_app. split; [done|].
    apply Forall_cons in Hw2 as [? _]. by apply Forall_singleton.
  - change (x :: y :: q2) with ([x] ++ y :: q2) in Hc. rewrite app_assoc in Hc.
    by apply chain_app_inv in Hc as [Hc _].
Qed.

Lemma tile_path_suffix q1 y q2 v :
  tile_path md s v (q1 ++ y :: q2) →
  chain (y :: q2) ∧ last (y :: q2) = Some v ∧ walkable md y.
Proof.
  intros (Hh & Hl & Hw & Hc). split; [|split].
  - by apply chain_app_inv in Hc as [_ Hc].
  - by rewrite last_app_cons in Hl.
  - apply Forall_app in Hw as [_ Hw]. by apply Forall_cons in Hw as [? _].
Qed.

Lemma tile_path_snoc p v w :
  tile_path md s v p → adjacent v w → walkable md w → tile_path md s w (p ++ [w]).
Proof.
  intros (Hh & Hl & Hw & Hc) Hadj Hww. split; [|split; [|split]].
  - destruct p; simpl in *; done.
  - by rewrite last_snoc.
  - apply Forall_app. split; [done|]. by apply Forall_singleton.
  - by eapply chain_snoc.
Qed.

Lemma tile_path_head q1 y q2 v :
  tile_path md s v (q1 ++ y :: q2) → q1 = [] → y = s.
Proof. intros (Hh & _) ->. simpl in Hh. by simplify_eq. Qed.

(** *** The node taken from the heap has its final score *)

Lemma extracted_is_optimal st u0 pu gu u q :
  search_inv md s goal u0 [] st →
  {| node := u; priority := pu |} ∈ heap (openSet st) →
  (∀ e, e ∈ heap (openSet st) → pu ≤ priority e) →
  gScore st !! u = Some gu →
  tile_path md s u q → gu + 1 ≤ Z.of_nat (length q).
Proof.
  intros Inv Hin Hmin Hgu Hq.
  pose proof (proj1 (inv_open _ _ _ _ _ _ Inv u pu) Hin) as (HuC & g' & Hg' & Hpu).
  assert (g' = gu) as -> by congruence.
  destruct Hq as (Hh & Hl & Hw & Hc).
  destruct (frontier (closedSet st) q u Hl HuC) as (q1 & y & q2 & -> & HyC & Hq1).
  assert (Hpath : tile_path md s u (q1 ++ y :: q2)) by done.
  destruct (tile_path_suffix _ _ _ _ Hpath) as (Hc2 & Hl2 & Hwy).
  pose proof (heuristic_chain goal q2 y u Hc2 Hl2) as Hh2.
  rewrite length_app. simpl length.
  destruct (last q1) as [x|] eqn:Hx.
  - destruct (tile_path_prefix _ _ _ _ _ Hpath Hx) as [Hp1 Hadj].
    pose proof (Hq1 x eq_refl) as HxC.
    destruct (inv_closed _ _ _ _ _ _ Inv x HxC) as (gx & Hgx & Hbx).
    specialize (Hbx q1 Hp1).
    destruct (inv_edge _ _ _ _ _ _ Inv x y gx HxC Hgx Hadj Hwy HyC)
      as [[_ []%elem_of_nil]|(gy & Hgy & Hle)].
    assert (Hyin : {| node := y; priority := gy + heuristic y goal |}
                     ∈ heap (openSet st)).
    { apply (inv_open _ _ _ _ _ _ Inv). split; [done|]. eauto. }
    specialize (Hmin _ Hyin). simpl in Hmin. lia.
  - apply last_None in Hx. subst q1.
    pose proof (tile_path_head _ _ _ _ Hpath eq_refl) as ->.
    destruct (inv_start _ _ _ _ _ _ Inv) as [Hs0 _].
    assert (Hsin : {| node := s; priority := 0 + heuristic s goal |}
                     ∈ heap (openSet st)).
    { apply (inv_open _ _ _ _ _ _ Inv). split; [done|]. eauto. }
    specialize (Hmin _ Hsin). simpl in Hmin. simpl length. lia.
Qed.

(** Some node is open as long as the goal is reachable and not closed. *)
Lemma open_nonempty st u0 :
  search_inv md s goal u0 [] st → connected md s goal →
  heap (openSet st) ≠ [].
Proof.
  intros Inv [q Hq] Hnil.
  destruct Hq as (Hh & Hl & Hw & Hc).
  destruct (frontier (closedSet st) q goal Hl (inv_goal _ _ _ _ _ _ Inv))
    as (q1 & y & q2 & -> & HyC & Hq1).
  assert (Hpath : tile_path md s goal (q1 ++ y :: q2)) by done.
  destruct (tile_path_suffix _ _ _ _ Hpath) as (Hc2 & Hl2 & Hwy).
  assert (∃ gy, gScore st !! y = Some gy) as [gy Hgy].
  { destruct (last q1) as [x|] eqn:Hx.
    - destruct (tile_path_prefix _ _ _ _ _ Hpath Hx) as [Hp1 Hadj].
      pose proof (Hq1 x eq_refl) as HxC.
      destruct (inv_closed _ _ _ _ _ _ Inv x HxC) as (gx & Hgx & Hbx).
      destruct (inv_edge _ _ _ _ _ _ Inv x y gx HxC Hgx Hadj Hwy HyC)
        as [[_ []%elem_of_nil]|(gy & Hgy & Hle)]. eauto.
    - apply last_None in Hx. subst q1.
      pose proof (tile_path_head _ _ _ _ Hpath eq_refl) as ->.
      destruct (inv_start _ _ _ _ _ _ Inv) as [Hs0 _]. eauto. }
  assert (Hyin : {| node := y; priority := gy + heuristic y goal |}
                   ∈ heap (openSet st)).
  { apply (inv_open _ _ _ _ _ _ Inv). split; [done|]. eauto. }
  rewrite Hnil in Hyin. by apply elem_of_nil in Hyin.
Qed.

(** *** Closing the extracted node *)

Lemma close_step st u0 u pu open' :
  search_inv md s goal u0 [] st →
  heap_inv open' →
  {| node := u; priority := pu |} ∈ heap (openSet st) →
  (∀ e, e ∈ heap (openSet st) → pu ≤ priority e) →
  (∀ e, e ∈ heap open' ↔ e ∈ heap (openSet st) ∧ node e ≠ u) →
  u ≠ goal →
  search_inv md s goal u (neighborTiles u)
    {| openSet := open'; closedSet := {[ u ]} ∪ closedSet st;
       cameFrom := cameFrom st; gScore := gScore st; fScore := fScore st |}.
Proof.
  intros Inv Hinv' Hin Hmin Hmem Hug.
  pose proof (proj1 (inv_open _ _ _ _ _ _ Inv u pu) Hin) as (HuC & gu & Hgu & Hpu).
  constructor; simpl.
  - done.
  - intros k p. rewrite Hmem. simpl. rewrite (inv_open _ _ _ _ _ _ Inv).
    rewrite not_elem_of_union, not_elem_of_singleton. tauto.
  - intros v [->%elem_of_singleton|HvC]%elem_of_union.
    + exists gu. split; [done|]. intros q Hq.
      eapply extracted_is_optimal; eauto.
    + by apply (inv_closed _ _ _ _ _ _ Inv).
  - intros v n gv [->%elem_of_singleton|HvC]%elem_of_union Hgv Hadj Hw
      [Hnu HnC]%not_elem_of_union.
    + left. split; [done|]. by apply adjacent_neighborTiles.
    + destruct (inv_edge _ _ _ _ _ _ Inv v n gv HvC Hgv Hadj Hw HnC)
        as [[_ []%elem_of_nil]|?]. by right.
  - apply (inv_start _ _ _ _ _ _ Inv).
  - intros v g Hg Hvs.
    destruct (inv_came _ _ _ _ _ _ Inv v g Hg Hvs) as (w & gw & ? & ? & ?).
    exists w, gw. split; [done|]. split; [|done]. apply elem_of_union. by right.
  - apply (inv_walk _ _ _ _ _ _ Inv).
  - intros v Hv. destruct (inv_src _ _ _ _ _ _ Inv v Hv); [by left|right].
    apply elem_of_union. by right.
  - pose proof (inv_goal _ _ _ _ _ _ Inv).
    rewrite not_elem_of_union, not_elem_of_singleton. done.
Qed.

(** *** Relaxing one neighbour *)

Lemma relax_closedSet st u d : closedSet (relax md goal u st d) = closedSet st.
Proof. unfold relax. repeat case_match; done. Qed.

Lemma relax_inv st u d rest :
  u ∈ closedSet st → adjacent u (u.1 + d.1, u.2 + d.2) →
  search_inv md s goal u ((u.1 + d.1, u.2 + d.2) :: rest) st →
  search_inv md s goal u rest (relax md goal u st d).
Proof.
  intros HuC Hadj Inv. unfold relax, tileKey.
  set (n := (u.1 + d.1, u.2 + d.2)) in *.
  change (isTileWalkable md (u.1 + d.1) (u.2 + d.2)) with (isTileWalkable md n.1 n.2).
  destruct (inv_closed _ _ _ _ _ _ Inv u HuC) as (gu & Hgu & _).
  assert (HsC : s ∈ closedSet st).
  { destruct (inv_src _ _ _ _ _ _ Inv u) as [->|?]; [by eexists|done..]. }
  (* the edge invariant once [n] has a score within one step of [u] *)
  assert (Hskip : (n ∈ closedSet st ∨ ¬ walkable md n ∨
                   ∃ gn, gScore st !! n = Some gn ∧ gn ≤ gu + 1) →
                  search_inv md s goal u rest st).
  { intros Hcase. destruct Inv as [I1 I2 I3 I4 I5 I6 I7 I8 I9]. constructor; try done.
    intros v n' gv Hv Hgv Hvn Hw HnC.
    destruct (I4 v n' gv Hv Hgv Hvn Hw HnC) as [[-> Hin]|?]; [|by right].
    apply elem_of_cons in Hin as [->|Hin]; [|by left].
    destruct Hcase as [?|[?|?]]; [done|done|].
    right. by simplify_eq. }
  destruct (bool_decide (n ∈ closedSet st) || negb (isTileWalkable md n.1 n.2)) eqn:Hskip1.
  { apply Hskip. apply orb_true_iff in Hskip1 as [H%bool_decide_eq_true|H%negb_true_iff].
    - by left.
    - right; left. unfold walkable. congruence. }
  apply orb_false_iff in Hskip1 as [HnC%bool_decide_eq_false Hw%negb_false_iff].
  rewrite Hgu. simpl default.
  destruct (match gScore st !! n with Some g => gu + 1 <? g | None => true end)
    eqn:Hbetter; cycle 1.
  { apply Hskip. right; right. destruct (gScore st !! n) as [gn|]; [|done].
    apply Z.ltb_ge in Hbetter. eauto. }
  assert (Hbetter' : ∀ gn, gScore st !! n = Some gn → gu + 1 < gn).
  { intros gn Hgn. rewrite Hgn in Hbetter. by apply Z.ltb_lt. }
  assert (Hns : n ≠ s) by (intros ->; done).
  assert (Hnu : n ≠ u) by (intros Heq; rewrite Heq in HnC; done).
  set (f := gu + 1 + heuristic n goal).
  set (open2 := if negb (has (openSet st) n) then insert n f (openSet st)
                else decreaseKey n f (openSet st)).
  assert (Hopen2 : heap_inv open2 ∧ ∀ e, e ∈ heap open2 ↔
            e = {| node := n; priority := f |} ∨ (e ∈ heap (openSet st) ∧ node e ≠ n)).
  { pose proof (inv_heap _ _ _ _ _ _ Inv) as Hh. pose proof Hh as [Hok _].
    subst open2. destruct (has (openSet st) n) eqn:Hhas; simpl.
    - apply has_spec in Hhas as [p0 Hp0]; [|done].
      apply decreaseKey_spec with (p0 := p0); [done..|].
      apply (inv_open _ _ _ _ _ _ Inv) in Hp0 as (_ & gn & Hgn & ->).
      specialize (Hbetter' _ Hgn). unfold f. lia.
    - destruct (insert_spec (openSet st) n f Hh Hhas) as [Hi Hm].
      split; [done|]. intros e. rewrite Hm. split; [|tauto].
      intros [->|He]; [by left|]. right. split; [done|].
      intros Hn. assert (has (openSet st) n = true); [|congruence].
      apply has_spec; [done|]. exists (priority e). destruct e; simpl in *. by subst. }
  destruct Hopen2 as [Hinv2 Hmem2].
  constructor; simpl.
  - done.
  - intros k p. rewrite Hmem2. simpl. split.
    + intros [[= -> ->]|[Hin Hkn]].
      * split; [done|]. exists (gu + 1). by rewrite lookup_insert_eq.
      * apply (inv_open _ _ _ _ _ _ Inv) in Hin as (HkC & g & Hg & ->).
        split; [done|]. exists g. by rewrite lookup_insert_ne.
    + intros (HkC & g & Hg & ->). destruct (decide (k = n)) as [->|Hkn].
      * rewrite lookup_insert_eq in Hg. simplify_eq. by left.
      * rewrite lookup_insert_ne in Hg by done. right. split; [|done].
        apply (inv_open _ _ _ _ _ _ Inv). eauto.
  - intros v HvC. rewrite lookup_insert_ne by (intros ->; done).
    by apply (inv_closed _ _ _ _ _ _ Inv).
  - intros v n' gv HvC Hgv Hvn Hwn HnC'.
    rewrite lookup_insert_ne in Hgv by (intros ->; done).
    destruct (decide (n' = n)) as [->|Hn'].
    + right. exists (gu + 1). rewrite lookup_insert_eq. split; [done|].
      destruct (inv_edge _ _ _ _ _ _ Inv v n gv HvC Hgv Hvn Hwn HnC')
        as [[-> _]|(gn & Hgn & Hle)].
      * simplify_eq. lia.
      * specialize (Hbetter' _ Hgn). lia.
    + rewrite lookup_insert_ne by done.
      destruct (inv_edge _ _ _ _ _ _ Inv v n' gv HvC Hgv Hvn Hwn HnC')
        as [[-> Hin]|?]; [|by right].
      apply elem_of_cons in Hin as [->|Hin]; [done|by left].
  - rewrite !lookup_insert_ne by done. apply (inv_start _ _ _ _ _ _ Inv).
  - intros v g Hg Hvs. destruct (decide (v = n)) as [->|Hvn].
    + rewrite lookup_insert_eq in Hg. simplify_eq.
      exists u, gu. rewrite lookup_insert_eq. rewrite lookup_insert_ne by done.
      done.
    + rewrite lookup_insert_ne in Hg by done. rewrite lookup_insert_ne by done.
      destruct (inv_came _ _ _ _ _ _ Inv v g Hg Hvs) as (w & gw & ? & HwC & ?).
      exists w, gw. rewrite lookup_insert_ne by (intros ->; done). done.
  - intros v g. destruct (decide (v = n)) as [->|Hvn].
    + rewrite lookup_insert_eq. intros [= <-]. split; [done|].
      destruct (inv_walk _ _ _ _ _ _ Inv u gu Hgu). lia.
    + rewrite lookup_insert_ne by done. apply (inv_walk _ _ _ _ _ _ Inv).
  - intros v _. by right.
  - apply (inv_goal _ _ _ _ _ _ Inv).
Qed.

Lemma relax_all ds : ∀ st u,
  u ∈ closedSet st →
  (∀ d, d ∈ ds → adjacent u (u.1 + d.1, u.2 + d.2)) →
  search_inv md s goal u (map (fun d : Z * Z => (u.1 + d.1, u.2 + d.2)) ds) st →
  search_inv md s goal u [] (foldl (relax md goal u) st ds) ∧
  closedSet (foldl (relax md goal u) st ds) = closedSet st.
Proof.
  induction ds as [|d ds IH]; intros st u HuC Hadj Inv; [done|].
  simpl. destruct (IH (relax md goal u st d) u) as [H1 H2].
  - by rewrite relax_closedSet.
  - intros d' Hd'. apply Hadj. by right.
  - apply relax_inv; [done| |done]. apply Hadj. by left.
  - split; [done|]. by rewrite H2, relax_closedSet.
Qed.

(** *** Reconstructing the path *)

Lemma came_chain_dom st u0 pend :
  search_inv md s goal u0 pend st →
  ∀ n v, gScore st !! v = Some (Z.of_nat n) →
  ∃ D : gset Tile, D ⊆ dom (cameFrom st) ∧ size D = n ∧
    ∀ w, w ∈ D → ∃ gw, gScore st !! w = Some gw ∧ 1 ≤ gw ≤ Z.of_nat n.
Proof.
  intros Inv. induction n as [|n IH]; intros v Hv.
  { exists ∅. split; [apply empty_subseteq|]. split; [apply size_empty|].
    intros w Hw. by apply elem_of_empty in Hw. }
  assert (Hvs : v ≠ s).
  { intros ->. destruct (inv_start _ _ _ _ _ _ Inv) as [Hs0 _]. rewrite Hs0 in Hv.
    simplify_eq; lia. }
  destruct (inv_came _ _ _ _ _ _ Inv v _ Hv Hvs) as (w & gw & Hcf & _ & Hgw & Heq & _).
  assert (gw = Z.of_nat n) as -> by lia.
  destruct (IH w Hgw) as (D & Hsub & Hsize & HD).
  assert (HvD : v ∉ D).
  { intros HvD. destruct (HD v HvD) as (g' & Hg' & Hb). rewrite Hv in Hg'.
    simplify_eq; lia. }
  exists ({[ v ]} ∪ D). split; [|split].
  - apply union_subseteq. split; [|done].
    apply singleton_subseteq_l. apply elem_of_dom. by eexists.
  - rewrite size_union by (apply disjoint_singleton_l; done).
    rewrite size_singleton. lia.
  - intros x [->%elem_of_singleton|HxD]%elem_of_union.
    + exists (Z.of_nat (S n)). split; [done|lia].
    + destruct (HD x HxD) as (g' & Hg' & Hb). exists g'. split; [done|lia].
Qed.

Lemma reconstructPath_loop_ok st u0 pend :
  search_inv md s goal u0 pend st →
  ∀ n fuel v acc, gScore st !! v = Some (Z.of_nat n) → (n < fuel)%nat →
  ∃ p, reconstructPath_loop fuel (cameFrom st) v acc = Some (p ++ acc) ∧
       tile_path md s v p ∧ length p = S n.
Proof.
  intros Inv. induction n as [|n IH]; intros fuel v acc Hv Hfuel;
    (destruct fuel as [|fuel]; [lia|]); simpl; unfold keyToTile.
  - assert (v = s) as ->.
    { destruct (decide (v = s)) as [|Hvs]; [done|].
      destruct (inv_came _ _ _ _ _ _ Inv v _ Hv Hvs) as (w & gw & _ & _ & Hgw & Heq & _).
      destruct (inv_walk _ _ _ _ _ _ Inv w gw Hgw). lia. }
    destruct (inv_start _ _ _ _ _ _ Inv) as [_ ->].
    exists [s]. split; [done|]. split; [|done].
    split; [done|]. split; [done|]. split; [|done].
    apply Forall_singleton. by destruct (inv_walk _ _ _ _ _ _ Inv s _ Hv).
  - assert (Hvs : v ≠ s).
    { intros ->. destruct (inv_start _ _ _ _ _ _ Inv) as [Hs0 _]. rewrite Hs0 in Hv.
      simplify_eq; lia. }
    destruct (inv_came _ _ _ _ _ _ Inv v _ Hv Hvs) as (w & gw & -> & _ & Hgw & Heq & Hadj).
    assert (gw = Z.of_nat n) as -> by lia.
    destruct (IH fuel w (v :: acc) Hgw) as (p & Hp & Hpath & Hlen); [lia|].
    exists (p ++ [v]). rewrite <- app_assoc. split; [done|]. split.
    + apply (tile_path_snoc p w v); [done|done|].
      by destruct (inv_walk _ _ _ _ _ _ Inv v _ Hv).
    + rewrite length_app. simpl. lia.
Qed.

Lemma reconstructPath_ok st u0 pend v g :
  search_inv md s goal u0 pend st → gScore st !! v = Some g →
  ∃ p, reconstructPath (cameFrom st) v = Some p ∧ tile_path md s v p ∧
       Z.of_nat (length p) = g + 1.
Proof.
  intros Inv Hv. destruct (inv_walk _ _ _ _ _ _ Inv v g Hv) as [_ Hg0].
  assert (Hv' : gScore st !! v = Some (Z.of_nat (Z.to_nat g))) by (by rewrite Z2Nat.id).
  destruct (came_chain_dom _ _ _ Inv _ _ Hv') as (D & Hsub & Hsize & _).
  apply subseteq_size in Hsub. rewrite size_dom in Hsub.
  destruct (reconstructPath_loop_ok _ _ _ Inv _ (S (size (cameFrom st))) v [] Hv')
    as (p & Hp & Hpath & Hlen); [lia|].
  rewrite app_nil_r in Hp. exists p. split; [done|]. split; [done|]. lia.
Qed.

(** *** The safety limit is never reached *)

Lemma isTileWalkable_bounds x y :
  isTileWalkable md x y = true → 0 ≤ x < width md ∧ 0 ≤ y < height md.
Proof.
  unfold isTileWalkable.
  destruct (x <? 0) eqn:H1; [done|]. destruct (width md <=? x) eqn:H2; [done|].
  destruct (y <? 0) eqn:H3; [done|]. destruct (height md <=? y) eqn:H4; [done|].
  simpl. intros _. apply Z.ltb_ge in H1, H3. apply Z.leb_gt in H2, H4. lia.
Qed.

Lemma closed_bound (C : gset Tile) :
  (∀ v, v ∈ C → walkable md v) → walkable md goal → goal ∉ C →
  (S (size C) ≤ Z.to_nat (width md * height md))%nat.
Proof.
  intros HC Hg HgC.
  set (all := list_prod (seqZ 0 (width md)) (seqZ 0 (height md))).
  assert (Hall : ∀ v, walkable md v → In v all).
  { intros [x y] Hv. apply isTileWalkable_bounds in Hv. simpl in Hv.
    apply in_prod_iff. rewrite <- !list_elem_of_In, !elem_of_seqZ. lia. }
  assert (Hlen : length all = Z.to_nat (width md * height md)).
  { unfold all. rewrite length_prod, !length_seqZ.
    apply isTileWalkable_bounds in Hg. lia. }
  rewrite <- Hlen.
  change (S (size C)) with (length (goal :: elements C)).
  apply NoDup_incl_length.
  - apply NoDup_ListNoDup. apply NoDup_cons. split; [|apply NoDup_elements].
    by rewrite elem_of_elements.
  - intros v [<-|Hv]; [by apply Hall|].
    apply Hall, HC. by apply elem_of_elements, list_elem_of_In.
Qed.

(** *** The main loop *)

Lemma search_loop_S fuel st :
  search_loop md (S fuel) goal st =
    if isEmpty (openSet st) then None
    else
      match extractMin (openSet st) with
      | (None, _) => None
      | (Some current, open') =>
          if bool_decide (current = goal) then reconstructPath (cameFrom st) current
          else
            search_loop md fuel goal
              (foldl (relax md goal current)
                 {| openSet := open'; closedSet := {[ current ]} ∪ closedSet st;
                    cameFrom := cameFrom st; gScore := gScore st;
                    fScore := fScore st |} neighbors)
      end.
Proof. reflexivity. Qed.

Lemma search_loop_correct fuel : ∀ st u0,
  search_inv md s goal u0 [] st → connected md s goal →
  (maxIterations md ≤ size (closedSet st) + fuel)%nat →
  ∃ p, search_loop md fuel goal st = Some p ∧ shortest_tile_path md s goal p.
Proof.
  induction fuel as [|fuel IH]; intros st u0 Inv Hconn Hfuel.
  { exfalso.
    assert (Hgw : walkable md goal).
    { destruct Hconn as (q & _ & Hl & Hw & _).
      rewrite Forall_forall in Hw. apply Hw.
      apply last_Some in Hl as [q' ->]. apply elem_of_app. right. by left. }
    pose proof (closed_bound (closedSet st)) as Hb.
    unfold maxIterations in Hfuel.
    apply isTileWalkable_bounds in Hgw as Hgb.
    assert (S (size (closedSet st)) ≤ Z.to_nat (width md * height md))%nat; [|lia].
    apply Hb; [|done|apply (inv_goal _ _ _ _ _ _ Inv)].
    intros v Hv. destruct (inv_closed _ _ _ _ _ _ Inv v Hv) as (g & Hg & _).
    by destruct (inv_walk _ _ _ _ _ _ Inv v g Hg). }
  rewrite search_loop_S.
  pose proof (open_nonempty st u0 Inv Hconn) as Hne.
  destruct (isEmpty (openSet st)) eqn:Hemp; [by apply isEmpty_spec in Hemp|].
  destruct (extractMin_spec (openSet st) (inv_heap _ _ _ _ _ _ Inv) Hne)
    as (u & pu & open' & -> & Hinv' & Hin & Hmin & Hmem).
  pose proof (proj1 (inv_open _ _ _ _ _ _ Inv u pu) Hin) as (HuC & gu & Hgu & Hpu).
  case_bool_decide as Hug.
  - subst u. destruct (reconstructPath_ok st u0 [] goal gu Inv Hgu)
      as (p & -> & Hpath & Hlen).
    exists p. split; [done|]. split; [done|]. intros q Hq.
    pose proof (extracted_is_optimal st u0 pu gu goal q Inv Hin Hmin Hgu Hq). lia.
  - pose proof (close_step st u0 u pu open' Inv Hinv' Hin Hmin Hmem Hug) as Inv1.
    set (st1 := {| openSet := open'; closedSet := {[ u ]} ∪ closedSet st;
                   cameFrom := cameFrom st; gScore := gScore st;
                   fScore := fScore st |}) in *.
    destruct (relax_all neighbors st1 u) as [Inv2 Hcl].
    { apply elem_of_union. left. by apply elem_of_singleton. }
    { intros d Hd. apply adjacent_neighborTiles. unfold neighborTiles.
      apply (list_elem_of_fmap_2 (fun d : Z * Z => (u.1 + d.1, u.2 + d.2))). done. }
    { done. }
    apply (IH _ u); [done|done|].
    rewrite Hcl. simpl.
    rewrite size_union by (apply disjoint_singleton_l; done).
    rewrite size_singleton. lia.
Qed.

Lemma initialSearch_inv :
  walkable md s → search_inv md s goal s [] (initialSearch s goal).
Proof.
  intros Hws. unfold initialSearch, tileKey.
  destruct (insert_spec empty (s.1, s.2) (heuristic s goal) heap_inv_empty)
    as [Hinv Hmem]; [done|].
  replace (s.1, s.2) with s in * by (by destruct s).
  constructor; simpl.
  - done.
  - intros k p. rewrite Hmem. simpl. rewrite elem_of_nil. split.
    + intros [[= -> ->]|[]]. split; [apply not_elem_of_empty|].
      exists 0. by rewrite lookup_singleton_eq.
    + intros (_ & g & Hg & ->). apply lookup_singleton_Some in Hg as [<- <-].
      by left.
  - intros v Hv. by apply elem_of_empty in Hv.
  - intros v n gv Hv. by apply elem_of_empty in Hv.
  - split; [apply lookup_singleton_eq|apply lookup_empty].
  - intros v g Hg Hvs. apply lookup_singleton_Some in Hg as [<- _]. done.
  - intros v g Hg. apply lookup_singleton_Some in Hg as [<- <-]. done.
  - intros v [g Hg]. apply lookup_singleton_Some in Hg as [<- _]. by left.
  - apply not_elem_of_empty.
Qed.

End SearchProofs.

Lemma adjust_walkable md t t' : adjust md t = Some t' → walkable md t'.
Proof.
  unfold adjust, findNearestWalkable, findNearestWalkable_r, walkable.
  destruct (isTileWalkable md t.1 t.2) eqn:Hw.
  - by intros [= <-].
  - intros H. by apply find_some in H as [_ H].
Qed.

Lemma findTilePath_shortest_path md start goal s g :
  adjust md start = Some s → adjust md goal = Some g → connected md s g →
  ∃ p, findTilePath md start goal = Some p ∧ shortest_tile_path md s g p.
Proof.
  intros Hs Hg Hconn. unfold findTilePath. rewrite Hg, Hs.
  pose proof (adjust_walkable _ _ _ Hs) as Hws.
  pose proof (adjust_walkable _ _ _ Hg) as Hwg.
  case_bool_decide as Hsg.
  - subst g. exists [s]. split; [done|]. split.
    + split; [done|]. split; [done|]. split; [by apply Forall_singleton|done].
    + intros q (Hh & _). destruct q; [done|]. simpl. lia.
  - apply (search_loop_correct md s g _ _ s).
    + by apply initialSearch_inv.
    + done.
    + unfold initialSearch. cbn [closedSet]. rewrite size_empty. lia.
Qed.

(** ** Coordinate conversion *)

Lemma Qfloor_unique (q : Q) (z : Z) :
  (inject_Z z <= q)%Q → (q < inject_Z (z + 1))%Q → Qfloor q = z.
Proof.
  intros Hle Hlt.
  pose proof (Qfloor_le q) as H1. pose proof (Qlt_floor q) as H2.
  assert (Qfloor q < z + 1).
  { rewrite Zlt_Qlt. eapply Qle_lt_trans; eauto. }
  assert (z < Qfloor q + 1).
  { rewrite Zlt_Qlt. eapply Qle_lt_trans; eauto. }
  lia.
Qed.

Lemma Qfloor_center (t w : Z) :
  0 < w → Qfloor ((inject_Z t * inject_Z w + inject_Z w / 2) / inject_Z w) = t.
Proof.
  intros Hw.
  assert (Hw' : ¬ (inject_Z w == 0)%Q).
  { intros H. apply (Qlt_irrefl 0). rewrite <- H at 2.
    change 0%Q with (inject_Z 0). by rewrite <- Zlt_Qlt. }
  assert (Heq : ((inject_Z t * inject_Z w + inject_Z w / 2) / inject_Z w
                 == inject_Z t + (1 # 2))%Q) by (by field).
  rewrite Heq. apply Qfloor_unique.
  - lra.
  - rewrite inject_Z_plus. change (inject_Z 1) with 1%Q. lra.
Qed.

Lemma pixelToTile_tileToPixel md (t : Tile) :
  0 < tileWidth md → 0 < tileHeight md →
  pixelToTile md (Point.x (tileToPixel md t.1 t.2)) (Point.y (tileToPixel md t.1 t.2)) = t.
Proof.
  intros Hw Hh. unfold pixelToTile, tileToPixel. cbn [Point.x Point.y].
  rewrite !Qfloor_center by done. by destruct t.
Qed.

(** ** Bresenham's line always reaches its end tile *)

Lemma getLineTiles_loop_total fuel : ∀ x1 y1 dx dy sx sy err x y rx ry,
  0 ≤ rx ≤ dx → 0 ≤ ry ≤ dy →
  (sx = 1 ∨ sx = -1) → (sy = 1 ∨ sy = -1) →
  x1 = x + sx * rx → y1 = y + sy * ry →
  err = dx - dy - dx * ry + dy * rx →
  (Z.to_nat (rx + ry) < fuel)%nat →
  ∃ tiles, getLineTiles_loop fuel x1 y1 dx dy sx sy err x y = Some tiles ∧
           head tiles = Some (x, y) ∧ last tiles = Some (x1, y1).
Proof.
  induction fuel as [|fuel IH]; intros x1 y1 dx dy sx sy err x y rx ry
    Hrx Hry Hsx Hsy Hx Hy Herr Hfuel; [lia|].
  simpl.
  destruct ((x =? x1) && (y =? y1)) eqn:Hend.
  { apply andb_true_iff in Hend as [->%Z.eqb_eq ->%Z.eqb_eq]. by eexists. }
  assert (Hnz : 0 < rx ∨ 0 < ry).
  { apply andb_false_iff in Hend as [H%Z.eqb_neq|H%Z.eqb_neq]; [left|right]; nia. }
  destruct (- dy <? 2 * err) eqn:Hxs; destruct (2 * err <? dx) eqn:Hys;
    rewrite ?Z.ltb_lt, ?Z.ltb_ge in Hxs, Hys.
  - (* both steps *)
    assert (0 < rx) by nia. assert (0 < ry) by nia.
    destruct (IH x1 y1 dx dy sx sy (err - dy + dx) (x + sx) (y + sy) (rx - 1) (ry - 1))
      as (tiles & -> & Hh & Hl); try lia; try nia.
    eexists. split; [done|]. split; [done|].
    destruct tiles; [done|]. by rewrite last_cons_cons.
  - (* x only *)
    assert (0 < rx) by nia.
    destruct (IH x1 y1 dx dy sx sy (err - dy) (x + sx) y (rx - 1) ry)
      as (tiles & -> & Hh & Hl); try lia; try nia.
    eexists. split; [done|]. split; [done|].
    destruct tiles; [done|]. by rewrite last_cons_cons.
  - (* y only *)
    assert (0 < ry) by nia.
    destruct (IH x1 y1 dx dy sx sy (err + dx) x (y + sy) rx (ry - 1))
      as (tiles & -> & Hh & Hl); try lia; try nia.
    eexists. split; [done|]. split; [done|].
    destruct tiles; [done|]. by rewrite last_cons_cons.
  - (* no step: impossible before the end tile *)
    exfalso. nia.
Qed.

Lemma getLineTiles_total x0 y0 x1 y1 :
  ∃ tiles, getLineTiles x0 y0 x1 y1 = Some tiles ∧
           head tiles = Some (x0, y0) ∧ last tiles = Some (x1, y1).
Proof.
  unfold getLineTiles.
  apply (getLineTiles_loop_total _ _ _ _ _ _ _ _ _ _
           (Z.abs (x1 - x0)) (Z.abs (y1 - y0))).
  - lia.
  - lia.
  - destruct (x0 <? x1); auto.
  - destruct (y0 <? y1); auto.
  - destruct (x0 <? x1) eqn:H; rewrite ?Z.ltb_lt, ?Z.ltb_ge in H; lia.
  - destruct (y0 <? y1) eqn:H; rewrite ?Z.ltb_lt, ?Z.ltb_ge in H; lia.
  - lia.
  - lia.
Qed.

(** Between 4-adjacent tiles the line is the two tiles themselves. *)
Lemma getLineTiles_adjacent (a b : Tile) :
  adjacent a b → getLineTiles a.1 a.2 b.1 b.2 = Some [a; b].
Proof.
  destruct a as [ax ay], b as [bx by']. unfold adjacent. simpl. intros H.
  assert ((bx = ax ∧ by' = ay - 1) ∨ (bx = ax ∧ by' = ay + 1) ∨
          (bx = ax - 1 ∧ by' = ay) ∨ (bx = ax + 1 ∧ by' = ay)) as Hc by lia.
  unfold getLineTiles.
  destruct Hc as [[-> ->]|[[-> ->]|[[-> ->]|[-> ->]]]].
  - replace (ax - ax) with 0 by lia. replace (ay - 1 - ay) with (-1) by lia.
    rewrite Z.ltb_irrefl. rewrite (proj2 (Z.ltb_ge ay (ay - 1))) by lia.
    simpl. rewrite Z.eqb_refl. rewrite (proj2 (Z.eqb_neq ay (ay - 1))) by lia.
    simpl. rewrite !Z.eqb_refl. done.
  - replace (ax - ax) with 0 by lia. replace (ay + 1 - ay) with 1 by lia.
    rewrite Z.ltb_irrefl. rewrite (proj2 (Z.ltb_lt ay (ay + 1))) by lia.
    simpl. rewrite Z.eqb_refl. rewrite (proj2 (Z.eqb_neq ay (ay + 1))) by lia.
    simpl. rewrite !Z.eqb_refl. done.
  - replace (ay - ay) with 0 by lia. replace (ax - 1 - ax) with (-1) by lia.
    rewrite Z.ltb_irrefl. rewrite (proj2 (Z.ltb_ge ax (ax - 1))) by lia.
    simpl. rewrite (proj2 (Z.eqb_neq ax (ax - 1))) by lia.
    simpl. rewrite !Z.eqb_refl. done.
  - replace (ay - ay) with 0 by lia. replace (ax + 1 - ax) with 1 by lia.
    rewrite Z.ltb_irrefl. rewrite (proj2 (Z.ltb_lt ax (ax + 1))) by lia.
    simpl. rewrite (proj2 (Z.eqb_neq ax (ax + 1))) by lia.
    simpl. rewrite !Z.eqb_refl. done.
Qed.

(** ** Smoothing *)

Section SmoothProofs.
Variable md : MapData.

Lemma los_chain_snoc p a b :
  los_chain md p → last p = Some a → hasLineOfSight md a b = true →
  los_chain md (p ++ [b]).
Proof.
  intros Hp Hl Hab i x y Hx Hy.
  assert (Hi : (S i < length p + 1)%nat).
  { apply lookup_lt_Some in Hy. rewrite length_app in Hy. simpl in Hy. lia. }
  rewrite lookup_app_l in Hx by lia.
  destruct (decide (S i < length p)%nat) as [Hlt|Hge].
  - rewrite lookup_app_l in Hy by lia. by eapply Hp.
  - assert (S i = length p) as Heq by lia.
    rewrite lookup_app_r in Hy by lia. rewrite Heq, Nat.sub_diag in Hy.
    simpl in Hy. simplify_eq.
    rewrite last_lookup in Hl. rewrite <- Heq in Hl. simpl in Hl. by simplify_eq.
Qed.

Lemma furthestVisible_fold path current l : ∀ acc,
  (current < acc < length path)%nat →
  (acc = S current ∨
   hasLineOfSight md (path !!! current) (path !!! acc) = true) →
  Forall (fun i => (current < i < length path)%nat) l →
  let f := foldl (fun furthest i =>
                    if hasLineOfSight md (path !!! current) (path !!! i)
                    then i else furthest) acc l in
  (current < f < length path)%nat ∧
  (f = S current ∨ hasLineOfSight md (path !!! current) (path !!! f) = true).
Proof.
  induction l as [|i l IH]; intros acc Hacc Hlos Hl; simpl; [done|].
  apply Forall_cons in Hl as [Hi Hl].
  destruct (hasLineOfSight md (path !!! current) (path !!! i)) eqn:Hlosi.
  - apply IH; [done|by right|done].
  - by apply IH.
Qed.

Lemma furthestVisible_spec path current :
  (S current < length path)%nat →
  let f := furthestVisible md path current in
  (current < f < length path)%nat ∧
  (f = S current ∨ hasLineOfSight md (path !!! current) (path !!! f) = true).
Proof.
  intros Hlen. unfold furthestVisible.
  apply furthestVisible_fold.
  - lia.
  - left. lia.
  - apply Forall_forall. intros i Hi%elem_of_seq. lia.
Qed.

Lemma smoothPath_loop_spec path :
  los_chain md path →
  ∀ fuel current smoothed,
  (current < length path)%nat →
  last smoothed = Some (path !!! current) →
  (length path ≤ S current + fuel)%nat →
  los_chain md smoothed →
  (length smoothed ≤ S current)%nat →
  let r := smoothPath_loop md fuel path current smoothed in
  last r = last path ∧ los_chain md r ∧ (length r ≤ length path)%nat ∧
  head r = head smoothed.
Proof.
  intros Hin. induction fuel as [|fuel IH];
    intros current smoothed Hcur Hlast Hfuel Hlos Hlen.
  - simpl. assert (current = pred (length path)) as Hc by lia.
    split; [|split; [done|split; [lia|done]]].
    rewrite Hlast, last_lookup, <- Hc.
    symmetry. apply list_lookup_lookup_total_lt. lia.
  - cbn [smoothPath_loop]. cbv zeta.
    destruct (current <? length path - 1)%nat eqn:Hlt.
    + apply Nat.ltb_lt in Hlt.
      destruct (furthestVisible_spec path current) as [Hf Hvis]; [lia|].
      set (f := furthestVisible md path current) in *.
      destruct (IH f (smoothed ++ [path !!! f])) as (H1 & H2 & H3 & H4).
      * lia.
      * by rewrite last_snoc.
      * lia.
      * eapply los_chain_snoc; [done..|].
        destruct Hvis as [->|Hvis]; [|done].
        eapply Hin; apply list_lookup_lookup_total_lt; lia.
      * rewrite length_app. simpl. lia.
      * split; [done|]. split; [done|]. split; [done|].
        rewrite H4. destruct smoothed; [done|done].
    + apply Nat.ltb_ge in Hlt. assert (current = pred (length path)) as Hc by lia.
      split; [|split; [done|split; [lia|done]]].
      rewrite Hlast, last_lookup, <- Hc.
      symmetry. apply list_lookup_lookup_total_lt. lia.
Qed.

Lemma smoothPath_spec path :
  los_chain md path →
  let sm := smoothPath md path in
  head sm = head path ∧ last sm = last path ∧
  (length sm ≤ length path)%nat ∧ los_chain md sm ∧
  ((length path < 3)%nat → sm = path).
Proof.
  intros Hin. unfold smoothPath.
  destruct (length path <? 3)%nat eqn:Hlen.
  { done. }
  apply Nat.ltb_ge in Hlen.
  destruct (smoothPath_loop_spec path Hin (length path) 0 [path !!! 0%nat])
    as (H1 & H2 & H3 & H4).
  - lia.
  - done.
  - lia.
  - intros i a b Ha Hb. by destruct i.
  - simpl. lia.
  - split; [|split; [done|split; [done|split; [done|lia]]]].
    rewrite H4. simpl. destruct path; [simpl in Hlen; lia|done].
Qed.

Lemma chain_lookup tiles : ∀ i (a b : Tile),
  chain tiles → tiles !! i = Some a → tiles !! S i = Some b → adjacent a b.
Proof.
  induction tiles as [|t tiles IH]; intros i a b Hc Ha Hb; [done|].
  destruct tiles as [|t' tiles]; [done|]. destruct Hc as [Htt Hc].
  destruct i as [|i]; simpl in *.
  - by simplify_eq.
  - by eapply IH.
Qed.

Lemma hasLineOfSight_adjacent (a b : Tile) :
  0 < tileWidth md → 0 < tileHeight md →
  walkable md a → walkable md b → adjacent a b →
  hasLineOfSight md (tileToPixel md a.1 a.2) (tileToPixel md b.1 b.2) = true.
Proof.
  intros Hw Hh Ha Hb Hadj. unfold hasLineOfSight.
  rewrite !pixelToTile_tileToPixel by done.
  rewrite getLineTiles_adjacent by done. simpl.
  unfold walkable in Ha, Hb. by rewrite Ha, Hb.
Qed.

Lemma tileCenters_los tiles :
  0 < tileWidth md → 0 < tileHeight md →
  Forall (walkable md) tiles → chain tiles →
  los_chain md (tileCenters md tiles).
Proof.
  intros Hw Hh Hwalk Hc i a b Ha Hb. unfold tileCenters in *.
  rewrite list_lookup_fmap in Ha, Hb.
  destruct (tiles !! i) as [ta|] eqn:Hta; [|done].
  destruct (tiles !! S i) as [tb|] eqn:Htb; [|done].
  simpl in Ha, Hb. simplify_eq.
  rewrite Forall_forall in Hwalk.
  apply hasLineOfSight_adjacent; try done.
  - apply Hwalk. by eapply list_elem_of_lookup_2.
  - apply Hwalk. by eapply list_elem_of_lookup_2.
  - by eapply chain_lookup.
Qed.

End SmoothProofs.

(** ** Workstation occupancy *)

Lemma string_length_app (a b : string) :
  String.length (a +:+ b) = (String.length a + String.length b)%nat.
Proof.
  induction a as [|c a IH]; [done|].
  change (S (String.length (a +:+ b)) = S (String.length a + String.length b)).
  by rewrite IH.
Qed.

Lemma string_app_inv_tail (a b s : string) : a +:+ s = b +:+ s → a = b.
Proof.
  revert b. induction a as [|c a IH]; intros [|d b] H.
  - done.
  - apply (f_equal String.length) in H.
    rewrite !string_length_app in H. simpl in H. lia.
  - apply (f_equal String.length) in H.
    rewrite !string_length_app in H. simpl in H. lia.
  - change (String c (a +:+ s) = String d (b +:+ s)) in H.
    injection H as -> H. f_equal. by apply IH.
Qed.

Lemma wsKey_inj e1 e2 : wsKey e1 = wsKey e2 → e1 = e2.
Proof. unfold wsKey, assignmentKey. apply string_app_inv_tail. Qed.

Lemma truthy_spec s : truthy s = true ↔ s ≠ EmptyString.
Proof. by destruct s. Qed.

Lemma find_id_some (zones : list Zone.t) w :
  w ∈ map Zone.id zones →
  ∃ z, List.find (fun z => bool_decide (Zone.id z = w)) zones = Some z ∧ Zone.id z = w.
Proof.
  induction zones as [|z zones IH]; simpl; [by intros ?%elem_of_nil|].
  intros Hw. case_bool_decide as Hz; [by eauto|].
  apply elem_of_cons in Hw as [->|Hw]; [done|]. by apply IH.
Qed.

Lemma foldr_delete_lookup {A B} (f : A → string) (l : list A) (m : gmap string B) k :
  foldr (fun a m => delete (f a) m) m l !! k =
    if decide (k ∈ map f l) then None else m !! k.
Proof.
  induction l as [|a l IH]; cbn [foldr].
  - destruct (decide (k ∈ map f [])) as [H|H]; [|done]. by apply elem_of_nil in H.
  - destruct (decide (k ∈ map f (a :: l))) as [H|H];
      change (map f (a :: l)) with (f a :: map f l) in H.
    + destruct (decide (f a = k)) as [<-|Hne]; [by rewrite lookup_delete_eq|].
      rewrite lookup_delete_ne by done. rewrite IH.
      apply elem_of_cons in H as [->|H]; [done|]. by rewrite decide_True.
    + apply not_elem_of_cons in H as [Hne H].
      rewrite lookup_delete_ne by done. rewrite IH. by rewrite decide_False.
Qed.

Section TablesProofs.
Variable md : MapData.
Hypothesis ids_truthy : workstation_ids_truthy md.

Lemma tables_consistent_empty : tables_consistent md clearAllAssignments.
Proof.
  constructor; simpl.
  - intros w e. by rewrite !lookup_empty.
  - intros k w. by rewrite lookup_empty.
  - intros w e. by rewrite lookup_empty.
Qed.

(** Under the invariant an entity has an entry exactly when
    [getAssignedZone] finds its workstation. *)
Lemma getAssignedZone_None tb e :
  tables_consistent md tb →
  getAssignedZone md tb e Tworkstations = None →
  entityZoneMap tb !! wsKey e = None.
Proof using ids_truthy.
  intros Hc. unfold getAssignedZone. fold (wsKey e).
  destruct (entityZoneMap tb !! wsKey e) as [w|] eqn:Hw; [|done].
  apply (tc_iff _ _ Hc) in Hw. apply (tc_ids _ _ Hc) in Hw.
  destruct (find_id_some _ _ Hw) as (z & Hz & Hid). simpl. rewrite Hz.
  assert (truthy w = true) as ->; [|done].
  unfold workstation_ids_truthy in ids_truthy. rewrite Forall_forall in ids_truthy.
  rewrite <- Hid. apply ids_truthy.
  apply find_some in Hz as [Hz _]. by apply list_elem_of_In.
Qed.

Lemma assignWorkstation_consistent tb e :
  tables_consistent md tb → tables_consistent md (assignWorkstation md e tb).2.
Proof using ids_truthy.
  intros Hc. unfold assignWorkstation.
  destruct (getAssignedZone md tb e Tworkstations) as [z|] eqn:Hget; [done|].
  apply getAssignedZone_None in Hget; [|done].
  destruct (List.find _ (workstations md)) as [ws|] eqn:Hfind; [|done].
  apply find_some in Hfind as [Hin Hfree].
  apply negb_true_iff, bool_decide_eq_false in Hfree.
  assert (Hza : zoneAssignments tb !! Zone.id ws = None) by (by apply eq_None_not_Some).
  simpl. fold (wsKey e). set (wid := Zone.id ws) in *.
  assert (Hkey : ∀ e', e' ≠ e → wsKey e ≠ wsKey e').
  { intros e' He Hk. apply He. symmetry. by apply wsKey_inj. }
  constructor; simpl.
  - intros w e'. destruct (decide (wid = w)) as [<-|Hw].
    + rewrite lookup_insert_eq. destruct (decide (e' = e)) as [->|He].
      * by rewrite lookup_insert_eq.
      * rewrite (lookup_insert_ne _ (wsKey e)) by auto.
        split; [by intros [= ->]|].
        intros H. apply (tc_iff _ _ Hc) in H. congruence.
    + rewrite (lookup_insert_ne _ wid) by done.
      destruct (decide (e' = e)) as [->|He].
      * rewrite lookup_insert_eq. split; [|by intros [= ->]].
        intros H. apply (tc_iff _ _ Hc) in H. congruence.
      * rewrite (lookup_insert_ne _ (wsKey e)) by auto.
        apply (tc_iff _ _ Hc).
  - intros k w. destruct (decide (wsKey e = k)) as [<-|Hk]; [by eauto|].
    rewrite lookup_insert_ne by done. apply (tc_keys _ _ Hc).
  - intros w e'. destruct (decide (wid = w)) as [<-|Hw].
    + intros _. apply list_elem_of_fmap. exists ws. split; [done|].
      by apply list_elem_of_In.
    + rewrite lookup_insert_ne by done. apply (tc_ids _ _ Hc).
Qed.

Lemma releaseWorkstation_consistent tb e :
  tables_consistent md tb → tables_consistent md (releaseWorkstation e tb).
Proof.
  intros Hc. unfold releaseWorkstation. fold (wsKey e).
  destruct (entityZoneMap tb !! wsKey e) as [w|] eqn:Hw; [|done].
  destruct (truthy w); [|done].
  pose proof (proj2 (tc_iff _ _ Hc w e) Hw) as Hza.
  constructor; simpl.
  - intros w' e'. destruct (decide (w' = w)) as [->|Hw'].
    + rewrite lookup_delete_eq. split; [done|].
      intros H. apply lookup_delete_Some in H as [Hk H].
      apply (tc_iff _ _ Hc) in H. congruence.
    + rewrite lookup_delete_ne by done. destruct (decide (e' = e)) as [->|He].
      * rewrite lookup_delete_eq. split; [|done].
        intros H. apply (tc_iff _ _ Hc) in H. congruence.
      * rewrite lookup_delete_ne by (intros ?%wsKey_inj; done).
        apply (tc_iff _ _ Hc).
  - intros k w' H. apply lookup_delete_Some in H as [_ H]. by apply (tc_keys _ _ Hc) in H.
  - intros w' e' H. apply lookup_delete_Some in H as [_ H]. by apply (tc_ids _ _ Hc) in H.
Qed.

Lemma keysToDelete_spec e tb k w :
  (k, w) ∈ keysToDelete e tb ↔
  entityZoneMap tb !! k = Some w ∧ String.prefix (e +:+ ":") k = true.
Proof.
  unfold keysToDelete. rewrite list_elem_of_filter, elem_of_map_to_list. simpl. tauto.
Qed.

Lemma clearEntityAssignments_consistent tb e :
  tables_consistent md tb → tables_consistent md (clearEntityAssignments e tb).
Proof.
  intros Hc. unfold clearEntityAssignments.
  set (hits := keysToDelete e tb).
  assert (Hza : ∀ w e', foldr (fun kv za => delete kv.2 za) (zoneAssignments tb) hits !! w
                  = Some e' ↔ zoneAssignments tb !! w = Some e' ∧ w ∉ map snd hits).
  { intros w e'. rewrite (foldr_delete_lookup snd). case_decide as Hd.
    - split; [done|]. by intros [_ ?].
    - split; [by intros ?|by intros [? _]]. }
  assert (Hem : ∀ k w, foldr (fun kv m => delete kv.1 m) (entityZoneMap tb) hits !! k
                  = Some w ↔ entityZoneMap tb !! k = Some w ∧ k ∉ map fst hits).
  { intros k w. rewrite (foldr_delete_lookup fst). case_decide as Hd.
    - split; [done|]. by intros [_ ?].
    - split; [by intros ?|by intros [? _]]. }
  constructor; simpl.
  - intros w e'. rewrite Hza, Hem. split.
    + intros [H Hw]. apply (tc_iff _ _ Hc) in H. split; [done|].
      intros [[k w'] [Hk Hin]]%list_elem_of_fmap. simpl in Hk. subst k.
      apply Hw. apply list_elem_of_fmap. exists (wsKey e', w'). split; [|done].
      simpl. apply keysToDelete_spec in Hin as [Hin _]. congruence.
    + intros [H Hk]. split; [by apply (tc_iff _ _ Hc)|].
      intros [[k w'] [Hw' Hin]]%list_elem_of_fmap. simpl in Hw'. subst w'.
      apply Hk. apply list_elem_of_fmap. exists (k, w). split; [|done].
      simpl. apply keysToDelete_spec in Hin as Hin'. destruct Hin' as [Hkw _].
      destruct (tc_keys _ _ Hc _ _ Hkw) as [e'' ->].
      apply (tc_iff _ _ Hc) in Hkw, H. congruence.
  - intros k w. rewrite Hem. intros [H _]. by apply (tc_keys _ _ Hc) in H.
  - intros w e'. rewrite Hza. intros [H _]. by apply (tc_ids _ _ Hc) in H.
Qed.

Lemma runOp_consistent tb op :
  tables_consistent md tb → tables_consistent md (runOp md tb op).
Proof using ids_truthy.
  destruct op; simpl.
  - apply assignWorkstation_consistent.
  - apply releaseWorkstation_consistent.
  - apply clearEntityAssignments_consistent.
Qed.

Lemma runOps_consistent ops : tables_consistent md (runOps md ops).
Proof using ids_truthy.
  unfold runOps. generalize tables_consistent_empty.
  generalize clearAllAssignments. induction ops as [|op ops IH]; intros tb Hc; [done|].
  simpl. apply IH. by apply runOp_consistent.
Qed.

(** With K workstations at most K entities hold one. *)
Lemma holders_bounded tb (es : list string) :
  tables_consistent md tb → NoDup es →
  (∀ e, e ∈ es → holdsWorkstation tb e) →
  (length es ≤ length (workstations md))%nat.
Proof.
  intros Hc Hnd Hes.
  set (wof := fun e => default EmptyString (entityZoneMap tb !! wsKey e)).
  assert (Hwof : ∀ e, e ∈ es → zoneAssignments tb !! wof e = Some e).
  { intros e He. destruct (Hes e He) as [w Hw]. unfold wof. rewrite Hw. simpl.
    by apply (tc_iff _ _ Hc). }
  rewrite <- (length_fmap wof es), <- (length_fmap Zone.id (workstations md)).
  apply NoDup_incl_length.
  - apply NoDup_ListNoDup. apply NoDup_fmap_2_strong; [|done].
    intros e1 e2 H1 H2 Heq. apply Hwof in H1, H2. congruence.
  - intros w Hw. apply list_elem_of_In in Hw.
    apply list_elem_of_fmap in Hw as (e & -> & He).
    apply list_elem_of_In. eapply (tc_ids _ _ Hc). by apply Hwof.
Qed.

End TablesProofs.

(** ** The state queue *)

Lemma collapse_nonempty q : q ≠ [] → collapse q ≠ [].
Proof.
  induction q as [|a q IH]; [done|]. intros _. simpl.
  destruct q as [|b q]; [done|]. case_bool_decide; [|done]. by apply IH.
Qed.

(** [collapse] removes the leading run except for its last entry. *)
Lemma collapse_spec q :
  q ≠ [] →
  ∃ dropped a rest,
    q = dropped ++ a :: rest ∧ collapse q = a :: rest ∧
    Forall (fun b => state b = state a) dropped ∧
    (∀ b, head rest = Some b → state b ≠ state a).
Proof.
  induction q as [|a q IH]; [done|]. intros _.
  destruct q as [|b q].
  { exists [], a, []. by repeat split. }
  cbn [collapse]. case_bool_decide as Hab.
  - destruct IH as (dropped & a' & rest & Hq & Hc & Hall & Hnext); [done|].
    exists (a :: dropped), a', rest. split; [by rewrite Hq|]. split; [done|].
    split; [|done]. apply Forall_cons. split; [|done].
    destruct dropped as [|d dropped]; simpl in Hq; simplify_eq; [done|].
    apply Forall_cons in Hall as [Hd _]. congruence.
  - exists [], a, (b :: q). split; [done|]. split; [done|]. split; [done|].
    intros b' [= <-]. congruence.
Qed.

Section EntityProofs.
Variable md : MapData.

(** [processStateQueue] once the guards let the front entry through. *)
Lemma processStateQueue_pop now e w info rest :
  Entity.isMoving e = false → displayElapsed now e →
  collapse (Entity.stateQueue e) = info :: rest →
  processStateQueue md now e w =
    let e1 := Entity.set_stateQueue rest e in
    if bool_decide (Some (state info) = Entity.visualState e) then (e1, w)
    else resolveAndMove md info e1 (releaseIfLeavingCoding (state info) e1 w).2.
Proof.
  intros Hmov Hdisp Hcol. unfold processStateQueue. rewrite Hmov.
  assert (Hgate : negb (Entity.currentStateStartTime e =? 0)
                  && (now - Entity.currentStateStartTime e <? MIN_STATE_DISPLAY_MS)
                  && (0 <? length (Entity.stateQueue e))%nat = false).
  { destruct Hdisp as [->|Hge]; [done|].
    apply andb_false_iff. left. apply andb_false_iff. right. by apply Z.ltb_ge. }
  rewrite Hgate.
  assert (Hlen : (length (Entity.stateQueue e) =? 0)%nat = false).
  { apply Nat.eqb_neq. destruct (Entity.stateQueue e); [done|]. simpl. lia. }
  rewrite Hlen, Hcol. cbv zeta. cbn [Entity.visualState Entity.set_stateQueue Entity.isMoving].
  rewrite Hmov. rewrite andb_true_r.
  case_bool_decide; [done|]. unfold bind.
  by destruct (releaseIfLeavingCoding (state info) (Entity.set_stateQueue rest e) w).
Qed.

(** The minimum display time holds the queue back. *)
Lemma processStateQueue_hold now e w :
  Entity.isMoving e = false → Entity.stateQueue e ≠ [] →
  Entity.currentStateStartTime e ≠ 0 →
  now - Entity.currentStateStartTime e < MIN_STATE_DISPLAY_MS →
  processStateQueue md now e w = (e, w).
Proof.
  intros Hmov Hq Hset Hel. unfold processStateQueue. rewrite Hmov.
  rewrite (proj2 (Z.eqb_neq _ _) Hset). rewrite (proj2 (Z.ltb_lt _ _) Hel).
  destruct (Entity.stateQueue e); [done|]. done.
Qed.

Lemma processStateQueue_moving now e w :
  Entity.isMoving e = true → processStateQueue md now e w = (e, w).
Proof. intros H. unfold processStateQueue. by rewrite H. Qed.

(** Either nothing happens, or the front entry is popped. *)
Lemma processStateQueue_cases now e w :
  processStateQueue md now e w = (e, w) ∨
  (Entity.isMoving e = false ∧ displayElapsed now e ∧
   ∃ info rest, collapse (Entity.stateQueue e) = info :: rest).
Proof.
  unfold processStateQueue.
  destruct (Entity.isMoving e) eqn:Hmov; [by left|].
  destruct (negb (Entity.currentStateStartTime e =? 0)
            && (now - Entity.currentStateStartTime e <? MIN_STATE_DISPLAY_MS)
            && (0 <? length (Entity.stateQueue e))%nat) eqn:Hgate; [by left|].
  destruct (length (Entity.stateQueue e) =? 0)%nat eqn:Hlen; [by left|].
  right. split; [done|].
  apply Nat.eqb_neq in Hlen.
  assert (Hq : Entity.stateQueue e ≠ []) by (by destruct (Entity.stateQueue e)).
  split.
  - apply andb_false_iff in Hgate as [Hgate|Hgate].
    + apply andb_false_iff in Hgate as [Hgate|Hgate].
      * left. apply negb_false_iff in Hgate. by apply Z.eqb_eq.
      * right. by apply Z.ltb_ge.
    + apply Nat.ltb_ge in Hgate. lia.
  - pose proof (collapse_nonempty _ Hq).
    destruct (collapse (Entity.stateQueue e)) as [|info rest]; [done|]. eauto.
Qed.

(** *** Zone resolution leaves the tables alone except for [CODING] *)

Lemma Math_random_tables w : tables (Math_random w).2 = tables w.
Proof. done. Qed.

Lemma getRandomPointInZone_tables z w :
  tables (getRandomPointInZone z w).2 = tables w.
Proof. done. Qed.

Lemma getTargetZone_tables e st w :
  st ≠ CODING → tables (getTargetZone md e st w).2 = tables w.
Proof.
  intros Hst. unfold getTargetZone.
  destruct st; try done.
  all: destruct (getZonesForState md _) as [|z zones]; [done|].
  all: unfold bind, ret; simpl.
  all: repeat case_match; simplify_eq; done.
Qed.

(** *** Smoothing and the endpoint fix *)

Lemma smoothPath_loop_nonempty fuel : ∀ path current smoothed,
  smoothed ≠ [] → smoothPath_loop md fuel path current smoothed ≠ [].
Proof.
  induction fuel as [|fuel IH]; intros path current smoothed Hs; [done|].
  cbn [smoothPath_loop]. cbv zeta. case_match; [|done].
  apply IH. by destruct smoothed.
Qed.

Lemma smoothPath_nonempty path : path ≠ [] → smoothPath md path ≠ [].
Proof.
  intros Hp. unfold smoothPath. case_match; [done|].
  by apply smoothPath_loop_nonempty.
Qed.

Lemma differs_false p cx cy : differs p cx cy = false → at_point p cx cy.
Proof.
  unfold differs, at_point. intros H.
  apply orb_false_iff in H as [H1%negb_false_iff H2%negb_false_iff].
  by apply Qeq_bool_iff in H1, H2.
Qed.

(** The installed path always ends at the exact destination. *)
Lemma smoothToTarget_last path cx cy :
  path ≠ [] →
  ∃ p, last (smoothToTarget md path cx cy) = Some p ∧ at_point p cx cy.
Proof.
  intros Hp. unfold smoothToTarget.
  pose proof (smoothPath_nonempty path Hp) as Hne.
  destruct (last (smoothPath md path)) as [lw|] eqn:Hl.
  - destruct (differs lw cx cy) eqn:Hd.
    + exists (Point.mk cx cy). rewrite last_snoc. split; [done|].
      split; simpl; reflexivity.
    + exists lw. split; [done|]. by apply differs_false.
  - by apply last_None in Hl.
Qed.

Lemma startTransition_path nextState tz e :
  ∃ p, last (Entity.path (startTransition md nextState tz e)) = Some p ∧
       at_point p (Zone.centerX tz) (Zone.centerY tz).
Proof.
  unfold startTransition. cbn.
  destruct (findPath md _ _ _ _) as [[|p0 path]|].
  - eexists. split; [done|]. split; simpl; reflexivity.
  - by apply smoothToTarget_last.
  - eexists. split; [done|]. split; simpl; reflexivity.
Qed.

(** *** Arrival *)

Lemma arriveAtDestination_fields now e w :
  let e' := (arriveAtDestination md now e w).1 in
  Entity.isMoving e' = false ∧
  Entity.visualState e' = Entity.targetState e ∧
  Entity.currentStateStartTime e' = now ∧
  Entity.stateQueue e' = Entity.stateQueue e ∧
  Entity.targetState e' = None ∧ Entity.targetZone e' = None ∧
  Entity.path e' = [] ∧
  (∀ tz, Entity.targetZone e = Some tz →
     Entity.x e' = Zone.centerX tz ∧ Entity.y e' = Zone.centerY tz).
Proof.
  unfold arriveAtDestination, bind, ret, Math_random.
  destruct (Entity.targetZone e) as [tz|] eqn:Htz.
  - destruct (facingToDirection (Zone.facing tz));
      cbn [Entity.visualState Entity.set_visualState Entity.set_currentStateStartTime
           Entity.set_isMoving Entity.set_xy Entity.set_direction Entity.targetState];
      destruct (isWanderState (Entity.targetState e)); cbn;
      split_and!; try done; by intros ? [= <-].
  - destruct (last (Entity.path e));
      cbn [Entity.visualState Entity.set_visualState Entity.set_currentStateStartTime
           Entity.set_isMoving Entity.set_xy Entity.set_direction Entity.targetState];
      destruct (isWanderState (Entity.targetState e)); cbn;
      split_and!; done.
Qed.



(** *** Wandering *)

Lemma chooseWanderZone_core zones e w :
  same_core e (chooseWanderZone zones e w).1.2.
Proof.
  unfold chooseWanderZone, bind, ret, Math_random.
  repeat case_match; by cbn.
Qed.


Lemma startWander_core zone tp e :
  Entity.visualState (startWander md zone tp e) = Entity.visualState e ∧
  Entity.currentStateStartTime (startWander md zone tp e) = Entity.currentStateStartTime e ∧
  Entity.stateQueue (startWander md zone tp e) = Entity.stateQueue e ∧
  (Entity.isMoving (startWander md zone tp e) = Entity.isMoving e ∨
   (Entity.isMoving (startWander md zone tp e) = true ∧
    Entity.targetState (startWander md zone tp e) = Entity.visualState e ∧
    ∃ p, Entity.targetZone (startWander md zone tp e) = Some (withCenter zone tp) ∧
         last (Entity.path (startWander md zone tp e)) = Some p ∧
         at_point p (Point.x tp) (Point.y tp))).
Proof.
  unfold startWander.
  destruct (findPath md _ _ _ _) as [path|] eqn:Hfp; [|by auto].
  destruct (1 <? length path)%nat eqn:Hlen; [|by auto].
  cbn. split_and!; try done. right. split_and!; try done.
  destruct (smoothToTarget_last path (Point.x tp) (Point.y tp)) as (p & Hp & Hat).
  { by destruct path. }
  eauto.
Qed.

(** What one call of the wander controller can change. *)
Lemma updateWandering_frame now e w :
  let e' := (updateWandering md now e w).1 in
  Entity.visualState e' = Entity.visualState e ∧
  Entity.currentStateStartTime e' = Entity.currentStateStartTime e ∧
  Entity.stateQueue e' = Entity.stateQueue e ∧
  (Entity.isMoving e' = Entity.isMoving e ∨
   (Entity.isMoving e' = true ∧ Entity.targetState e' = Entity.visualState e ∧
    ∃ tz p, Entity.targetZone e' = Some tz ∧ last (Entity.path e') = Some p ∧
            at_point p (Zone.centerX tz) (Zone.centerY tz))).
Proof.
  unfold updateWandering.
  destruct (isWanderState (Entity.visualState e)); cbn [negb]; [|by cbn; auto].
  destruct (Qltb _ _); [by cbn; auto|].
  destruct (match Entity.visualState e with
            | Some s => getZonesForState md s | None => [] end) as [|z zones];
    [by cbn; auto|].
  unfold bind.
  pose proof (chooseWanderZone_core (z :: zones) e w) as Hcore.
  destruct (chooseWanderZone (z :: zones) e w) as [[zone e2] w2].
  cbn [fst snd] in Hcore. destruct Hcore as (Hv & Hc & Hq & Hm & _).
  destruct zone as [zone|]; [|by cbn; auto].
  destruct (getRandomPointInZone zone w2) as [tp w3].
  unfold scheduleNextWander, bind, ret, Math_random. cbn.
  destruct (startWander_core zone tp e2) as (Sv & Sc & Sq & Sm).
  split_and!; try congruence.
  destruct Sm as [Sm|(Sm & St & p & Sz & Sp & Sat)]; [left; congruence|].
  right. split_and!; try congruence. exists (withCenter zone tp), p. done.
Qed.


(** *** One tick of a moving agent *)

Lemma tickAnimation_core dt e :
  Entity.visualState (tickAnimation dt e) = Entity.visualState e ∧
  Entity.currentStateStartTime (tickAnimation dt e) = Entity.currentStateStartTime e ∧
  Entity.stateQueue (tickAnimation dt e) = Entity.stateQueue e ∧
  Entity.isMoving (tickAnimation dt e) = Entity.isMoving e ∧
  Entity.targetState (tickAnimation dt e) = Entity.targetState e.
Proof. unfold tickAnimation. by case_match. Qed.

Section Ticks.
Variable Math_sqrt : Q → Q.

Lemma updatePathFollowing_wandering v now dt e w :
  wandering v e →
  let e' := (updatePathFollowing md Math_sqrt now dt e w).1 in
  wandering v e' ∨
  (Entity.isMoving e' = false ∧ Entity.visualState e' = v ∧
   Entity.currentStateStartTime e' = now ∧
   Entity.stateQueue e' = Entity.stateQueue e).
Proof.
  intros (Hm & Ht & Hv). unfold updatePathFollowing.
  assert (Harr : ∀ e1, Entity.targetState e1 = v →
            Entity.stateQueue e1 = Entity.stateQueue e →
            let e' := (arriveAtDestination md now e1 w).1 in
            Entity.isMoving e' = false ∧ Entity.visualState e' = v ∧
            Entity.currentStateStartTime e' = now ∧
            Entity.stateQueue e' = Entity.stateQueue e).
  { intros e1 Ht1 Hq1.
    destruct (arriveAtDestination_fields now e1 w) as (A1 & A2 & A3 & A4 & _).
    cbv zeta. split_and!; congruence. }
  destruct (Entity.path e !! Entity.pathIndex e) as [target|].
  - destruct (Qltb _ _).
    + cbv zeta. case_match.
      * right. by apply Harr.
      * left. by cbn.
    + left. by cbn.
  - right. by apply Harr.
Qed.

(** A tick keeps a wandering agent wandering towards the same state, or
    lands it in that state at the time of the tick. *)
Lemma updateEntity_wandering v now dt e w :
  wandering v e →
  let e' := (updateEntity md Math_sqrt now dt e w).1 in
  (Entity.isMoving e' = true → wandering v e') ∧
  (Entity.isMoving e' = false →
     Entity.visualState e' = v ∧ Entity.currentStateStartTime e' = now).
Proof.
  intros HW. pose proof HW as (Hm & Ht & Hv).
  unfold updateEntity, bind, ret.
  rewrite processStateQueue_moving by done. rewrite Hm. cbn [andb].
  destruct (0 <? length (Entity.path e))%nat.
  - pose proof (updatePathFollowing_wandering v now dt e w HW) as Hstep.
    destruct (updatePathFollowing md Math_sqrt now dt e w) as [e1 w1].
    cbn [fst] in Hstep.
    destruct Hstep as [(Hm1 & Ht1 & Hv1)|(Hm1 & Hv1 & Hc1 & Hq1)].
    + rewrite Hm1. cbn [negb andb fst].
      destruct (tickAnimation_core dt e1) as (T1 & T2 & T3 & T4 & T5).
      split.
      * intros _. split_and!; congruence.
      * congruence.
    + rewrite Hm1. cbn [negb andb].
      destruct (length (Entity.stateQueue e1) =? 0)%nat.
      * pose proof (updateWandering_frame now e1 w1) as Hf.
        destruct (updateWandering md now e1 w1) as [e2 w2].
        cbn [fst] in Hf |- *. destruct Hf as (F1 & F2 & F3 & F4).
        destruct (tickAnimation_core dt e2) as (T1 & T2 & T3 & T4 & T5).
        split.
        -- intros Hm2. rewrite T4 in Hm2.
           destruct F4 as [F4|(F4 & F5 & _)]; [congruence|].
           split_and!; congruence.
        -- intros _. split_and!; congruence.
      * cbn [fst].
        destruct (tickAnimation_core dt e1) as (T1 & T2 & T3 & T4 & T5).
        split; [congruence|]. intros _. split_and!; congruence.
  - rewrite Hm. cbn [negb andb fst].
    destruct (tickAnimation_core dt e) as (T1 & T2 & T3 & T4 & T5).
    split.
    + intros _. split_and!; congruence.
    + congruence.
Qed.

Lemma step_wandering v ev ew :
  wandering v ew.1 →
  Entity.isMoving (step md Math_sqrt ev ew).1 = true →
  wandering v (step md Math_sqrt ev ew).1.
Proof.
  intros HW Hm. destruct ev as [now s|now dt]; cbn [step] in *.
  - destruct HW as (H1 & H2 & H3). by split_and!.
  - by apply (updateEntity_wandering v now dt ew.1 ew.2 HW).
Qed.

Lemma run_wandering v evs : ∀ ew,
  wandering v ew.1 → stays_moving md Math_sqrt evs ew →
  wandering v (run md Math_sqrt evs ew).1.
Proof.
  induction evs as [|ev evs IH]; intros ew HW Hs; [done|].
  destruct Hs as [Hm Hs]. cbn [run foldl]. apply IH; [|done].
  by apply step_wandering.
Qed.

End Ticks.

End EntityProofs.

(* ===================================================================== *)
(** * Part IV. The claims                                                 *)
(* ===================================================================== *)

(** ** Grid pathfinder *)

(** C1. On a loaded grid, whenever the adjusted start [s] and the adjusted
    goal [g] (each the tile itself or its nearest-walkable substitute) are
    connected by walkable 4-adjacent tiles, [findTilePath] returns a path
    of 4-adjacent walkable tiles from [s] to [g], and no path of walkable
    4-adjacent tiles from [s] to [g] has fewer tiles: its tile count is
    the shortest-path length of the grid graph, the one breadth-first
    search finds. *)
Theorem findTilePath_shortest md start goal s g :
  grid_loaded md →
  adjust md start = Some s → adjust md goal = Some g →
  connected md s g →
  ∃ p, findTilePath md start goal = Some p ∧
       tile_path md s g p ∧
       ∀ q, tile_path md s g q → (length p ≤ length q)%nat.
Proof.
  intros _ Hs Hg Hconn.
  destruct (findTilePath_shortest_path md start goal s g Hs Hg Hconn)
    as (p & Hp & Hpath & Hmin).
  eauto.
Qed.

Lemma findTilePath_shortest_witness :
  ∃ p, findTilePath corridorMap (0, 0) (2, 0) = Some p ∧
       tile_path corridorMap (0, 0) (2, 0) p ∧
       ∀ q, tile_path corridorMap (0, 0) (2, 0) q → (length p ≤ length q)%nat.
Proof.
  apply (findTilePath_shortest corridorMap (0, 0) (2, 0) (0, 0) (2, 0)).
  - unfold grid_loaded. simpl. lia.
  - reflexivity.
  - reflexivity.
  - exists [(0, 0); (1, 0); (2, 0)].
    split; [reflexivity|]. split; [reflexivity|]. split.
    + repeat constructor.
    + simpl. unfold adjacent. simpl. lia.
Defined.

(** The wall scenario of the testable properties: a 10 x 10 grid whose
    column 5 is blocked in rows 0-8, from (0,0) to (9,0). *)
Example findTilePath_wall_detour :
  let row b := [false; false; false; false; false; b; false; false; false; false] in
  let md := {| tileWidth := 48; tileHeight := 48; width := 10; height := 10;
               unifiedCollisionGrid := replicate 9 (row true) ++ [row false];
               workstations := []; planningZones := [];
               thinkingZones := []; idleZones := [] |} in
  option_map length (findTilePath md (0, 0) (9, 0)) = Some 28%nat.
Proof. vm_compute. reflexivity. Qed.

(** ** Path smoother *)

(** C6. For an input path made of the centers of 4-adjacent walkable tiles
    (what [findPath] produces), [smoothPath] keeps the first and the last
    point, returns at most as many points, every consecutive pair of the
    result has a Bresenham tile line on walkable cells only, and a path of
    fewer than 3 points is returned unchanged. *)
Theorem smoothPath_correct md tiles :
  grid_loaded md → 0 < tileWidth md → 0 < tileHeight md →
  Forall (walkable md) tiles → chain tiles →
  let path := tileCenters md tiles in
  let sm := smoothPath md path in
  head sm = head path ∧ last sm = last path ∧
  (length sm ≤ length path)%nat ∧
  los_chain md sm ∧
  ((length path < 3)%nat → sm = path).
Proof.
  intros _ Hw Hh Hwalk Hc path sm.
  apply smoothPath_spec. by apply tileCenters_los.
Qed.

Lemma smoothPath_correct_witness :
  let path := tileCenters corridorMap [(0, 0); (1, 0); (2, 0)] in
  let sm := smoothPath corridorMap path in
  head sm = head path ∧ last sm = last path ∧
  (length sm ≤ length path)%nat ∧
  los_chain corridorMap sm ∧
  ((length path < 3)%nat → sm = path).
Proof.
  apply (smoothPath_correct corridorMap [(0, 0); (1, 0); (2, 0)]).
  - unfold grid_loaded. simpl. lia.
  - reflexivity.
  - reflexivity.
  - repeat constructor.
  - simpl. unfold adjacent. simpl. lia.
Defined.

(** ** Workstation occupancy *)

(** C3. After every sequence of [assignWorkstation], [releaseWorkstation]
    and [clearEntityAssignments] calls (zone ids being non-empty strings):
    a workstation id is assigned to at most one entity, an entity holds at
    most one workstation, [zoneAssignments] maps [w] to [e] exactly when
    [entityZoneMap] maps the key of [e] to [w], and with K workstations at
    most K entities hold one. *)
Theorem occupancy_invariant md ops :
  workstation_ids_truthy md →
  let tb := runOps md ops in
  (∀ w e1 e2, zoneAssignments tb !! w = Some e1 →
              zoneAssignments tb !! w = Some e2 → e1 = e2) ∧
  (∀ e w1 w2, zoneAssignments tb !! w1 = Some e →
              zoneAssignments tb !! w2 = Some e → w1 = w2) ∧
  (∀ w e, zoneAssignments tb !! w = Some e ↔
          entityZoneMap tb !! assignmentKey e Tworkstations = Some w) ∧
  (∀ es, NoDup es → (∀ e, e ∈ es → holdsWorkstation tb e) →
         (length es ≤ length (workstations md))%nat).
Proof.
  intros Hids tb.
  pose proof (runOps_consistent md Hids ops) as Hc. fold tb in Hc.
  split; [|split; [|split]].
  - intros w e1 e2 H1 H2. congruence.
  - intros e w1 w2 H1 H2. apply (tc_iff _ _ Hc) in H1, H2. congruence.
  - apply (tc_iff _ _ Hc).
  - intros es. by apply holders_bounded.
Qed.

Lemma occupancy_invariant_witness :
  let tb := runOps corridorMap
              [OpAssign "a"; OpAssign "b"; OpRelease "a"; OpAssign "b"; OpClear "b"] in
  (∀ w e1 e2, zoneAssignments tb !! w = Some e1 →
              zoneAssignments tb !! w = Some e2 → e1 = e2) ∧
  (∀ e w1 w2, zoneAssignments tb !! w1 = Some e →
              zoneAssignments tb !! w2 = Some e → w1 = w2) ∧
  (∀ w e, zoneAssignments tb !! w = Some e ↔
          entityZoneMap tb !! assignmentKey e Tworkstations = Some w) ∧
  (∀ es, NoDup es → (∀ e, e ∈ es → holdsWorkstation tb e) →
         (length es ≤ length (workstations corridorMap))%nat).
Proof.
  apply (occupancy_invariant corridorMap).
  unfold workstation_ids_truthy. simpl. repeat constructor.
Defined.

(** Two agents and one desk: the second request finds no workstation. *)
Example one_desk_two_agents :
  let tb1 := (assignWorkstation corridorMap "a" clearAllAssignments).2 in
  option_map Zone.id (assignWorkstation corridorMap "a" clearAllAssignments).1
    = Some "desk-1" ∧
  (assignWorkstation corridorMap "b" tb1).1 = None ∧
  option_map Zone.id (assignWorkstation corridorMap "b" (releaseWorkstation "a" tb1)).1
    = Some "desk-1".
Proof. vm_compute. done. Qed.

(** ** State transition engine *)

(** C4 as stated does not hold: an agent whose [currentStateStartTime] is
    0 passes the guard [if (entity.currentStateStartTime)], so its queue
    is processed although fewer than 4000 ms have elapsed. Here the
    queued [IDLE] is popped and discarded 1000 ms after time 0. *)
Lemma minimum_display_counterexample :
  let e := mkEntity (Some IDLE) [{| state := IDLE; queuedAt := 900 |}] 0 0 in
  let e' := (processStateQueue corridorMap 1000 e emptyWorld).1 in
  Entity.isMoving e = false ∧ Entity.stateQueue e ≠ [] ∧
  1000 - Entity.currentStateStartTime e < 4000 ∧
  Entity.stateQueue e' = [] ∧ e' ≠ e.
Proof.
  cbv zeta. split; [reflexivity|]. split; [discriminate|]. split; [reflexivity|].
  split; [reflexivity|].
  intros H. apply (f_equal Entity.stateQueue) in H. discriminate.
Qed.

(** X1 (C4 as the code has it). For every agent that is not moving, has a
    non-empty [stateQueue], has a recorded (non-zero)
    [currentStateStartTime] and for which less than 4000 ms have elapsed
    since then, [processStateQueue] leaves the agent record (and the
    tables) unchanged: no queued state is applied within the minimum
    display time. *)
Theorem minimum_display_hold md now e w :
  Entity.isMoving e = false →
  Entity.stateQueue e ≠ [] →
  Entity.currentStateStartTime e ≠ 0 →
  now - Entity.currentStateStartTime e < 4000 →
  processStateQueue md now e w = (e, w).
Proof. apply processStateQueue_hold. Qed.

Lemma minimum_display_hold_witness :
  let e := mkEntity (Some IDLE) [{| state := CODING; queuedAt := 5500 |}] 5000 0 in
  processStateQueue corridorMap 6000 e emptyWorld = (e, emptyWorld).
Proof.
  apply (minimum_display_hold corridorMap 6000
           (mkEntity (Some IDLE) [{| state := CODING; queuedAt := 5500 |}] 5000 0)).
  - reflexivity.
  - discriminate.
  - discriminate.
  - reflexivity.
Defined.

(** C5 as stated does not hold. With the queue CODING(1), CODING(2),
    IDLE(3), IDLE(4) (state and queuedAt) and no workstation on the map the popped entry is put back,
    which shows what was kept: the survivor of the first run is its last
    entry (queued at 2), and the second run is not collapsed. *)
Lemma queue_collapse_counterexample :
  let q := [ {| state := CODING; queuedAt := 1 |}; {| state := CODING; queuedAt := 2 |};
             {| state := IDLE; queuedAt := 3 |}; {| state := IDLE; queuedAt := 4 |} ] in
  let e := mkEntity (Some SPAWNED) q 1 0 in
  let e' := (processStateQueue walledMap 5000 e emptyWorld).1 in
  collapseRuns_spec q =
    [ {| state := CODING; queuedAt := 1 |}; {| state := IDLE; queuedAt := 3 |} ] ∧
  Entity.stateQueue e' =
    [ {| state := CODING; queuedAt := 2 |};
      {| state := IDLE; queuedAt := 3 |}; {| state := IDLE; queuedAt := 4 |} ] ∧
  Entity.stateQueue e' ≠ collapseRuns_spec q.
Proof. cbv zeta. split; [reflexivity|]. split; [reflexivity|]. discriminate. Qed.

(** X2 (C5 as the code has it). When [processStateQueue] processes a
    non-empty queue, only the run of consecutive duplicates at the front of
    [stateQueue] is collapsed; the entry that survives and is popped is the
    last of that run (the one with the latest [queuedAt]), and everything
    behind the run stays as it was. *)
Theorem queue_collapse_front md now e w :
  Entity.isMoving e = false → displayElapsed now e →
  Entity.stateQueue e ≠ [] →
  ∃ dropped popped rest,
    Entity.stateQueue e = dropped ++ popped :: rest ∧
    Forall (fun b => state b = state popped) dropped ∧
    (∀ b, head rest = Some b → state b ≠ state popped) ∧
    processStateQueue md now e w =
      let e1 := Entity.set_stateQueue rest e in
      if bool_decide (Some (state popped) = Entity.visualState e) then (e1, w)
      else resolveAndMove md popped e1
             (releaseIfLeavingCoding (state popped) e1 w).2.
Proof.
  intros Hmov Hdisp Hq.
  destruct (collapse_spec _ Hq) as (dropped & a & rest & Heq & Hcol & Hall & Hnext).
  exists dropped, a, rest. split; [done|]. split; [done|]. split; [done|].
  by apply processStateQueue_pop.
Qed.

Lemma queue_collapse_front_witness :
  let e := mkEntity (Some THINKING)
             [ {| state := THINKING; queuedAt := 1 |};
               {| state := THINKING; queuedAt := 2 |};
               {| state := IDLE; queuedAt := 3 |}; {| state := IDLE; queuedAt := 4 |} ]
             1 0 in
  ∃ dropped popped rest,
    Entity.stateQueue e = dropped ++ popped :: rest ∧
    Forall (fun b => state b = state popped) dropped ∧
    (∀ b, head rest = Some b → state b ≠ state popped) ∧
    processStateQueue corridorMap 5000 e emptyWorld =
      let e1 := Entity.set_stateQueue rest e in
      if bool_decide (Some (state popped) = Entity.visualState e) then (e1, emptyWorld)
      else resolveAndMove corridorMap popped e1
             (releaseIfLeavingCoding (state popped) e1 emptyWorld).2.
Proof.
  apply (queue_collapse_front corridorMap 5000).
  - reflexivity.
  - right. vm_compute. discriminate.
  - discriminate.
Defined.

(** C2 as stated does not hold. On a map without any walkable tile
    [findPath] returns no path; the queued [PLANNING] resolves to the
    planning zone, and [processStateQueue] does not requeue it: it installs
    the direct one-waypoint path to the zone center and starts moving. *)
Lemma no_path_counterexample :
  let info := {| state := PLANNING; queuedAt := 1 |} in
  let e := mkEntity (Some SPAWNED) [info] 1 0 in
  let zone := mkZone "board-1" 0 0 48 48 in
  let e' := (processStateQueue walledMap 5000 e emptyWorld).1 in
  findPath walledMap (Entity.x e) (Entity.y e) (Zone.centerX zone) (Zone.centerY zone)
    = None ∧
  Entity.targetZone e' = Some zone ∧
  Entity.stateQueue e' = [] ∧
  Entity.isMoving e' = true ∧
  Entity.targetState e' = Some PLANNING ∧
  Entity.path e' = [Point.mk (Zone.centerX zone) (Zone.centerY zone)] ∧
  ¬ (Entity.stateQueue e' = [info] ∧
     Entity.path e' = Entity.path e ∧ Entity.targetState e' = Entity.targetState e ∧
     Entity.targetZone e' = Entity.targetZone e ∧
     Entity.isMoving e' = Entity.isMoving e).
Proof.
  cbv zeta. split; [reflexivity|]. split; [reflexivity|]. split; [reflexivity|].
  split; [reflexivity|]. split; [reflexivity|]. split; [reflexivity|].
  intros (H & _). discriminate.
Qed.

(** X3 (C2 as the code has it). For every agent whose popped queue entry
    resolves to a target zone but for which the pathfinder returns no path,
    [processStateQueue] falls back to direct movement: the installed path
    is the single waypoint at the zone's center, [targetState] and
    [targetZone] are set, [pathIndex] is 0 and [isMoving] becomes true; the
    popped entry is not put back in the queue. *)
Theorem no_path_fallback md now e w info rest tz w1 :
  grid_loaded md →
  Entity.isMoving e = false → displayElapsed now e →
  collapse (Entity.stateQueue e) = info :: rest →
  Some (state info) ≠ Entity.visualState e →
  getTargetZone md (Entity.set_stateQueue rest e) (state info)
    (releaseIfLeavingCoding (state info) (Entity.set_stateQueue rest e) w).2
    = (Some tz, w1) →
  findPath md (Entity.x e) (Entity.y e) (Zone.centerX tz) (Zone.centerY tz) = None →
  let e' := (processStateQueue md now e w).1 in
  (processStateQueue md now e w).2 = w1 ∧
  Entity.path e' = [Point.mk (Zone.centerX tz) (Zone.centerY tz)] ∧
  Entity.stateQueue e' = rest ∧
  Entity.targetState e' = Some (state info) ∧
  Entity.targetZone e' = Some tz ∧
  Entity.pathIndex e' = 0%nat ∧
  Entity.isMoving e' = true.
Proof.
  intros _ Hmov Hdisp Hcol Hne Hzone Hfp.
  rewrite (processStateQueue_pop md now e w info rest Hmov Hdisp Hcol).
  cbv zeta. rewrite bool_decide_eq_false_2 by done.
  unfold resolveAndMove, bind, ret. rewrite Hzone.
  unfold startTransition. cbn. rewrite Hfp. done.
Qed.

Lemma no_path_fallback_witness :
  let info := {| state := PLANNING; queuedAt := 1 |} in
  let e := mkEntity (Some SPAWNED) [info] 1 0 in
  let tz := mkZone "board-1" 0 0 48 48 in
  let w1 := (Math_random emptyWorld).2 in
  let e' := (processStateQueue walledMap 5000 e emptyWorld).1 in
  (processStateQueue walledMap 5000 e emptyWorld).2 = w1 ∧
  Entity.path e' = [Point.mk (Zone.centerX tz) (Zone.centerY tz)] ∧
  Entity.stateQueue e' = [] ∧
  Entity.targetState e' = Some (state info) ∧
  Entity.targetZone e' = Some tz ∧
  Entity.pathIndex e' = 0%nat ∧
  Entity.isMoving e' = true.
Proof.
  apply (no_path_fallback walledMap 5000
           (mkEntity (Some SPAWNED) [{| state := PLANNING; queuedAt := 1 |}] 1 0)
           emptyWorld {| state := PLANNING; queuedAt := 1 |} []).
  - unfold grid_loaded. simpl. lia.
  - reflexivity.
  - right. vm_compute. discriminate.
  - reflexivity.
  - discriminate.
  - reflexivity.
  - reflexivity.
Defined.

(** X4 (C8). For every agent whose [visualState] is [CODING] and whose
    popped queue entry requests another state, [processStateQueue] releases
    the agent's workstation before it resolves the target zone and computes
    the path: the rest of the call runs on the tables after
    [releaseWorkstation], in which the workstation id reports unoccupied
    and the agent has no workstation, and this is still so when the call
    returns. *)
Theorem release_on_leaving_coding md now e w info rest ws :
  Entity.isMoving e = false → displayElapsed now e →
  collapse (Entity.stateQueue e) = info :: rest →
  Entity.visualState e = Some CODING → state info ≠ CODING →
  getEntityWorkstation md (tables w) (Entity.id e) = Some ws →
  let released := releaseWorkstation (Entity.id e) (tables w) in
  let w0 := {| tables := released; randomSeq := randomSeq w; randomPos := randomPos w |} in
  processStateQueue md now e w
    = resolveAndMove md info (Entity.set_stateQueue rest e) w0 ∧
  isZoneOccupied released (Zone.id ws) = false ∧
  getEntityWorkstation md released (Entity.id e) = None ∧
  isZoneOccupied (tables (processStateQueue md now e w).2) (Zone.id ws) = false.
Proof.
  intros Hmov Hdisp Hcol Hvis Hinfo Hws released w0.
  assert (Hrel : released =
            {| zoneAssignments := delete (Zone.id ws) (zoneAssignments (tables w));
               entityZoneMap := delete (wsKey (Entity.id e)) (entityZoneMap (tables w)) |}).
  { unfold released, releaseWorkstation. fold (wsKey (Entity.id e)).
    unfold getEntityWorkstation, getAssignedZone in Hws. fold (wsKey (Entity.id e)) in Hws.
    destruct (entityZoneMap (tables w) !! wsKey (Entity.id e)) as [wid|]; [|done].
    destruct (truthy wid); [|done].
    apply find_some in Hws as [_ Hid]. apply bool_decide_eq_true in Hid. by subst. }
  assert (Hocc : isZoneOccupied released (Zone.id ws) = false).
  { rewrite Hrel. unfold isZoneOccupied. simpl. rewrite lookup_delete_eq.
    apply bool_decide_eq_false. by intros [? ?]. }
  assert (Hstep : processStateQueue md now e w
            = resolveAndMove md info (Entity.set_stateQueue rest e) w0).
  { rewrite (processStateQueue_pop md now e w info rest Hmov Hdisp Hcol). cbv zeta.
    rewrite bool_decide_eq_false_2 by (rewrite Hvis; congruence).
    unfold releaseIfLeavingCoding. cbn [Entity.visualState Entity.set_stateQueue Entity.id].
    rewrite Hvis. rewrite bool_decide_eq_true_2 by done.
    rewrite bool_decide_eq_false_2 by done. done. }
  split; [done|]. split; [done|]. split.
  - rewrite Hrel. unfold getEntityWorkstation, getAssignedZone. simpl.
    fold (wsKey (Entity.id e)). by rewrite lookup_delete_eq.
  - rewrite Hstep. unfold resolveAndMove, bind, ret.
    pose proof (getTargetZone_tables md (Entity.set_stateQueue rest e) (state info) w0 Hinfo)
      as Htb.
    destruct (getTargetZone md (Entity.set_stateQueue rest e) (state info) w0)
      as [[tz|] w1]; cbn [snd] in Htb |- *; by rewrite Htb.
Qed.

Lemma release_on_leaving_coding_witness :
  let e := mkEntity (Some CODING) [{| state := IDLE; queuedAt := 4000 |}] 1 0 in
  let w := {| tables := (assignWorkstation corridorMap "agent-1" clearAllAssignments).2;
              randomSeq := fun _ => (1 # 2)%Q; randomPos := 0%nat |} in
  let ws := mkZone "desk-1" 0 0 48 48 in
  let released := releaseWorkstation (Entity.id e) (tables w) in
  let w0 := {| tables := released; randomSeq := randomSeq w; randomPos := randomPos w |} in
  processStateQueue corridorMap 5000 e w
    = resolveAndMove corridorMap {| state := IDLE; queuedAt := 4000 |}
        (Entity.set_stateQueue [] e) w0 ∧
  isZoneOccupied released (Zone.id ws) = false ∧
  getEntityWorkstation corridorMap released (Entity.id e) = None ∧
  isZoneOccupied (tables (processStateQueue corridorMap 5000 e w).2) (Zone.id ws) = false.
Proof.
  apply (release_on_leaving_coding corridorMap 5000
           (mkEntity (Some CODING) [{| state := IDLE; queuedAt := 4000 |}] 1 0)
           {| tables := (assignWorkstation corridorMap "agent-1" clearAllAssignments).2;
              randomSeq := fun _ => (1 # 2)%Q; randomPos := 0%nat |}
           {| state := IDLE; queuedAt := 4000 |} [] (mkZone "desk-1" 0 0 48 48)).
  - reflexivity.
  - right. vm_compute. discriminate.
  - reflexivity.
  - reflexivity.
  - discriminate.
  - reflexivity.
Defined.

(** ** Endpoint precision *)

(** X5 (C7). Whenever [processStateQueue] or the wander controller installs
    a movement, the last waypoint of the installed path is exactly the
    destination point, the center carried by the installed [targetZone]
    (appended after smoothing when the smoothed path ends elsewhere); and
    on arrival with a target zone set the agent's position is exactly that
    zone's [(centerX, centerY)]. *)
Theorem endpoint_precision md now e w :
  (Entity.isMoving e = false →
   Entity.isMoving (processStateQueue md now e w).1 = true →
   ∃ tz p, Entity.targetZone (processStateQueue md now e w).1 = Some tz ∧
           last (Entity.path (processStateQueue md now e w).1) = Some p ∧
           at_point p (Zone.centerX tz) (Zone.centerY tz)) ∧
  (Entity.isMoving e = false →
   Entity.isMoving (updateWandering md now e w).1 = true →
   ∃ tz p, Entity.targetZone (updateWandering md now e w).1 = Some tz ∧
           last (Entity.path (updateWandering md now e w).1) = Some p ∧
           at_point p (Zone.centerX tz) (Zone.centerY tz)) ∧
  (∀ tz, Entity.targetZone e = Some tz →
         Entity.x (arriveAtDestination md now e w).1 = Zone.centerX tz ∧
         Entity.y (arriveAtDestination md now e w).1 = Zone.centerY tz).
Proof.
  split; [|split].
  - intros Hmov Hmov'.
    destruct (processStateQueue_cases md now e w)
      as [Hsame|(_ & Hdisp & info & rest & Hcol)].
    { rewrite Hsame in Hmov'. simpl in Hmov'. congruence. }
    rewrite (processStateQueue_pop md now e w info rest Hmov Hdisp Hcol) in Hmov' |- *.
    cbv zeta in Hmov' |- *.
    destruct (bool_decide (Some (state info) = Entity.visualState e)).
    { simpl in Hmov'. congruence. }
    unfold resolveAndMove, bind, ret in Hmov' |- *.
    destruct (getTargetZone md _ _ _) as [[tz|] w1].
    + destruct (startTransition_path md (state info) tz (Entity.set_stateQueue rest e))
        as (p & Hp & Hat).
      exists tz, p. done.
    + simpl in Hmov'. congruence.
  - intros Hmov Hmov'.
    destruct (updateWandering_frame md now e w) as (_ & _ & _ & [Hsame|(_ & _ & H)]).
    + congruence.
    + done.
  - intros tz Htz.
    destruct (arriveAtDestination_fields md now e w) as (_ & _ & _ & _ & _ & _ & _ & H).
    by apply H.
Qed.

(** A transition and a wander along the corridor. *)
Lemma endpoint_precision_witness :
  let e := mkEntity (Some THINKING) [{| state := PLANNING; queuedAt := 1 |}] 1 0 in
  (∃ tz p, Entity.targetZone (processStateQueue corridorMap 5000 e emptyWorld).1 = Some tz ∧
           last (Entity.path (processStateQueue corridorMap 5000 e emptyWorld).1) = Some p ∧
           at_point p (Zone.centerX tz) (Zone.centerY tz)) ∧
  (let e0 := mkEntity (Some IDLE) [] 1 0 in
   ∃ tz p, Entity.targetZone (updateWandering corridorMap 5000 e0 emptyWorld).1 = Some tz ∧
           last (Entity.path (updateWandering corridorMap 5000 e0 emptyWorld).1) = Some p ∧
           at_point p (Zone.centerX tz) (Zone.centerY tz)).
Proof.
  split.
  - apply (proj1 (endpoint_precision corridorMap 5000
       (mkEntity (Some THINKING) [{| state := PLANNING; queuedAt := 1 |}] 1 0) emptyWorld));
      reflexivity.
  - apply (proj1 (proj2 (endpoint_precision corridorMap 5000
       (mkEntity (Some IDLE) [] 1 0) emptyWorld))); reflexivity.
Defined.

(** With every random number 1/4 the wander target is (112, 16), off the
    center (120, 24) of its tile: it is appended behind the smoothed path. *)
Example wander_path_ends_at_target :
  Entity.path (updateWandering corridorMap 5000 (mkEntity (Some IDLE) [] 1 0) quarterWorld).1
    = [Point.mk (48 # 2) (48 # 2); Point.mk (240 # 2) (48 # 2); Point.mk (448 # 4) (64 # 4)].
Proof. vm_compute. reflexivity. Qed.

(** ** Wander controller *)

(** C9 as stated does not hold: when the category of the agent's state
    has no zone, [updateWandering] returns before it reschedules. An idle
    agent on a map without idle zones keeps its [nextWanderTime] of 0. *)
Lemma wander_reschedule_counterexample :
  let e := mkEntity (Some IDLE) [] 1 0 in
  let e' := (updateWandering walledMap 10000 e emptyWorld).1 in
  Entity.isMoving e = false ∧ Entity.stateQueue e = [] ∧
  Entity.visualState e = Some IDLE ∧
  (Entity.nextWanderTime e <= inject_Z 10000)%Q ∧
  Entity.nextWanderTime e' = 0%Q ∧
  ¬ ∃ delay : Q, (3000 <= delay)%Q ∧ (delay < 6000)%Q ∧
                 (Entity.nextWanderTime e' == inject_Z 10000 + delay)%Q.
Proof.
  cbv zeta. split; [reflexivity|]. split; [reflexivity|]. split; [reflexivity|].
  split; [discriminate|]. split; [reflexivity|].
  intros (delay & Hlo & _ & Heq).
  change (Entity.nextWanderTime
            (updateWandering walledMap 10000 (mkEntity (Some IDLE) [] 1 0) emptyWorld).1)
    with 0%Q in Heq.
  change (inject_Z 10000) with 10000%Q in Heq. lra.
Qed.



Example wander_without_path :
  let e' := (updateWandering walledIdleMap 5000 (mkEntity (Some IDLE) [] 1 0) emptyWorld).1 in
  Entity.isMoving e' = false ∧ Entity.path e' = [] ∧
  Entity.nextWanderTime e' = (19000 # 2)%Q.
Proof. vm_compute. done. Qed.

(** X7 (C10). A movement started by the wander controller has the agent's
    current [visualState] as its [targetState]; as long as the agent keeps
    moving, queued requests and ticks do not change that; and the tick on
    which it stops moving (the arrival) leaves [visualState] as it was when
    the wander began while [currentStateStartTime] becomes the time of that
    tick. So a completed wander restarts the minimum display window: with a
    non-empty queue, [processStateQueue] does nothing for the 4000 ms after
    a (non-zero) arrival time. *)
Theorem wander_arrival md Math_sqrt now0 e0 w0 evs T dt :
  Entity.isMoving e0 = false →
  Entity.isMoving (updateWandering md now0 e0 w0).1 = true →
  stays_moving md Math_sqrt evs (updateWandering md now0 e0 w0) →
  let ew2 := run md Math_sqrt evs (updateWandering md now0 e0 w0) in
  let e3 := (updateEntity md Math_sqrt T dt ew2.1 ew2.2).1 in
  Entity.isMoving e3 = false →
  Entity.targetState (updateWandering md now0 e0 w0).1 = Entity.visualState e0 ∧
  Entity.visualState e3 = Entity.visualState e0 ∧
  Entity.currentStateStartTime e3 = T ∧
  (∀ now w, T ≠ 0 → Entity.stateQueue e3 ≠ [] → now - T < 4000 →
            processStateQueue md now e3 w = (e3, w)).
Proof.
  intros Hm0 Hm1 Hstay ew2 e3 Hm3. subst e3.
  destruct (updateWandering_frame md now0 e0 w0) as (Hv & _ & _ & [Hsame|(_ & Ht & _)]).
  { congruence. }
  assert (HW1 : wandering (Entity.visualState e0) (updateWandering md now0 e0 w0).1).
  { by split_and!. }
  pose proof (run_wandering md Math_sqrt _ evs _ HW1 Hstay) as HW2. fold ew2 in HW2.
  destruct (updateEntity_wandering md Math_sqrt _ T dt ew2.1 ew2.2 HW2) as [_ Harr].
  destruct (Harr Hm3) as [Hv3 Hc3].
  split; [done|]. split; [done|]. split; [done|].
  intros now w HT Hq Hel. apply processStateQueue_hold; [done|done|by rewrite Hc3|].
  rewrite Hc3. done.
Qed.

(** An idle agent, shown idle since time 1, wanders at 5000; [CODING] is
    queued at 5100 while it walks (with a [Math_sqrt] that makes every
    waypoint count as reached); it arrives on the tick at 5400 and the
    request queued at 5100 is held at 5500. *)
Lemma wander_arrival_witness :
  let sqrt0 := fun _ : Q => 0%Q in
  let e0 := mkEntity (Some IDLE) [] 1 0 in
  let ew1 := updateWandering corridorMap 5000 e0 quarterWorld in
  let evs := [EvQueue 5100 CODING; EvTick 5200 (1 # 10); EvTick 5300 (1 # 10)] in
  let ew2 := run corridorMap sqrt0 evs ew1 in
  let e3 := (updateEntity corridorMap sqrt0 5400 (1 # 10) ew2.1 ew2.2).1 in
  Entity.targetState ew1.1 = Entity.visualState e0 ∧
  Entity.visualState e3 = Entity.visualState e0 ∧
  Entity.currentStateStartTime e3 = 5400 ∧
  (∀ now w, 5400 ≠ 0 → Entity.stateQueue e3 ≠ [] → now - 5400 < 4000 →
            processStateQueue corridorMap now e3 w = (e3, w)).
Proof.
  refine (wander_arrival corridorMap (fun _ : Q => 0%Q) 5000
            (mkEntity (Some IDLE) [] 1 0) quarterWorld
            [EvQueue 5100 CODING; EvTick 5200 (1 # 10); EvTick 5300 (1 # 10)]
            5400 (1 # 10) _ _ _ _).
  - reflexivity.
  - vm_compute. reflexivity.
  - vm_compute. repeat split.
  - vm_compute. reflexivity.
Defined.

(** The same run, computed: the request queued at 5100 would have been
    served at once had the agent stood still (its state was on display
    since time 1), but after the wander it waits for 4000 ms from 5400. *)
Example wander_delays_queued_state :
  let sqrt0 := fun _ : Q => 0%Q in
  let e0 := mkEntity (Some IDLE) [] 1 0 in
  let ew1 := updateWandering corridorMap 5000 e0 quarterWorld in
  let evs := [EvQueue 5100 CODING; EvTick 5200 (1 # 10); EvTick 5300 (1 # 10)] in
  let ew2 := run corridorMap sqrt0 evs ew1 in
  let ew3 := updateEntity corridorMap sqrt0 5400 (1 # 10) ew2.1 ew2.2 in
  Entity.isMoving ew3.1 = false ∧
  Entity.stateQueue ew3.1 = [{| state := CODING; queuedAt := 5100 |}] ∧
  Entity.isMoving (processStateQueue corridorMap 5500 ew3.1 ew3.2).1 = false ∧
  Entity.isMoving (processStateQueue corridorMap 9400 ew3.1 ew3.2).1 = true ∧
  Entity.isMoving
    (processStateQueue corridorMap 5500 (queueStateChange 5100 CODING e0) quarterWorld).1
    = true.
Proof. vm_compute. done. Qed.

(* ===================================================================== *)
(** * Part V. Further lemmas                                              *)
(* ===================================================================== *)

(** ** A* returns nothing but paths *)

Section SearchSound.
Variable md : MapData.
Variables s goal : Tile.

Import MinHeapOps.

Lemma search_loop_sound fuel : ∀ st u0 p,
  search_inv md s goal u0 [] st →
  search_loop md fuel goal st = Some p → tile_path md s goal p.
Proof.
  induction fuel as [|fuel IH]; intros st u0 p Inv Hrun; [done|].
  rewrite search_loop_S in Hrun.
  destruct (isEmpty (openSet st)) eqn:Hemp; [done|].
  assert (Hne : heap (openSet st) ≠ []).
  { intros H. apply isEmpty_spec in H. congruence. }
  destruct (extractMin_spec (openSet st) (inv_heap _ _ _ _ _ _ Inv) Hne)
    as (u & pu & open' & Hex & Hinv' & Hin & Hmin & Hmem).
  rewrite Hex in Hrun.
  pose proof (proj1 (inv_open _ _ _ _ _ _ Inv u pu) Hin) as (HuC & gu & Hgu & Hpu).
  case_bool_decide as Hug.
  - subst u. destruct (reconstructPath_ok md s goal st u0 [] goal gu Inv Hgu)
      as (p' & Hp' & Hpath & _).
    congruence.
  - pose proof (close_step md s goal st u0 u pu open' Inv Hinv' Hin Hmin Hmem Hug) as Inv1.
    set (st1 := {| openSet := open'; closedSet := {[ u ]} ∪ closedSet st;
                   cameFrom := cameFrom st; gScore := gScore st;
                   fScore := fScore st |}) in *.
    destruct (relax_all md s goal neighbors st1 u) as [Inv2 Hcl].
    { apply elem_of_union. left. by apply elem_of_singleton. }
    { intros d Hd. apply adjacent_neighborTiles. unfold neighborTiles.
      apply (list_elem_of_fmap_2 (fun d : Z * Z => (u.1 + d.1, u.2 + d.2))). done. }
    { done. }
    by apply (IH (foldl (relax md goal u) st1 neighbors) u).
Qed.

End SearchSound.

Lemma findTilePath_sound_path md start goal p :
  findTilePath md start goal = Some p →
  ∃ s g, adjust md start = Some s ∧ adjust md goal = Some g ∧
         shortest_tile_path md s g p.
Proof.
  intros Hrun. pose proof Hrun as Hrun0. unfold findTilePath in Hrun.
  destruct (adjust md goal) as [g|] eqn:Hg; [|done].
  destruct (adjust md start) as [s|] eqn:Hs; [|done].
  exists s, g. split; [done|]. split; [done|].
  assert (Hconn : connected md s g).
  { case_bool_decide as Hsg.
    - subst g. exists [s]. split; [done|]. split; [done|].
      split; [|done]. apply Forall_singleton. by apply (adjust_walkable md start).
    - exists p. apply (search_loop_sound md s g (maxIterations md) (initialSearch s g) s p); [|done].
      apply initialSearch_inv. by apply (adjust_walkable md start). }
  destruct (findTilePath_shortest_path md start goal s g Hs Hg Hconn) as (p' & Hp' & Hsh).
  congruence.
Qed.

(** ** The ring search of [findNearestWalkable] *)

Lemma cheb_nonneg a b : 0 ≤ cheb a b.
Proof. unfold cheb. lia. Qed.

Lemma elem_of_seqZ_iff (m n k : Z) : k ∈ seqZ m n ↔ m ≤ k < m + n.
Proof. apply elem_of_seqZ. Qed.

Lemma ring_offsets_spec R d :
  d ∈ ring_offsets R ↔ 1 ≤ Z.max (Z.abs d.1) (Z.abs d.2) ≤ R.
Proof.
  unfold ring_offsets. rewrite list_elem_of_bind. split.
  - intros (r & Hd & Hr). apply elem_of_seqZ in Hr.
    apply list_elem_of_bind in Hd as (dx & Hd & Hdx). apply elem_of_seqZ in Hdx.
    apply list_elem_of_bind in Hd as (dy & Hd & Hdy). apply elem_of_seqZ in Hdy.
    case_bool_decide as Hc; [by apply elem_of_nil in Hd|].
    apply list_elem_of_singleton in Hd. subst d. simpl. lia.
  - intros Hd. exists (Z.max (Z.abs d.1) (Z.abs d.2)). split; [|apply elem_of_seqZ; lia].
    apply list_elem_of_bind. exists d.1. split; [|apply elem_of_seqZ; lia].
    apply list_elem_of_bind. exists d.2. split; [|apply elem_of_seqZ; lia].
    rewrite bool_decide_eq_false_2 by lia.
    apply list_elem_of_singleton. by destruct d.
Qed.

Lemma find_app_first {A} (P : A → bool) (l1 l2 : list A) :
  List.find P (l1 ++ l2) =
  match List.find P l1 with Some a => Some a | None => List.find P l2 end.
Proof. induction l1 as [|a l1 IH]; [done|]. simpl. by destruct (P a). Qed.

(** A search through rings of growing measure finds an element of the
    smallest measure. *)
Lemma find_bind_sorted {A} (P : A → bool) (m : A → Z) (f : Z → list A) (n : nat) :
  ∀ lo a,
  (∀ r x, x ∈ f r → m x = r) →
  List.find P (seqZ lo (Z.of_nat n) ≫= f) = Some a →
  ∀ b, b ∈ (seqZ lo (Z.of_nat n) ≫= f) → P b = true → m a ≤ m b.
Proof.
  induction n as [|n IH]; intros lo a Hm Hfind b Hb HPb.
  { by apply elem_of_nil in Hb. }
  replace (Z.of_nat (S n)) with (Z.succ (Z.of_nat n)) in * by lia.
  rewrite seqZ_cons in * by lia.
  replace (Z.pred (Z.succ (Z.of_nat n))) with (Z.of_nat n) in * by lia.
  rewrite bind_cons in *.
  rewrite find_app_first in Hfind.
  apply elem_of_app in Hb as [Hb|Hb].
  - destruct (List.find P (f lo)) as [a'|] eqn:Hf.
    + injection Hfind as <-. apply find_some in Hf as [Hin _].
      apply list_elem_of_In in Hin. rewrite (Hm lo a' Hin), (Hm lo b Hb). lia.
    + exfalso. apply list_elem_of_In in Hb.
      pose proof (find_none _ _ Hf b Hb). congruence.
  - destruct (List.find P (f lo)) as [a'|] eqn:Hf.
    + injection Hfind as <-. apply find_some in Hf as [Hin _].
      apply list_elem_of_In in Hin. rewrite (Hm lo a' Hin).
      apply list_elem_of_bind in Hb as (r & Hbr & Hr). apply elem_of_seqZ in Hr.
      rewrite (Hm r b Hbr). lia.
    + by apply (IH (Z.succ lo) a Hm Hfind).
Qed.

Lemma find_map_comp {A B} (P : B → bool) (g : A → B) (l : list A) :
  List.find P (map g l) = option_map g (List.find (fun a => P (g a)) l).
Proof. induction l as [|a l IH]; [done|]. simpl. by destruct (P (g a)). Qed.

Lemma findNearestWalkable_r_Some md x y R t :
  findNearestWalkable_r md x y R = Some t →
  walkable md t ∧ cheb (x, y) t ≤ Z.max 0 R ∧
  ∀ t', walkable md t' → cheb (x, y) t ≤ cheb (x, y) t'.
Proof.
  unfold findNearestWalkable_r. intros Hrun.
  destruct (isTileWalkable md x y) eqn:Hxy.
  { injection Hrun as <-. split; [done|]. unfold cheb. simpl. split; [lia|].
    intros t' _. lia. }
  rewrite find_map_comp in Hrun.
  destruct (List.find _ (ring_offsets R)) as [d|] eqn:Hfind; [|done].
  injection Hrun as <-.
  pose proof (find_some _ _ Hfind) as [Hin Hw]. apply list_elem_of_In in Hin.
  apply ring_offsets_spec in Hin as Hd. simpl in Hw.
  split; [done|].
  assert (Hc : ∀ d' : Z * Z, cheb (x, y) (x + d'.1, y + d'.2)
                 = Z.max (Z.abs d'.1) (Z.abs d'.2)).
  { intros d'. unfold cheb. simpl. lia. }
  split; [rewrite Hc; lia|].
  intros t' Hw'. rewrite Hc.
  destruct (decide (cheb (x, y) t' ≤ R)) as [Hle|]; [|lia].
  set (d' := (t'.1 - x, t'.2 - y)).
  assert (Ht' : t' = (x + d'.1, y + d'.2)).
  { destruct t'. subst d'. simpl. f_equal; lia. }
  rewrite Ht', Hc in Hle |- *.
  assert (Hd'0 : 1 ≤ Z.max (Z.abs d'.1) (Z.abs d'.2)).
  { destruct (decide (Z.max (Z.abs d'.1) (Z.abs d'.2) = 0)) as [H0|]; [|lia].
    exfalso. assert (t' = (x, y)) as ->.
    { rewrite Ht'. f_equal; lia. }
    unfold walkable in Hw'. simpl in Hw'. congruence. }
  assert (0 ≤ R) by lia.
  unfold ring_offsets in Hfind, Hin.
  revert Hfind. rewrite <- (Z2Nat.id R) at 1 by done. intros Hfind.
  pose (ring := fun radius : Z =>
    seqZ (- radius) (2 * radius + 1) ≫= (fun dx : Z =>
    seqZ (- radius) (2 * radius + 1) ≫= (fun dy : Z =>
    if bool_decide (Z.abs dx ≠ radius ∧ Z.abs dy ≠ radius) then [] else [(dx, dy)]))).
  assert (Hm : ∀ (r : Z) (z : Z * Z), z ∈ ring r → Z.max (Z.abs z.1) (Z.abs z.2) = r).
  { intros r z Hz. unfold ring in Hz.
    apply list_elem_of_bind in Hz as (dx & Hz & Hdx). apply elem_of_seqZ in Hdx.
    apply list_elem_of_bind in Hz as (dy & Hz & Hdy). apply elem_of_seqZ in Hdy.
    case_bool_decide as Hcnd; [by apply elem_of_nil in Hz|].
    apply list_elem_of_singleton in Hz. subst z. simpl. lia. }
  apply (find_bind_sorted _ (fun d : Z * Z => Z.max (Z.abs d.1) (Z.abs d.2)) ring
           (Z.to_nat R) 1 d Hm Hfind d').
  - rewrite Z2Nat.id by done. apply ring_offsets_spec. lia.
  - rewrite <- Ht'. done.
Qed.


(** ** Bresenham lines *)

Lemma getLineTiles_loop_king fuel : ∀ x1 y1 dx dy sx sy err x y rx ry,
  0 ≤ rx ≤ dx → 0 ≤ ry ≤ dy →
  (sx = 1 ∨ sx = -1) → (sy = 1 ∨ sy = -1) →
  x1 = x + sx * rx → y1 = y + sy * ry →
  err = dx - dy - dx * ry + dy * rx →
  (Z.to_nat (rx + ry) < fuel)%nat →
  ∃ tiles, getLineTiles_loop fuel x1 y1 dx dy sx sy err x y = Some tiles ∧
           head tiles = Some (x, y) ∧ king_chain tiles ∧
           Forall (fun t : Tile => ∃ a b, 0 ≤ a ≤ rx ∧ 0 ≤ b ≤ ry ∧
                                          t = (x1 - sx * a, y1 - sy * b)) tiles.
Proof.
  induction fuel as [|fuel IH]; intros x1 y1 dx dy sx sy err x y rx ry
    Hrx Hry Hsx Hsy Hx Hy Herr Hfuel; [lia|].
  assert (Hhere : ∃ a b, 0 ≤ a ≤ rx ∧ 0 ≤ b ≤ ry ∧ (x, y) = (x1 - sx * a, y1 - sy * b)).
  { exists rx, ry. split; [lia|]. split; [lia|]. f_equal; lia. }
  simpl.
  destruct ((x =? x1) && (y =? y1)) eqn:Hend.
  { eexists. split; [done|]. split; [done|]. split; [done|].
    by apply Forall_singleton. }
  assert (Hnz : 0 < rx ∨ 0 < ry).
  { apply andb_false_iff in Hend as [H%Z.eqb_neq|H%Z.eqb_neq]; [left|right]; nia. }
  assert (Hweak : ∀ rx' ry' (tiles : list Tile), rx' ≤ rx → ry' ≤ ry →
    Forall (fun t : Tile => ∃ a b, 0 ≤ a ≤ rx' ∧ 0 ≤ b ≤ ry' ∧
                                   t = (x1 - sx * a, y1 - sy * b)) tiles →
    Forall (fun t : Tile => ∃ a b, 0 ≤ a ≤ rx ∧ 0 ≤ b ≤ ry ∧
                                   t = (x1 - sx * a, y1 - sy * b)) tiles).
  { intros rx' ry' tiles H1 H2 HF. eapply Forall_impl; [exact HF|]. simpl.
    intros t (a & b & Ha & Hb & Ht). exists a, b. split; [lia|]. split; [lia|done]. }
  destruct (- dy <? 2 * err) eqn:Hxs; destruct (2 * err <? dx) eqn:Hys;
    rewrite ?Z.ltb_lt, ?Z.ltb_ge in Hxs, Hys.
  - assert (0 < rx) by nia. assert (0 < ry) by nia.
    destruct (IH x1 y1 dx dy sx sy (err - dy + dx) (x + sx) (y + sy) (rx - 1) (ry - 1))
      as (tiles & -> & Hh & Hk & Hb); try lia; try nia.
    eexists. split; [done|]. split; [done|]. split.
    + destruct tiles as [|t tiles]; [done|]. injection Hh as ->.
      split; [|done]. unfold cheb. simpl. lia.
    + apply Forall_cons. split; [done|]. apply (Hweak (rx - 1) (ry - 1)); [lia|lia|done].
  - assert (0 < rx) by nia.
    destruct (IH x1 y1 dx dy sx sy (err - dy) (x + sx) y (rx - 1) ry)
      as (tiles & -> & Hh & Hk & Hb); try lia; try nia.
    eexists. split; [done|]. split; [done|]. split.
    + destruct tiles as [|t tiles]; [done|]. injection Hh as ->.
      split; [|done]. unfold cheb. simpl. lia.
    + apply Forall_cons. split; [done|]. apply (Hweak (rx - 1) ry); [lia|lia|done].
  - assert (0 < ry) by nia.
    destruct (IH x1 y1 dx dy sx sy (err + dx) x (y + sy) rx (ry - 1))
      as (tiles & -> & Hh & Hk & Hb); try lia; try nia.
    eexists. split; [done|]. split; [done|]. split.
    + destruct tiles as [|t tiles]; [done|]. injection Hh as ->.
      split; [|done]. unfold cheb. simpl. lia.
    + apply Forall_cons. split; [done|]. apply (Hweak rx (ry - 1)); [lia|lia|done].
  - exfalso. nia.
Qed.

Lemma getLineTiles_king x0 y0 x1 y1 tiles :
  getLineTiles x0 y0 x1 y1 = Some tiles →
  king_chain tiles ∧ Forall (in_box (x0, y0) (x1, y1)) tiles.
Proof.
  intros Hrun. unfold getLineTiles in Hrun.
  destruct (getLineTiles_loop_king (S (Z.to_nat (Z.abs (x1 - x0) + Z.abs (y1 - y0))))
              x1 y1 (Z.abs (x1 - x0)) (Z.abs (y1 - y0))
              (if x0 <? x1 then 1 else -1) (if y0 <? y1 then 1 else -1)
              (Z.abs (x1 - x0) - Z.abs (y1 - y0)) x0 y0
              (Z.abs (x1 - x0)) (Z.abs (y1 - y0)))
    as (tiles' & Hrun' & _ & Hk & Hb).
  - lia.
  - lia.
  - destruct (x0 <? x1); auto.
  - destruct (y0 <? y1); auto.
  - destruct (x0 <? x1) eqn:H; rewrite ?Z.ltb_lt, ?Z.ltb_ge in H; lia.
  - destruct (y0 <? y1) eqn:H; rewrite ?Z.ltb_lt, ?Z.ltb_ge in H; lia.
  - lia.
  - lia.
  - rewrite Hrun in Hrun'. injection Hrun' as <-. split; [done|].
    eapply Forall_impl; [exact Hb|].
    intros t (a & b & Ha & Hb' & ->). unfold in_box. simpl.
    destruct (x0 <? x1) eqn:H1; destruct (y0 <? y1) eqn:H2;
      rewrite ?Z.ltb_lt, ?Z.ltb_ge in H1, H2; lia.
Qed.

(** ** Smoothing keeps waypoints in order *)

Lemma smoothPath_loop_sublist md path : ∀ fuel current smoothed,
  (current < length path)%nat →
  smoothed `sublist_of` take (S current) path →
  smoothPath_loop md fuel path current smoothed `sublist_of` path.
Proof.
  induction fuel as [|fuel IH]; intros current smoothed Hc Hsub; simpl.
  { etrans; [exact Hsub|]. apply sublist_take. }
  destruct (current <? length path - 1)%nat eqn:Hlt.
  2:{ etrans; [exact Hsub|]. apply sublist_take. }
  apply Nat.ltb_lt in Hlt.
  destruct (furthestVisible_spec md path current) as [[Hf1 Hf2] _]; [lia|].
  set (f := furthestVisible md path current) in *.
  apply IH; [done|].
  destruct (lookup_lt_is_Some_2 path f Hf2) as [x Hx].
  rewrite (list_lookup_total_correct _ _ _ Hx).
  rewrite (take_S_r _ _ _ Hx).
  apply sublist_app; [|done].
  etrans; [exact Hsub|].
  replace (take (S current) path) with (take (S current) (take f path)).
  - apply sublist_take.
  - rewrite take_take. f_equal. lia.
Qed.

Lemma smoothPath_sublist_of md path : smoothPath md path `sublist_of` path.
Proof.
  unfold smoothPath. destruct (length path <? 3)%nat eqn:Hlen; [done|].
  apply Nat.ltb_ge in Hlen.
  destruct path as [|a path]; [simpl in Hlen; lia|].
  apply smoothPath_loop_sublist; [simpl; lia|]. done.
Qed.

(** ** Heap compositions *)

Section HeapMore.
Import MinHeapOps.

Lemma insertAll_spec l : ∀ h,
  heap_inv h → NoDup (l.*1) →
  (∀ kp, kp ∈ l → has h kp.1 = false) →
  heap_inv (insertAll l h) ∧
  ∀ e, e ∈ heap (insertAll l h) ↔
       (node e, priority e) ∈ l ∨ e ∈ heap h.
Proof.
  induction l as [|[k p] l IH]; intros h Hinv Hnd Hfresh.
  { simpl. split; [done|]. intros e. split; [by right|].
    intros [H|H]; [by apply elem_of_nil in H|done]. }
  simpl in Hnd. apply NoDup_cons in Hnd as [Hk Hnd].
  destruct (insert_spec h k p Hinv) as [Hinv1 Hmem1].
  { apply (Hfresh (k, p)). by left. }
  destruct (IH (insert k p h) Hinv1 Hnd) as [Hinv2 Hmem2].
  { intros [k' p'] Hin. simpl.
    destruct (has (insert k p h) k') eqn:Hhas; [|done]. exfalso.
    apply has_spec in Hhas as [q Hq]; [|apply Hinv1].
    apply Hmem1 in Hq as [Hq|Hq].
    - injection Hq as -> ->. apply Hk.
      apply list_elem_of_fmap. by exists (k, p').
    - assert (has h k' = true) as Hh.
      { apply has_spec; [apply Hinv|]. by exists q. }
      pose proof (Hfresh (k', p') ltac:(by right)) as Hf. simpl in Hf. congruence. }
  split; [exact Hinv2|].
  intros e. change (insertAll ((k, p) :: l) h) with (insertAll l (insert k p h)).
  rewrite Hmem2, Hmem1. split.
  - intros [H|[->|H]]; [left; by right|left; by left|by right].
  - intros [H|H]; [|by right; right].
    apply elem_of_cons in H as [H|H]; [|by left].
    right; left. destruct e. simpl in H. by injection H as -> ->.
Qed.

End HeapMore.

Lemma has_empty k : MinHeapOps.has MinHeapOps.empty k = false.
Proof.
  destruct (MinHeapOps.has MinHeapOps.empty k) eqn:H; [|done].
  apply has_spec in H as [p Hp]; [|apply heap_inv_empty].
  by apply elem_of_nil in Hp.
Qed.

Lemma insertAll_empty_spec l :
  NoDup (l.*1) →
  heap_inv (insertAll l MinHeapOps.empty) ∧
  ∀ e, e ∈ heap (insertAll l MinHeapOps.empty) ↔ (node e, priority e) ∈ l.
Proof.
  intros Hnd.
  destruct (insertAll_spec l MinHeapOps.empty heap_inv_empty Hnd) as [Hinv Hmem].
  { intros kp _. apply has_empty. }
  split; [done|]. intros e. rewrite Hmem. split; [|by left].
  intros [H|H]; [done|]. by apply elem_of_nil in H.
Qed.

(** ** Occupancy tables: further lemmas *)

Lemma prefix_app (a b : string) : String.prefix a (a +:+ b) = true.
Proof.
  induction a as [|c a IH]; [by destruct b|].
  change (String c a +:+ b) with (String c (a +:+ b)). simpl.
  destruct (Ascii.ascii_dec c c); [done|congruence].
Qed.

Lemma string_app_assoc (a b c : string) : (a +:+ b) +:+ c = a +:+ (b +:+ c).
Proof.
  induction a as [|x a IH]; [done|].
  change (String x ((a +:+ b) +:+ c) = String x (a +:+ (b +:+ c))). by rewrite IH.
Qed.

Lemma isZoneOccupied_false tb w :
  isZoneOccupied tb w = false ↔ zoneAssignments tb !! w = None.
Proof.
  unfold isZoneOccupied. rewrite bool_decide_eq_false.
  rewrite <- eq_None_not_Some. done.
Qed.

Lemma getAssignedZone_no_key md tb e zt :
  entityZoneMap tb !! assignmentKey e zt = None → getAssignedZone md tb e zt = None.
Proof. unfold getAssignedZone. by intros ->. Qed.

(** What [assignWorkstation] does for an entity without an entry. *)
Lemma assignWorkstation_fresh md tb e :
  entityZoneMap tb !! wsKey e = None →
  (∃ ws, assignWorkstation md e tb =
           (Some ws,
            {| zoneAssignments := <[Zone.id ws := e]> (zoneAssignments tb);
               entityZoneMap := <[wsKey e := Zone.id ws]> (entityZoneMap tb) |}) ∧
         ws ∈ workstations md ∧ zoneAssignments tb !! Zone.id ws = None) ∨
  (assignWorkstation md e tb = (None, tb) ∧
   ∀ ws, ws ∈ workstations md → isZoneOccupied tb (Zone.id ws) = true).
Proof.
  intros Hkey. unfold assignWorkstation.
  rewrite (getAssignedZone_no_key md tb e Tworkstations Hkey).
  destruct (List.find _ (workstations md)) as [ws|] eqn:Hfind.
  - left. exists ws. split; [done|].
    apply find_some in Hfind as [Hin Hfree]. apply list_elem_of_In in Hin.
    split; [done|]. apply isZoneOccupied_false. by apply negb_true_iff.
  - right. split; [done|]. intros ws Hin. apply list_elem_of_In in Hin.
    pose proof (find_none _ _ Hfind ws Hin) as H. by apply negb_false_iff in H.
Qed.

Lemma filter_length_same {A} (P P' : A → bool) (l : list A) :
  (∀ z, z ∈ l → P' z = P z) →
  length (filter (fun z => P' z = true) l) = length (filter (fun z => P z = true) l).
Proof.
  induction l as [|z l IH]; intros Hall; [done|].
  rewrite !filter_cons. rewrite (Hall z) by by left.
  specialize (IH (fun x Hx => Hall x ltac:(by right))).
  destruct (decide (P z = true)); simpl; by rewrite IH.
Qed.

Lemma filter_length_one_more (P P' : Zone.t → bool) (l : list Zone.t) z0 :
  NoDup (map Zone.id l) → z0 ∈ l → P z0 = false →
  (∀ z, P' z = P z || bool_decide (Zone.id z = Zone.id z0)) →
  length (filter (fun z => P' z = true) l) = S (length (filter (fun z => P z = true) l)).
Proof.
  intros Hnd Hin HP0 HP'.
  induction l as [|z l IH]; [by apply elem_of_nil in Hin|].
  simpl in Hnd. apply NoDup_cons in Hnd as [Hz Hnd].
  rewrite !filter_cons.
  destruct (decide (Zone.id z = Zone.id z0)) as [Hid|Hid].
  - assert (z0 = z) as ->.
    { apply elem_of_cons in Hin as [->|Hin]; [done|]. exfalso. apply Hz.
      rewrite Hid. apply list_elem_of_fmap. by exists z0. }
    rewrite decide_True by (rewrite HP'; rewrite bool_decide_eq_true_2 by done;
                            by rewrite orb_true_r).
    rewrite decide_False by congruence. simpl. f_equal.
    apply filter_length_same. intros x Hx.
    rewrite HP'. rewrite bool_decide_eq_false_2; [by rewrite orb_false_r|].
    intros Hxz. apply Hz. rewrite <- Hxz. apply list_elem_of_fmap. by exists x.
  - apply elem_of_cons in Hin as [->|Hin]; [done|].
    specialize (IH Hnd Hin).
    assert (HPz : P' z = P z).
    { rewrite HP'. rewrite bool_decide_eq_false_2 by done. by rewrite orb_false_r. }
    destruct (P z) eqn:HPzv.
    + rewrite !decide_True by congruence. simpl. by rewrite IH.
    + rewrite !decide_False by congruence. done.
Qed.

Lemma filter_length_all {A} (P : A → bool) (l : list A) :
  (∀ z, z ∈ l → P z = true) → length (filter (fun z => P z = true) l) = length l.
Proof.
  induction l as [|z l IH]; intros Hall; [done|].
  rewrite filter_cons, decide_True by (apply Hall; by left).
  simpl. rewrite IH; [done|]. intros x Hx. apply Hall. by right.
Qed.

Lemma filter_length_some_not {A} (P : A → bool) (l : list A) z :
  z ∈ l → P z = false → (length (filter (fun z => P z = true) l) < length l)%nat.
Proof.
  intros Hin HP. induction l as [|x l IH]; [by apply elem_of_nil in Hin|].
  rewrite filter_cons. pose proof (length_filter (fun z => P z = true) l) as Hle.
  apply elem_of_cons in Hin as [->|Hin].
  - rewrite decide_False by congruence. simpl. lia.
  - specialize (IH Hin). destruct (decide (P x = true)); simpl; lia.
Qed.

Lemma clearEntityAssignments_lookup md tb e w e' :
  tables_consistent md tb →
  zoneAssignments (clearEntityAssignments e tb) !! w = Some e' ↔
  zoneAssignments tb !! w = Some e' ∧ String.prefix (e +:+ ":") (wsKey e') = false.
Proof.
  intros Hc. unfold clearEntityAssignments. cbn [zoneAssignments].
  rewrite (foldr_delete_lookup snd). case_decide as Hd.
  - split; [done|]. intros [Hw Hp]. exfalso.
    apply list_elem_of_fmap in Hd as ([k w'] & Hw' & Hin). simpl in Hw'. subst w'.
    apply keysToDelete_spec in Hin as [Hkw Hpre].
    destruct (tc_keys _ _ Hc _ _ Hkw) as [e'' ->].
    apply (tc_iff _ _ Hc) in Hkw. congruence.
  - split; [|by intros [? _]]. intros Hw. split; [done|].
    destruct (String.prefix (e +:+ ":") (wsKey e')) eqn:Hpre; [|done].
    exfalso. apply Hd. apply list_elem_of_fmap. exists (wsKey e', w). split; [done|].
    apply keysToDelete_spec. split; [|done]. by apply (tc_iff _ _ Hc).
Qed.

(** ** Movement and wandering: further lemmas *)


Lemma Qltb_true a b : Qltb a b = true ↔ (a < b)%Q.
Proof.
  unfold Qltb. rewrite negb_true_iff. split.
  - intros H. apply Qnot_le_lt. intros Hle. apply Qle_bool_iff in Hle. congruence.
  - intros H. destruct (Qle_bool b a) eqn:Hb; [|done].
    apply Qle_bool_iff in Hb. exfalso. by apply (Qlt_not_le _ _ H).
Qed.


(** ** The client's entity store *)

Section StoreProofs.
Variable md : MapData.
Variables pixelWidth pixelHeight : Q.

Lemma createEntity_id now data w :
  Entity.id (createEntity md pixelWidth pixelHeight now data w).1 = entity_id data.
Proof. done. Qed.

Lemma store_ok_insert st id e :
  store_ok st → Entity.id e = id →
  store_ok {| entities := <[id := e]> (entities st);
              spawnOrder := spawnOrder st ++ [id];
              selectedEntityId := selectedEntityId st |}.
Proof.
  intros [Ha Hb] He. split; cbn [entities spawnOrder].
  - intros id'. rewrite elem_of_app, list_elem_of_singleton, lookup_insert_is_Some, Ha.
    destruct (decide (id = id')) as [->|Hne]; [tauto|]. split.
    + intros [H|H]; [by right|congruence].
    + intros [H|[_ H]]; [congruence|by left].
  - intros id' e'. destruct (decide (id = id')) as [->|Hne].
    + rewrite lookup_insert_eq. by intros [= <-].
    + rewrite lookup_insert_ne by done. apply Hb.
Qed.

Lemma store_ok_ext st st' :
  entities st' = entities st → spawnOrder st' = spawnOrder st →
  store_ok st → store_ok st'.
Proof. intros He Ho [Ha Hb]. split; rewrite He, ?Ho; done. Qed.

Lemma handleEntitySpawned_ok now id appearance st w :
  store_ok st →
  store_ok (handleEntitySpawned md pixelWidth pixelHeight now id appearance st w).1 ∧
  selection_ok (handleEntitySpawned md pixelWidth pixelHeight now id appearance st w).1.
Proof.
  intros Hok. unfold handleEntitySpawned, bind, ret.
  destruct (createEntity md pixelWidth pixelHeight now _ w) as [e w1] eqn:He.
  assert (Hid : Entity.id e = id).
  { change e with (e, w1).1. rewrite <- He. apply createEntity_id. }
  cbn [fst]. split.
  - eapply store_ok_ext; [| |apply (store_ok_insert st id e Hok Hid)]; done.
  - intros id' [= <-]. cbn [entities]. rewrite lookup_insert_eq. by eexists.
Qed.

Lemma handleEntityDespawned_fields id st w :
  entities (handleEntityDespawned id st w).1 = delete id (entities st) ∧
  spawnOrder (handleEntityDespawned id st w).1 = filter (fun i => i ≠ id) (spawnOrder st) ∧
  selectedEntityId (handleEntityDespawned id st w).1 =
    (if bool_decide (selectedEntityId st = Some id)
     then last (filter (fun i => i ≠ id) (spawnOrder st))
     else selectedEntityId st) ∧
  tables (handleEntityDespawned id st w).2 =
    match entities st !! id with
    | Some entity => cleanupEntity entity (tables w)
    | None => tables w
    end.
Proof.
  unfold handleEntityDespawned, bind, ret.
  destruct (entities st !! id) as [e|]; done.
Qed.

Lemma handleEntityDespawned_ok id st w :
  store_ok st →
  store_ok (handleEntityDespawned id st w).1 ∧
  (selection_ok st → selection_ok (handleEntityDespawned id st w).1).
Proof.
  intros [Ha Hb].
  destruct (handleEntityDespawned_fields id st w) as (He & Ho & Hs & _).
  assert (Hok : store_ok (handleEntityDespawned id st w).1).
  { split; rewrite He.
    - intros id'. rewrite Ho, list_elem_of_filter, lookup_delete_is_Some, Ha.
      split; intros [? ?]; done.
    - intros id' e. rewrite lookup_delete_Some. intros [_ H]. by apply Hb. }
  split; [done|]. intros Hsel id' Hid'. rewrite Hs in Hid'. rewrite He.
  apply lookup_delete_is_Some.
  case_bool_decide as Hc.
  - assert (Hin : id' ∈ filter (fun i => i ≠ id) (spawnOrder st)).
    { apply last_Some in Hid' as [l' ->]. apply elem_of_app. right. by left. }
    apply list_elem_of_filter in Hin as [Hne Hin]. split; [done|]. by apply Ha.
  - split; [congruence|]. by apply Hsel.
Qed.

Lemma handleEntityState_ok now id s st :
  store_ok st →
  store_ok (handleEntityState now id s st) ∧
  (selection_ok st → selection_ok (handleEntityState now id s st)).
Proof.
  intros [Ha Hb]. unfold handleEntityState.
  destruct (entities st !! id) as [e|] eqn:He; [|done].
  split; [split|]; cbn [entities spawnOrder selectedEntityId].
  - intros id'. rewrite lookup_insert_is_Some, Ha.
    destruct (decide (id = id')) as [->|Hne]; [|tauto].
    split; [by left|]. intros _. by eexists.
  - intros id' e'. destruct (decide (id = id')) as [->|Hne].
    + rewrite lookup_insert_eq. intros [= <-].
      change (Entity.id e = id'). by apply Hb.
    + rewrite lookup_insert_ne by done. apply Hb.
  - intros Hsel id' Hid'. apply lookup_insert_is_Some.
    destruct (decide (id = id')); [by left|right]. split; [done|]. by apply Hsel.
Qed.

Lemma addFromFullState_ok now st data w :
  store_ok st → store_ok (addFromFullState md pixelWidth pixelHeight now st data w).1.
Proof.
  intros Hok. unfold addFromFullState, bind, ret.
  destruct (createEntity md pixelWidth pixelHeight now data w) as [e w1] eqn:He.
  assert (Hid : Entity.id e = entity_id data).
  { change e with (e, w1).1. rewrite <- He. apply createEntity_id. }
  cbn [fst]. apply store_ok_insert; [done|].
  destruct (data_state data) as [s|]; [|done]. by case_bool_decide.
Qed.

Lemma forEachM_ok now datas : ∀ st w,
  store_ok st →
  store_ok (forEachM (addFromFullState md pixelWidth pixelHeight now) datas st w).1.
Proof.
  induction datas as [|d datas IH]; intros st w Hok; [done|].
  cbn [forEachM]. unfold bind.
  destruct (addFromFullState md pixelWidth pixelHeight now st d w) as [st1 w1] eqn:H1.
  apply IH. change st1 with (st1, w1).1. rewrite <- H1. by apply addFromFullState_ok.
Qed.

Lemma handleFullState_ok now datas st w :
  store_ok (handleFullState md pixelWidth pixelHeight now datas st w).1.
Proof.
  unfold handleFullState, bind. apply forEachM_ok.
  split; cbn [entities spawnOrder].
  - intros id. rewrite lookup_empty. split; [by intros ?%elem_of_nil|by intros [? ?]].
  - intros id e. by rewrite lookup_empty.
Qed.

Lemma handleMessage_ok now m st w :
  store_ok st →
  store_ok (handleMessage md pixelWidth pixelHeight now m st w).1 ∧
  (isFullState m = false → selection_ok st →
   selection_ok (handleMessage md pixelWidth pixelHeight now m st w).1).
Proof.
  intros Hok. destruct m as [datas|id app|id|id s|id d]; cbn [handleMessage isFullState].
  - split; [apply handleFullState_ok|done].
  - destruct (handleEntitySpawned_ok now id app st w Hok) as [H1 H2]. by split.
  - destruct (handleEntityDespawned_ok id st w Hok) as [H1 H2]. split; [done|]. auto.
  - destruct (handleEntityState_ok now id s st Hok) as [H1 H2]. split; [done|]. auto.
  - done.
Qed.

Lemma runMessages_ok msgs : ∀ sw,
  store_ok sw.1 →
  store_ok (runMessages md pixelWidth pixelHeight msgs sw).1 ∧
  (forallb (fun m : Z * Message => negb (isFullState m.2)) msgs = true →
   selection_ok sw.1 →
   selection_ok (runMessages md pixelWidth pixelHeight msgs sw).1).
Proof.
  induction msgs as [|[now m] msgs IH]; intros sw Hok; [done|].
  cbn [runMessages foldl fst snd].
  destruct (handleMessage_ok now m sw.1 sw.2 Hok) as [H1 H2].
  destruct (IH _ H1) as [H3 H4]. split; [exact H3|].
  cbn [forallb fst snd]. rewrite andb_true_iff, negb_true_iff.
  intros [Hm Hrest] Hsel. apply H4; [done|]. by apply H2.
Qed.

End StoreProofs.

(** ** The spawn scan *)


Section SpawnProofs.
Variable md : MapData.




End SpawnProofs.

(* ===================================================================== *)
(** * Part VI. Further properties of the code                             *)
(* ===================================================================== *)

(** ** pathfinding.js *)

(** X8. Whatever [findTilePath] returns is a path: if the result is a
    list of tiles, then both endpoints could be adjusted to walkable
    tiles, the list runs from the adjusted start to the adjusted goal over
    4-adjacent walkable tiles, and no such path has fewer tiles. No
    connectivity is assumed. *)
Theorem findTilePath_sound md start goal p :
  findTilePath md start goal = Some p →
  ∃ s g, adjust md start = Some s ∧ adjust md goal = Some g ∧
         tile_path md s g p ∧
         ∀ q, tile_path md s g q → (length p ≤ length q)%nat.
Proof.
  intros Hrun.
  destruct (findTilePath_sound_path md start goal p Hrun) as (s & g & Hs & Hg & Hp & Hmin).
  exists s, g. done.
Qed.

Lemma findTilePath_sound_witness :
  ∃ s g, adjust corridorMap (0, 0) = Some s ∧ adjust corridorMap (7, 0) = Some g ∧
         tile_path corridorMap s g [(0, 0); (1, 0); (2, 0)] ∧
         ∀ q, tile_path corridorMap s g q → (3 ≤ length q)%nat.
Proof.
  apply (findTilePath_sound corridorMap (0, 0) (7, 0) [(0, 0); (1, 0); (2, 0)]).
  vm_compute. reflexivity.
Defined.


(** X10. The tile [findNearestWalkable] returns is walkable, lies at most
    5 rings (Chebyshev distance) from the requested tile, and no walkable
    tile of the map lies on a nearer ring. *)
Theorem findNearestWalkable_nearest md tileX tileY t :
  findNearestWalkable md tileX tileY = Some t →
  walkable md t ∧ cheb (tileX, tileY) t ≤ 5 ∧
  ∀ t', walkable md t' → cheb (tileX, tileY) t ≤ cheb (tileX, tileY) t'.
Proof. apply findNearestWalkable_r_Some. Qed.

Lemma findNearestWalkable_nearest_witness :
  walkable corridorMap (2, 0) ∧ cheb (5, 0) (2, 0) ≤ 5 ∧
  ∀ t', walkable corridorMap t' → cheb (5, 0) (2, 0) ≤ cheb (5, 0) t'.
Proof.
  apply (findNearestWalkable_nearest corridorMap 5 0 (2, 0)).
  vm_compute. reflexivity.
Defined.


(** X12. Every waypoint list [findPath] returns is non-empty, starts at
    the center of the adjusted start tile and ends at the center of the
    adjusted goal tile, has all its waypoints on walkable pixels, and every
    two consecutive waypoints see each other ([hasLineOfSight]). *)
Theorem findPath_waypoints md startX startY goalX goalY wps :
  0 < tileWidth md → 0 < tileHeight md →
  findPath md startX startY goalX goalY = Some wps →
  ∃ s g,
    adjust md (pixelToTile md startX startY) = Some s ∧
    adjust md (pixelToTile md goalX goalY) = Some g ∧
    head wps = Some (tileToPixel md s.1 s.2) ∧
    last wps = Some (tileToPixel md g.1 g.2) ∧
    Forall (fun p => isPixelWalkable md (Point.x p) (Point.y p) = true) wps ∧
    los_chain md wps.
Proof.
  intros Hw Hh Hrun. unfold findPath in Hrun.
  destruct (findTilePath md _ _) as [p|] eqn:Hp; [|done]. injection Hrun as <-.
  destruct (findTilePath_sound_path md _ _ p Hp) as (s & g & Hs & Hg & Hpath & _).
  destruct Hpath as (Hhd & Hlast & Hwalk & Hchain).
  exists s, g. split; [done|]. split; [done|].
  split; [|split; [|split]].
  - destruct p; [done|]. simpl in *. by injection Hhd as ->.
  - change (map ?f p) with (f <$> p). by rewrite fmap_last, Hlast.
  - apply Forall_fmap. eapply Forall_impl; [exact Hwalk|].
    intros t Ht.
    change (isPixelWalkable md (Point.x (tileToPixel md t.1 t.2))
              (Point.y (tileToPixel md t.1 t.2)) = true).
    unfold isPixelWalkable. cbv zeta.
    rewrite pixelToTile_tileToPixel by done. exact Ht.
  - by apply (tileCenters_los md p).
Qed.

Lemma findPath_waypoints_witness :
  ∃ s g,
    adjust corridorMap (pixelToTile corridorMap 10 10) = Some s ∧
    adjust corridorMap (pixelToTile corridorMap 130 40) = Some g ∧
    head [Point.mk (48 # 2) (48 # 2); Point.mk (144 # 2) (48 # 2); Point.mk (240 # 2) (48 # 2)]
      = Some (tileToPixel corridorMap s.1 s.2) ∧
    last [Point.mk (48 # 2) (48 # 2); Point.mk (144 # 2) (48 # 2); Point.mk (240 # 2) (48 # 2)]
      = Some (tileToPixel corridorMap g.1 g.2) ∧
    Forall (fun p => isPixelWalkable corridorMap (Point.x p) (Point.y p) = true)
           [Point.mk (48 # 2) (48 # 2); Point.mk (144 # 2) (48 # 2); Point.mk (240 # 2) (48 # 2)] ∧
    los_chain corridorMap [Point.mk (48 # 2) (48 # 2); Point.mk (144 # 2) (48 # 2); Point.mk (240 # 2) (48 # 2)].
Proof.
  apply (findPath_waypoints corridorMap 10 10 130 40).
  - reflexivity.
  - reflexivity.
  - vm_compute. reflexivity.
Defined.

(** X13. The binary heap hands out a minimum: after any list of entries
    with pairwise different nodes has been inserted into an empty heap,
    [extractMin] returns a node whose priority is the least of the list,
    and the heap that remains holds exactly the other nodes. *)
Theorem heap_extractMin_of_inserted (l : list (Tile * Z)) :
  NoDup (l.*1) → l ≠ [] →
  ∃ m pm h',
    MinHeapOps.extractMin (insertAll l MinHeapOps.empty) = (Some m, h') ∧
    (m, pm) ∈ l ∧
    (∀ kp, kp ∈ l → pm ≤ kp.2) ∧
    ∀ k, MinHeapOps.has h' k = true ↔ k ∈ l.*1 ∧ k ≠ m.
Proof.
  intros Hnd Hne.
  destruct (insertAll_empty_spec l Hnd) as [Hinv Hmem].
  destruct (extractMin_spec _ Hinv) as (m & pm & h' & Hex & Hinv' & Hin & Hmin & Hmem').
  { destruct l as [|[k p] l]; [done|]. intros Hnil.
    assert (H : {| node := k; priority := p |} ∈ heap (insertAll ((k, p) :: l) MinHeapOps.empty)).
    { apply Hmem. by left. }
    rewrite Hnil in H. by apply elem_of_nil in H. }
  exists m, pm, h'. split; [done|]. split; [by apply Hmem in Hin|]. split.
  - intros [k p] Hkp. apply (Hmin {| node := k; priority := p |}). by apply Hmem.
  - intros k. rewrite has_spec by apply Hinv'. split.
    + intros [p Hp]. apply Hmem' in Hp as [Hp Hk]. apply Hmem in Hp.
      split; [|done]. apply list_elem_of_fmap. by exists (k, p).
    + intros [Hk Hkm]. apply list_elem_of_fmap in Hk as ([k' p] & -> & Hkp).
      exists p. apply Hmem'. split; [by apply Hmem|done].
Qed.

Lemma heap_extractMin_of_inserted_witness :
  ∃ m pm h',
    MinHeapOps.extractMin
      (insertAll [((0, 0), 5); ((1, 0), 3); ((2, 0), 4)] MinHeapOps.empty) = (Some m, h') ∧
    (m, pm) ∈ [((0, 0), 5); ((1, 0), 3); ((2, 0), 4)] ∧
    (∀ kp, kp ∈ [((0, 0), 5); ((1, 0), 3); ((2, 0), 4)] → pm ≤ kp.2) ∧
    ∀ k, MinHeapOps.has h' k = true ↔
         k ∈ [((0, 0), 5); ((1, 0), 3); ((2, 0), 4)].*1 ∧ k ≠ m.
Proof.
  apply (heap_extractMin_of_inserted [((0, 0), 5); ((1, 0), 3); ((2, 0), 4)]).
  - apply (bool_decide_unpack _). vm_compute. reflexivity.
  - discriminate.
Defined.

(** X14. [decreaseKey] brings a node to the front: in a heap filled by
    [insert] calls with pairwise different nodes, lowering the priority of
    a node below every other priority makes the next [extractMin] return
    that node. *)
Theorem heap_decreaseKey_then_extractMin (l : list (Tile * Z)) k p0 p :
  NoDup (l.*1) → (k, p0) ∈ l → p ≤ p0 →
  (∀ kp, kp ∈ l → kp.1 ≠ k → p < kp.2) →
  ∃ h', MinHeapOps.extractMin
          (MinHeapOps.decreaseKey k p (insertAll l MinHeapOps.empty)) = (Some k, h').
Proof.
  intros Hnd Hk Hp Hlow.
  destruct (insertAll_empty_spec l Hnd) as [Hinv Hmem].
  destruct (decreaseKey_spec _ k p p0 Hinv) as [Hinv1 Hmem1]; [by apply Hmem|done|].
  assert (Hkin : {| node := k; priority := p |}
                   ∈ heap (MinHeapOps.decreaseKey k p (insertAll l MinHeapOps.empty))).
  { apply Hmem1. by left. }
  destruct (extractMin_spec _ Hinv1) as (m & pm & h' & Hex & _ & Hin & Hmin & _).
  { intros Hnil. rewrite Hnil in Hkin. by apply elem_of_nil in Hkin. }
  exists h'. rewrite Hex. f_equal. f_equal.
  apply Hmem1 in Hin as [Heq|[Hin Hne]]; [by injection Heq|].
  exfalso. apply Hmem in Hin. simpl in *.
  pose proof (Hlow (m, pm) Hin Hne) as H1. simpl in H1.
  pose proof (Hmin _ Hkin) as H2. simpl in H2. lia.
Qed.

Lemma heap_decreaseKey_then_extractMin_witness :
  ∃ h', MinHeapOps.extractMin
          (MinHeapOps.decreaseKey (0, 0) 1
             (insertAll [((0, 0), 5); ((1, 0), 3); ((2, 0), 4)] MinHeapOps.empty))
        = (Some (0, 0), h').
Proof.
  apply (heap_decreaseKey_then_extractMin
           [((0, 0), 5); ((1, 0), 3); ((2, 0), 4)] (0, 0) 5 1).
  - apply (bool_decide_unpack _). vm_compute. reflexivity.
  - apply (bool_decide_unpack _). vm_compute. reflexivity.
  - lia.
  - intros kp Hkp Hne. apply list_elem_of_In in Hkp. simpl in Hkp.
    destruct Hkp as [<-|[<-|[<-|[]]]]; simpl in *; [congruence|lia|lia].
Defined.

(** X15. The Bresenham loop of [getLineTiles] always ends: for any two
    tiles it returns a list that starts at the first tile and ends at the
    second, in which consecutive tiles are neighbours (diagonal steps
    included), and which stays inside the rectangle spanned by the two
    tiles. *)
Theorem getLineTiles_line x0 y0 x1 y1 :
  ∃ tiles, getLineTiles x0 y0 x1 y1 = Some tiles ∧
           head tiles = Some (x0, y0) ∧ last tiles = Some (x1, y1) ∧
           king_chain tiles ∧ Forall (in_box (x0, y0) (x1, y1)) tiles.
Proof.
  destruct (getLineTiles_total x0 y0 x1 y1) as (tiles & Hrun & Hh & Hl).
  destruct (getLineTiles_king x0 y0 x1 y1 tiles Hrun) as [Hk Hb].
  exists tiles. done.
Qed.

(** X16. Line of sight implies walkable endpoints: [hasLineOfSight]
    answers [true] only if the pixel it looks from and the pixel it looks
    at are both walkable. *)
Theorem hasLineOfSight_endpoints md (from to : Point.t) :
  hasLineOfSight md from to = true →
  isPixelWalkable md (Point.x from) (Point.y from) = true ∧
  isPixelWalkable md (Point.x to) (Point.y to) = true.
Proof.
  unfold hasLineOfSight, isPixelWalkable. cbv zeta.
  set (a := pixelToTile md (Point.x from) (Point.y from)).
  set (b := pixelToTile md (Point.x to) (Point.y to)).
  destruct (getLineTiles_total a.1 a.2 b.1 b.2) as (tiles & -> & Hh & Hl).
  intros Hall. rewrite forallb_forall in Hall. split.
  - apply (Hall (a.1, a.2)). apply list_elem_of_In.
    destruct tiles; [done|]. injection Hh as ->. by left.
  - apply (Hall (b.1, b.2)). apply list_elem_of_In.
    apply last_Some in Hl as [l' ->]. apply elem_of_app. right. by left.
Qed.

Lemma hasLineOfSight_endpoints_witness :
  isPixelWalkable corridorMap 24 24 = true ∧ isPixelWalkable corridorMap 120 24 = true.
Proof.
  apply (hasLineOfSight_endpoints corridorMap (Point.mk 24 24) (Point.mk 120 24)).
  vm_compute. reflexivity.
Defined.

(** X17. [smoothPath] only drops waypoints: its result is a sublist of
    the input path (the waypoints that remain, in their original order).
    It never adds or moves a waypoint. *)
Theorem smoothPath_sublist md path : smoothPath md path `sublist_of` path.
Proof. apply smoothPath_sublist_of. Qed.

(** ** state.js *)

(** X18. For an entity that has no workstation entry, [assignWorkstation]
    returns [null] exactly when [getAssignmentStats] reports no available
    workstation. *)
Theorem assignWorkstation_fails_iff_full md entityId tb :
  entityZoneMap tb !! assignmentKey entityId Tworkstations = None →
  (assignWorkstation md entityId tb).1 = None ↔
  availableWorkstations (getAssignmentStats md tb) = 0%nat.
Proof.
  intros Hkey. unfold getAssignmentStats. cbn [availableWorkstations getZonesByType].
  pose proof (length_filter (fun z => isZoneOccupied tb (Zone.id z) = true)
                (workstations md)) as Hle.
  destruct (assignWorkstation_fresh md tb entityId Hkey)
    as [(ws & -> & Hin & Hfree)|[-> Hall]]; cbn [fst].
  - apply isZoneOccupied_false in Hfree.
    pose proof (filter_length_some_not (fun z => isZoneOccupied tb (Zone.id z))
                  (workstations md) ws Hin Hfree) as Hlt.
    split; [done|]. lia.
  - rewrite (filter_length_all (fun z => isZoneOccupied tb (Zone.id z))) by done.
    split; [lia|done].
Qed.

Lemma assignWorkstation_fails_iff_full_witness :
  (assignWorkstation corridorMap "b"
     (assignWorkstation corridorMap "a" clearAllAssignments).2).1 = None ↔
  availableWorkstations
    (getAssignmentStats corridorMap
       (assignWorkstation corridorMap "a" clearAllAssignments).2) = 0%nat.
Proof.
  apply (assignWorkstation_fails_iff_full corridorMap "b").
  vm_compute. reflexivity.
Defined.

(** X19. When the workstation ids of the map are pairwise different, a
    successful [assignWorkstation] for an entity without an entry moves
    exactly one workstation from available to assigned in
    [getAssignmentStats]. *)
Theorem assignWorkstation_counts md entityId tb ws tb' :
  NoDup (map Zone.id (workstations md)) →
  entityZoneMap tb !! assignmentKey entityId Tworkstations = None →
  assignWorkstation md entityId tb = (Some ws, tb') →
  totalWorkstations (getAssignmentStats md tb') = totalWorkstations (getAssignmentStats md tb) ∧
  assignedWorkstations (getAssignmentStats md tb')
    = S (assignedWorkstations (getAssignmentStats md tb)) ∧
  S (availableWorkstations (getAssignmentStats md tb'))
    = availableWorkstations (getAssignmentStats md tb).
Proof.
  intros Hnd Hkey Hrun.
  destruct (assignWorkstation_fresh md tb entityId Hkey)
    as [(ws' & Heq & Hin & Hfree)|[Heq _]]; [|congruence].
  rewrite Heq in Hrun. injection Hrun as -> <-.
  unfold getAssignmentStats.
  cbn [totalWorkstations assignedWorkstations availableWorkstations getZonesByType].
  split; [done|].
  assert (Hcnt : length (filter (fun z => isZoneOccupied
                    {| zoneAssignments := <[Zone.id ws := entityId]> (zoneAssignments tb);
                       entityZoneMap := <[wsKey entityId := Zone.id ws]> (entityZoneMap tb) |}
                    (Zone.id z) = true) (workstations md))
                 = S (length (filter (fun z => isZoneOccupied tb (Zone.id z) = true)
                                (workstations md)))).
  { apply (filter_length_one_more _ _ _ ws); [done|done|by apply isZoneOccupied_false|].
    intros z. unfold isZoneOccupied. cbn [zoneAssignments].
    destruct (decide (Zone.id z = Zone.id ws)) as [Hid|Hid].
    - rewrite Hid, lookup_insert_eq.
      rewrite (bool_decide_eq_true_2 (Zone.id ws = Zone.id ws)) by done.
      rewrite orb_true_r. by apply bool_decide_eq_true_2.
    - rewrite lookup_insert_ne by done.
      rewrite (bool_decide_eq_false_2 (Zone.id z = Zone.id ws)) by done.
      by rewrite orb_false_r. }
  rewrite Hcnt. split; [done|].
  pose proof (filter_length_some_not (fun z => isZoneOccupied tb (Zone.id z))
                (workstations md) ws Hin ltac:(by apply isZoneOccupied_false)) as Hlt.
  lia.
Qed.

Lemma assignWorkstation_counts_witness :
  let tb' := (assignWorkstation corridorMap "a" clearAllAssignments).2 in
  totalWorkstations (getAssignmentStats corridorMap tb')
    = totalWorkstations (getAssignmentStats corridorMap clearAllAssignments) ∧
  assignedWorkstations (getAssignmentStats corridorMap tb')
    = S (assignedWorkstations (getAssignmentStats corridorMap clearAllAssignments)) ∧
  S (availableWorkstations (getAssignmentStats corridorMap tb'))
    = availableWorkstations (getAssignmentStats corridorMap clearAllAssignments).
Proof.
  apply (assignWorkstation_counts corridorMap "a" clearAllAssignments
           (mkZone "desk-1" 0 0 48 48)).
  - apply (bool_decide_unpack _). vm_compute. reflexivity.
  - vm_compute. reflexivity.
  - vm_compute. reflexivity.
Defined.

(** X20. [assignWorkstation] is idempotent: after a call that returned a
    workstation, a second call for the same entity returns a workstation
    with the same id and leaves both tables as they are (zone ids being
    non-empty strings). *)
Theorem assignWorkstation_idempotent md entityId tb ws tb' :
  workstation_ids_truthy md →
  assignWorkstation md entityId tb = (Some ws, tb') →
  ∃ ws', assignWorkstation md entityId tb' = (Some ws', tb') ∧ Zone.id ws' = Zone.id ws.
Proof.
  intros Hids Hrun. unfold assignWorkstation in Hrun |- *.
  destruct (getAssignedZone md tb entityId Tworkstations) as [existing|] eqn:Hex.
  { injection Hrun as -> ->. exists ws. by rewrite Hex. }
  destruct (List.find _ (workstations md)) as [ws0|] eqn:Hfind; [|done].
  injection Hrun as -> <-.
  apply find_some in Hfind as [Hin _]. apply list_elem_of_In in Hin.
  unfold getAssignedZone. cbn [entityZoneMap getZonesByType].
  rewrite lookup_insert_eq.
  unfold workstation_ids_truthy in Hids. rewrite Forall_forall in Hids.
  rewrite (Hids ws Hin).
  destruct (find_id_some (workstations md) (Zone.id ws)) as (z & -> & Hz).
  { apply list_elem_of_fmap. by exists ws. }
  by exists z.
Qed.

Lemma assignWorkstation_idempotent_witness :
  let tb' := (assignWorkstation corridorMap "a" clearAllAssignments).2 in
  ∃ ws', assignWorkstation corridorMap "a" tb' = (Some ws', tb') ∧
         Zone.id ws' = Zone.id (mkZone "desk-1" 0 0 48 48).
Proof.
  apply (assignWorkstation_idempotent corridorMap "a" clearAllAssignments).
  - unfold workstation_ids_truthy. simpl. repeat constructor.
  - vm_compute. reflexivity.
Defined.

(** X21. Assign then release is a round trip: for an entity without an
    entry, [releaseWorkstation] after [assignWorkstation] gives back
    exactly the tables from before the assignment, whether or not a
    workstation was available (zone ids being non-empty strings). *)
Theorem release_after_assign md entityId tb :
  workstation_ids_truthy md →
  entityZoneMap tb !! assignmentKey entityId Tworkstations = None →
  releaseWorkstation entityId (assignWorkstation md entityId tb).2 = tb.
Proof.
  intros Hids Hkey.
  destruct (assignWorkstation_fresh md tb entityId Hkey)
    as [(ws & -> & Hin & Hfree)|[-> _]]; cbn [snd].
  - unfold releaseWorkstation. cbn [entityZoneMap zoneAssignments].
    change (assignmentKey entityId Tworkstations) with (wsKey entityId).
    rewrite lookup_insert_eq.
    unfold workstation_ids_truthy in Hids. rewrite Forall_forall in Hids.
    rewrite (Hids ws Hin).
    rewrite !delete_insert_id by done. by destruct tb.
  - unfold releaseWorkstation. by rewrite Hkey.
Qed.

Lemma release_after_assign_witness :
  releaseWorkstation "a" (assignWorkstation corridorMap "a" clearAllAssignments).2
    = clearAllAssignments.
Proof.
  apply (release_after_assign corridorMap "a" clearAllAssignments).
  - unfold workstation_ids_truthy. simpl. repeat constructor.
  - vm_compute. reflexivity.
Defined.

(** X22. What [clearEntityAssignments] removes, in tables built by the
    three operations: a workstation stays assigned exactly when the key of
    its holder does not start with the cleared id followed by a colon. So
    the cleared entity loses its workstation, and so does every entity
    whose own id starts with the cleared id and a colon: the [startsWith]
    test does not tell the two apart. *)
Theorem clearEntityAssignments_exact md ops entityId :
  workstation_ids_truthy md →
  let tb := runOps md ops in
  let tb' := clearEntityAssignments entityId tb in
  (∀ w e, zoneAssignments tb' !! w = Some e ↔
          zoneAssignments tb !! w = Some e ∧
          String.prefix (entityId +:+ ":") (assignmentKey e Tworkstations) = false) ∧
  (∀ w, zoneAssignments tb' !! w ≠ Some entityId) ∧
  (∀ w suffix, zoneAssignments tb' !! w ≠ Some (entityId +:+ ":" +:+ suffix)).
Proof.
  intros Hids tb tb'.
  pose proof (runOps_consistent md Hids ops) as Hc. fold tb in Hc.
  assert (H1 : ∀ w e, zoneAssignments tb' !! w = Some e ↔
            zoneAssignments tb !! w = Some e ∧
            String.prefix (entityId +:+ ":") (assignmentKey e Tworkstations) = false).
  { intros w e. by apply (clearEntityAssignments_lookup md). }
  split; [done|]. split.
  - intros w Hw. apply H1 in Hw as [_ Hp].
    unfold assignmentKey in Hp.
    change (entityId +:+ ":" +:+ zoneTypeName Tworkstations)
      with (entityId +:+ (":" +:+ "workstations")) in Hp.
    rewrite <- (string_app_assoc entityId ":" "workstations") in Hp.
    by rewrite prefix_app in Hp.
  - intros w suffix Hw. apply H1 in Hw as [_ Hp].
    unfold assignmentKey in Hp.
    rewrite <- (string_app_assoc entityId ":" suffix) in Hp.
    rewrite (string_app_assoc (entityId +:+ ":")) in Hp.
    by rewrite prefix_app in Hp.
Qed.

Lemma clearEntityAssignments_exact_witness :
  let tb := runOps corridorMap [OpAssign "a:b"] in
  let tb' := clearEntityAssignments "a" tb in
  (∀ w e, zoneAssignments tb' !! w = Some e ↔
          zoneAssignments tb !! w = Some e ∧
          String.prefix ("a" +:+ ":") (assignmentKey e Tworkstations) = false) ∧
  (∀ w, zoneAssignments tb' !! w ≠ Some "a") ∧
  (∀ w suffix, zoneAssignments tb' !! w ≠ Some ("a" +:+ ":" +:+ suffix)).
Proof.
  apply (clearEntityAssignments_exact corridorMap [OpAssign "a:b"] "a").
  unfold workstation_ids_truthy. simpl. repeat constructor.
Defined.

(** The agent "a:b" holds the only desk; clearing the agent "a" frees it. *)
Example clear_frees_prefixed_agent :
  let tb := runOps corridorMap [OpAssign "a:b"] in
  getZoneOccupant tb "desk-1" = Some "a:b" ∧
  getZoneOccupant (clearEntityAssignments "a" tb) "desk-1" = None.
Proof. vm_compute. done. Qed.

(** X23. The legacy desk names agree with the workstation tables: when
    [assignDesk] gives a desk to an entity that had no entry,
    [getDeskForEntity] returns that desk, [deskAssignments] shows the
    entity on it and [releaseDesk] restores the tables from before. An
    entity whose id is the empty string is the exception the truthiness
    tests make: [deskAssignments] shows [null] for its desk and
    [releaseDesk] leaves the desk taken. *)
Theorem desk_round_trip md entityId tb deskId tb' :
  workstation_ids_truthy md →
  entityZoneMap tb !! assignmentKey entityId Tworkstations = None →
  assignDesk md entityId tb = (Some deskId, tb') →
  getDeskForEntity md tb' entityId = Some deskId ∧
  deskAssignments tb' deskId = (if truthy entityId then Some entityId else None) ∧
  releaseDesk deskId tb' = (if truthy entityId then tb else tb').
Proof.
  intros Hids Hkey Hrun. unfold assignDesk in Hrun.
  destruct (assignWorkstation_fresh md tb entityId Hkey)
    as [(ws & Heq & Hin & Hfree)|[Heq _]]; rewrite Heq in Hrun; [|done].
  injection Hrun as <- <-.
  unfold workstation_ids_truthy in Hids. rewrite Forall_forall in Hids.
  pose proof (Hids ws Hin) as Hws.
  split; [|split].
  - unfold getDeskForEntity, getEntityWorkstation, getAssignedZone.
    cbn [entityZoneMap getZonesByType].
    change (assignmentKey entityId Tworkstations) with (wsKey entityId).
    rewrite lookup_insert_eq, Hws.
    destruct (find_id_some (workstations md) (Zone.id ws)) as (z & -> & Hz).
    { apply list_elem_of_fmap. by exists ws. }
    simpl. by rewrite Hz.
  - unfold deskAssignments, getZoneOccupant. cbn [zoneAssignments].
    by rewrite lookup_insert_eq.
  - unfold releaseDesk. cbn [zoneAssignments]. rewrite lookup_insert_eq.
    destruct (truthy entityId); [|done].
    unfold releaseWorkstation. cbn [entityZoneMap zoneAssignments].
    change (assignmentKey entityId Tworkstations) with (wsKey entityId).
    rewrite lookup_insert_eq, Hws.
    rewrite !delete_insert_id by done. by destruct tb.
Qed.

Lemma desk_round_trip_witness :
  let tb' := (assignDesk corridorMap "a" clearAllAssignments).2 in
  getDeskForEntity corridorMap tb' "a" = Some "desk-1" ∧
  deskAssignments tb' "desk-1" = (if truthy "a" then Some "a" else None) ∧
  releaseDesk "desk-1" tb' = (if truthy "a" then clearAllAssignments else tb').
Proof.
  apply (desk_round_trip corridorMap "a" clearAllAssignments "desk-1").
  - unfold workstation_ids_truthy. simpl. repeat constructor.
  - vm_compute. reflexivity.
  - vm_compute. reflexivity.
Defined.

(** ** entities/state.js *)

(** X24. When the target zone cannot be resolved (no zone of the state's
    category, or no free workstation), [processStateQueue] puts the popped
    entry back at the front and changes nothing else of the agent: the
    queue is the old one with its leading duplicates collapsed, and the
    agent does not start to move. *)
Theorem requeue_without_zone md now e w info rest w1 :
  Entity.isMoving e = false → displayElapsed now e →
  collapse (Entity.stateQueue e) = info :: rest →
  Some (state info) ≠ Entity.visualState e →
  getTargetZone md (Entity.set_stateQueue rest e) (state info)
    (releaseIfLeavingCoding (state info) (Entity.set_stateQueue rest e) w).2
    = (None, w1) →
  processStateQueue md now e w
    = (Entity.set_stateQueue (collapse (Entity.stateQueue e)) e, w1).
Proof.
  intros Hmov Hdisp Hcol Hne Hzone.
  rewrite (processStateQueue_pop md now e w info rest Hmov Hdisp Hcol).
  cbv zeta. rewrite bool_decide_eq_false_2 by done.
  unfold resolveAndMove, bind, ret. rewrite Hzone, Hcol. by destruct e.
Qed.

Lemma requeue_without_zone_witness :
  let q := [ {| state := CODING; queuedAt := 1 |}; {| state := CODING; queuedAt := 2 |};
             {| state := IDLE; queuedAt := 3 |} ] in
  let e := mkEntity (Some SPAWNED) q 1 0 in
  processStateQueue walledMap 5000 e emptyWorld
    = (Entity.set_stateQueue (collapse (Entity.stateQueue e)) e, emptyWorld).
Proof.
  apply (requeue_without_zone walledMap 5000
           (mkEntity (Some SPAWNED)
              [ {| state := CODING; queuedAt := 1 |}; {| state := CODING; queuedAt := 2 |};
                {| state := IDLE; queuedAt := 3 |} ] 1 0)
           emptyWorld {| state := CODING; queuedAt := 2 |}
           [ {| state := IDLE; queuedAt := 3 |} ]).
  - reflexivity.
  - right. vm_compute. discriminate.
  - reflexivity.
  - discriminate.
  - reflexivity.
Defined.

(** ** mapData.js and entities/wandering.js *)



(** ** entities/movement.js and entities/utils.js *)



(** X27. Teleporting to the center of a tile puts the agent on that tile:
    after [teleportEntity] to [tileToPixel] of a tile, [getEntityTile] is
    that tile and [isEntityAtTile] holds for it and for no other tile; the
    agent stands still with an empty path. *)
Theorem teleport_to_tile md e tileX tileY :
  0 < tileWidth md → 0 < tileHeight md →
  let p := tileToPixel md tileX tileY in
  let e' := teleportEntity (Point.x p) (Point.y p) e in
  getEntityTile md e' = (tileX, tileY) ∧
  (∀ x y, isEntityAtTile md e' x y = true ↔ x = tileX ∧ y = tileY) ∧
  Entity.isMoving e' = false ∧ Entity.path e' = [] ∧ Entity.pathIndex e' = 0%nat.
Proof.
  intros Hw Hh p e'.
  assert (Ht : getEntityTile md e' = (tileX, tileY)).
  { subst e' p. unfold getEntityTile, teleportEntity. cbn [Entity.x Entity.y
      Entity.set_isMoving Entity.set_pathIndex Entity.set_path Entity.set_xy].
    apply (pixelToTile_tileToPixel md (tileX, tileY) Hw Hh). }
  split; [done|]. split; [|done].
  intros x y. unfold isEntityAtTile. cbv zeta. rewrite Ht. cbn [fst snd].
  rewrite andb_true_iff, !Z.eqb_eq. split; intros [-> ->]; done.
Qed.

Lemma teleport_to_tile_witness :
  let p := tileToPixel corridorMap 2 0 in
  let e' := teleportEntity (Point.x p) (Point.y p) (mkEntity (Some IDLE) [] 1 0) in
  getEntityTile corridorMap e' = (2, 0) ∧
  (∀ x y, isEntityAtTile corridorMap e' x y = true ↔ x = 2 ∧ y = 0) ∧
  Entity.isMoving e' = false ∧ Entity.path e' = [] ∧ Entity.pathIndex e' = 0%nat.
Proof.
  apply (teleport_to_tile corridorMap (mkEntity (Some IDLE) [] 1 0) 2 0); reflexivity.
Defined.

(** ** network.js, entities/create.js and mapData.js *)

(** X28. The client's store stays coherent under the server's messages:
    after any sequence of messages handled from the empty store,
    [spawnOrder] lists exactly the ids that [entities] holds and every
    entity is stored under its own id; and as long as no [FULL_STATE]
    message is among them, the selected entity, if any, is one of the
    store. *)
Theorem store_invariant md pixelWidth pixelHeight msgs w :
  let st := (runMessages md pixelWidth pixelHeight msgs (emptyStore, w)).1 in
  (∀ id, id ∈ spawnOrder st ↔ is_Some (entities st !! id)) ∧
  (∀ id e, entities st !! id = Some e → Entity.id e = id) ∧
  (forallb (fun m : Z * Message => negb (isFullState m.2)) msgs = true →
   ∀ id, selectedEntityId st = Some id → is_Some (entities st !! id)).
Proof.
  intros st.
  destruct (runMessages_ok md pixelWidth pixelHeight msgs (emptyStore, w)) as [[Ha Hb] Hc].
  { split; cbn.
    - intros id. rewrite lookup_empty. split; [by intros ?%elem_of_nil|by intros [? ?]].
    - intros id e. by rewrite lookup_empty. }
  split; [exact Ha|]. split; [exact Hb|]. intros Hnf. apply Hc; [done|].
  intros id. done.
Qed.

(** A [FULL_STATE] message replaces the entities but keeps the selection:
    the agent selected before is no longer in the store. *)
Example full_state_keeps_selection :
  let st := (runMessages corridorMap 144 48
               [(1, ENTITY_SPAWNED "a" "cat"); (2, FULL_STATE [])]
               (emptyStore, emptyWorld)).1 in
  selectedEntityId st = Some "a" ∧ entities st !! "a" = None.
Proof. vm_compute. done. Qed.

(** X29. Despawning an agent that is in the store removes every trace of
    it: it is gone from [entities] and from [spawnOrder], it is not the
    selection, and (the tables being built by the three table operations)
    no workstation is assigned to it any more. *)
Theorem despawn_releases md ops id e st w :
  workstation_ids_truthy md →
  tables w = runOps md ops →
  entities st !! id = Some e → Entity.id e = id →
  let st' := (handleEntityDespawned id st w).1 in
  let w' := (handleEntityDespawned id st w).2 in
  entities st' !! id = None ∧ (id ∉ spawnOrder st') ∧
  selectedEntityId st' ≠ Some id ∧
  ∀ wk, zoneAssignments (tables w') !! wk ≠ Some id.
Proof.
  intros Hids Htb He Hid st' w'. subst st' w'.
  destruct (handleEntityDespawned_fields id st w) as (-> & -> & -> & ->).
  rewrite He. split; [apply lookup_delete_eq|]. split; [|split].
  - rewrite list_elem_of_filter. by intros [? _].
  - case_bool_decide as Hsel.
    + intros Hl. apply last_Some in Hl as [l' Hl].
      assert (Hin : id ∈ filter (fun i => i ≠ id) (spawnOrder st)).
      { rewrite Hl. apply elem_of_app. right. by left. }
      apply list_elem_of_filter in Hin as [? _]. done.
    + done.
  - intros wk Hwk. unfold cleanupEntity in Hwk. rewrite Hid, Htb in Hwk.
    apply (clearEntityAssignments_lookup md) in Hwk as [_ Hp];
      [|by apply runOps_consistent].
    unfold wsKey, assignmentKey in Hp.
    change (id +:+ ":" +:+ zoneTypeName Tworkstations)
      with (id +:+ (":" +:+ "workstations")) in Hp.
    rewrite <- (string_app_assoc id ":" "workstations") in Hp.
    by rewrite prefix_app in Hp.
Qed.

Lemma despawn_releases_witness :
  let w := {| tables := runOps corridorMap [OpAssign "agent-1"];
              randomSeq := fun _ => (1 # 2)%Q; randomPos := 0%nat |} in
  let st := {| entities := {[ "agent-1" := mkEntity (Some CODING) [] 1 0 ]};
               spawnOrder := ["agent-1"]; selectedEntityId := Some "agent-1" |} in
  let st' := (handleEntityDespawned "agent-1" st w).1 in
  let w' := (handleEntityDespawned "agent-1" st w).2 in
  entities st' !! "agent-1" = None ∧ ("agent-1" ∉ spawnOrder st') ∧
  selectedEntityId st' ≠ Some "agent-1" ∧
  ∀ wk, zoneAssignments (tables w') !! wk ≠ Some "agent-1".
Proof.
  apply (despawn_releases corridorMap [OpAssign "agent-1"] "agent-1"
           (mkEntity (Some CODING) [] 1 0)).
  - unfold workstation_ids_truthy. simpl. repeat constructor.
  - reflexivity.
  - vm_compute. reflexivity.
  - reflexivity.
Defined.


